(** * Contact assembly of DOLFINx_Contact ([src/cpp/Contact.cpp])

    A shallow embedding of the linked-cell resolution, the coefficient
    layout, the sparsity pattern and the two assembly loops of
    [dolfinx_contact::Contact], with the properties the specification
    states about them.

    Conventions.
    - [std::int32_t] and [int] values are integers of [Z]; loop counters and
      container sizes of type [std::size_t] are [nat], and [std::size_t]
      arithmetic that produces a value (the coefficient size, the buffer
      sizes) wraps modulo [2^64].
    - An unchecked access outside a container ([operator[]] of a vector, a
      span or an array, [std::copy_n], [std::fill] on a missing block) is
      undefined behaviour in C++; it is the outcome [Abort UndefinedBehaviour].
      This outcome says that the C++ standard gives the run no meaning from
      there on, not that the program stops: a build may go on with any
      value, fail an assertion later or crash. A failed [assert] in a run
      that is defined up to it is [Abort AssertionFailure].
    - Arithmetic on [int] and [std::int32_t] is not wrapped: a signed
      overflow is undefined behaviour in C++, and the properties below
      concern runs in which index computations such as [bs * dof + k] stay
      in range.
    - The external sort [dolfinx::radix_sort], the scalar type [PetscScalar]
      with its addition, the kernel, [mat_set] and the finalisation of the
      sparsity pattern are not part of the repository: they are
      parameters. *)

From Stdlib Require Import ZArith Lia.
From Stdlib Require Floats.PrimFloat.
From stdpp Require Import base tactics list list_numbers sorting gmap.

#[local] Open Scope Z_scope.
#[local] Set Warnings "-clear-no-such-hyp".

(** ** Outcomes of a C++ computation *)

Inductive fault : Type :=
  | AssertionFailure
  | UndefinedBehaviour.

Inductive result (A : Type) : Type :=
  | Ok (a : A)
  | Abort (e : fault).

Arguments Ok {A} a.
Arguments Abort {A} e.

#[global] Instance result_ret : MRet result := λ A a, Ok a.
#[global] Instance result_bind : MBind result :=
  λ A B f m, match m with Ok a => f a | Abort e => Abort e end.

Definition is_Ok {A} (r : result A) : Prop := ∃ a, r = Ok a.

(** [assert(cond)] *)
Definition assert (cond : bool) : result unit :=
  if cond then Ok () else Abort AssertionFailure.

(** [v[i]] for a [std::size_t] index. *)
Definition at_nat {A} (v : list A) (i : nat) : result A :=
  match v !! i with
  | Some x => Ok x
  | None => Abort UndefinedBehaviour
  end.

(** [v[i]] for a signed index. *)
Definition at_Z {A} (v : list A) (i : Z) : result A :=
  if decide (0 ≤ i) then at_nat v (Z.to_nat i) else Abort UndefinedBehaviour.

(** A loop over [l] that threads the state [s] through [body]. *)
Fixpoint foldM `{MBind M, MRet M} {S B} (body : S → B → M S) (s : S)
    (l : list B) : M S :=
  match l with
  | [] => mret s
  | x :: l' => s' ← body s x; foldM body s' l'
  end.

(** ** Containers of DOLFINx used by the code *)

(** [dolfinx::graph::AdjacencyList<std::int32_t>]: node [i] has the links
    [g[i]]. *)
Abbreviation AdjacencyList := (list (list Z)).

Definition links (g : AdjacencyList) (node : Z) : result (list Z) :=
  at_Z g node.

(** A [std::array<T, 2>] member indexed by a surface number. *)
Definition get2 {A} (a : A * A) (s : Z) : result A :=
  if decide (s = 0) then Ok (a.1)
  else if decide (s = 1) then Ok (a.2)
  else Abort UndefinedBehaviour.

(** Local indices of cells, facets and dofs are non-negative [std::int32_t]
    values. *)
Definition is_index (x : Z) : Prop := 0 ≤ x < 2 ^ 31.

#[global] Instance is_index_dec x : Decision (is_index x).
Proof. unfold is_index. apply _. Defined.

(** [std::unique] followed by [erase]: of each run of equal neighbours the
    first one is kept. *)
Fixpoint unique_from (prev : Z) (l : list Z) : list Z :=
  match l with
  | [] => []
  | y :: l' =>
      if decide (prev = y) then unique_from prev l' else y :: unique_from y l'
  end.

Definition unique (l : list Z) : list Z :=
  match l with
  | [] => []
  | x :: l' => x :: unique_from x l'
  end.

(** ** Linked cells *)

Section LinkedCells.

(** [dolfinx::radix_sort] on a span of [std::int32_t]. *)
Variable radix_sort : list Z → list Z.

(** The lambda of [std::transform] in [compute_linked_cells]. *)
Definition parent_of_facet (sub_to_parent : AdjacencyList)
    (parent_cells : list Z) (facet : Z) : result Z :=
  facet_pair ← links sub_to_parent facet;
  _ ← assert (bool_decide (length facet_pair = 2%nat));
  sub_cell ← at_nat facet_pair 0;
  at_Z parent_cells sub_cell.

(** [compute_linked_cells]: the in-out vector [linked_cells] is resized and
    overwritten, so the result does not depend on its previous content. *)
Definition compute_linked_cells (submesh_facets : list Z)
    (sub_to_parent : AdjacencyList) (parent_cells : list Z)
    : result (list Z) :=
  linked_cells ← mapM (parent_of_facet sub_to_parent parent_cells)
                      submesh_facets;
  mret (unique (radix_sort linked_cells)).

End LinkedCells.

(** What the code relies on from [dolfinx::radix_sort]: on local indices it
    returns the same values in ascending order. *)
Definition radix_sort_contract (radix_sort : list Z → list Z) : Prop :=
  ∀ l, Forall is_index l → Sorted Z.le (radix_sort l) ∧ radix_sort l ≡ₚ l.

(** A sort that meets the contract, to run the definitions on examples. *)
Definition reference_sort : list Z → list Z := merge_sort Z.le.

(** ** Mesh, function space and contact data *)

(** [std::size_t] arithmetic. *)
Definition size_t_wrap (z : Z) : Z := z mod 2 ^ 64.
Definition size_t_add (a b : Z) : Z := size_t_wrap (a + b).
Definition size_t_mul (a b : Z) : Z := size_t_wrap (a * b).

(** [dolfinx::mesh::Geometry]: [dim()], [dofmap()], [x()] and [cmap().dim()]. *)
Record Geometry (double : Type) : Type := {
  geometry_dim : Z;
  geometry_dofmap : AdjacencyList;
  geometry_x : list double;
  cmap_dim : Z;
}.
Arguments geometry_dim {double} _.
Arguments geometry_dofmap {double} _.
Arguments geometry_x {double} _.
Arguments cmap_dim {double} _.

(** [dolfinx::fem::DofMap]: the dofs of each cell and the block size. *)
Record DofMap : Type := {
  dofmap_cells : AdjacencyList;
  dofmap_bs : Z;
}.

Definition cell_dofs (dofmap : DofMap) (cell : Z) : result (list Z) :=
  links (dofmap_cells dofmap) cell.

(** [dolfinx_contact::SubMesh]: [facet_map()] sends a facet of the submesh to
    (submesh cell, local facet index); [parent_cells()] sends a submesh cell
    to its cell of the parent mesh. *)
Record SubMesh : Type := {
  facet_map : AdjacencyList;
  parent_cells : list Z;
}.

(** The members of [dolfinx_contact::Contact] that the functions read.
    [marker_mesh] is the pointer [_marker->mesh()]. *)
Record Contact (double : Type) : Type := {
  marker_mesh : option (Geometry double);
  V_dofmap : DofMap;
  _cell_facet_pairs : list (Z * Z) * list (Z * Z);
  _submeshes : SubMesh * SubMesh;
  _facet_maps : AdjacencyList * AdjacencyList;
  _opposites : Z * Z;
  _max_links : Z * Z;
  _qp_ref_facet : list (list (list double));
}.
Arguments marker_mesh {double} _.
Arguments V_dofmap {double} _.
Arguments _cell_facet_pairs {double} _.
Arguments _submeshes {double} _.
Arguments _facet_maps {double} _.
Arguments _opposites {double} _.
Arguments _max_links {double} _.
Arguments _qp_ref_facet {double} _.

(** Dereferencing a pointer that is not checked first. *)
Definition deref {A} (p : option A) : result A :=
  match p with
  | Some a => Ok a
  | None => Abort UndefinedBehaviour
  end.

(** [auto mesh = ...; assert(mesh);] *)
Definition assert_ptr {A} (p : option A) : result A :=
  match p with
  | Some a => Ok a
  | None => Abort AssertionFailure
  end.

(** ** The coefficient layout *)

(** The [return] expression of [coefficients_size], on [std::size_t]. *)
Definition coefficients_size_expr
    (num_q_points gdim ndofs_cell bs max_links : Z) : Z :=
  size_t_add
    (size_t_add 3
       (size_t_mul num_q_points
          (size_t_add
             (size_t_add (size_t_mul 2 gdim)
                (size_t_mul (size_t_mul ndofs_cell bs) max_links))
             bs)))
    (size_t_mul ndofs_cell bs).

Definition coefficients_size {double} (c : Contact double) : result Z :=
  mesh ← deref (marker_mesh c);
  let gdim := size_t_wrap (geometry_dim mesh) in
  let dofmap := V_dofmap c in
  dofs0 ← cell_dofs dofmap 0;
  let ndofs_cell := Z.of_nat (length dofs0) in
  let bs := size_t_wrap (dofmap_bs dofmap) in
  qp0 ← at_nat (_qp_ref_facet c) 0;
  let num_q_points := Z.of_nat (length qp0) in
  let max_links := Z.max (_max_links c).1 (_max_links c).2 in
  mret (coefficients_size_expr num_q_points gdim ndofs_cell bs max_links).

(** The size as the specification writes it, over the integers. *)
Definition layout_size_formula
    (numQuadPoints gdim dofsPerCell blockSize maxLinksGlobal : Z) : Z :=
  3 + numQuadPoints
      * (2 * gdim + dofsPerCell * blockSize * maxLinksGlobal + blockSize)
  + dofsPerCell * blockSize.

(** ** The sparsity pattern *)

(** [dolfinx::la::SparsityPattern] as the set of its (row, column) entries;
    [insert(rows, cols)] adds every pair of a row and a column. *)
Definition pattern_insert (pattern : gset (Z * Z)) (rows cols : list Z)
    : gset (Z * Z) :=
  pattern ∪ list_to_set (r ← rows; c ← cols; [(r, c)]).

Section SparsityPattern.

Variable radix_sort : list Z → list Z.
(** [pattern.assemble()] followed by [create_matrix]. *)
Variable pattern_assemble : gset (Z * Z) → gset (Z * Z).

(** The loop over [_facet_maps[s]->links(i)] that collects the dofs of the
    linked cells. *)
Definition collect_linked_dofs (dofmap : DofMap) (facet_map : AdjacencyList)
    (parent_cells : list Z) (candidates : list Z) : result (list Z) :=
  foldM (λ linked_dofs link,
           facet_pair ← links facet_map link;
           linked_sub_cell ← at_nat facet_pair 0;
           linked_cell ← at_Z parent_cells linked_sub_cell;
           linked_cell_dofs ← cell_dofs dofmap linked_cell;
           mret (linked_dofs ++ linked_cell_dofs))
        [] candidates.

(** The body of the loop over the facets [i] of surface [s]. *)
Definition pattern_facet {double} (c : Contact double) (dofmap : DofMap)
    (s : Z) (sub : SubMesh) (pairs : list (Z * Z))
    (pattern : gset (Z * Z)) (i : nat) : result (gset (Z * Z)) :=
  '(cell, _) ← at_nat pairs i;
  cell_dofs ← cell_dofs dofmap cell;
  map ← get2 (_facet_maps c) s;
  candidates ← links map (Z.of_nat i);
  linked_dofs ← collect_linked_dofs dofmap (facet_map sub)
                   (parent_cells sub) candidates;
  let linked_dofs := unique (radix_sort linked_dofs) in
  let pattern := pattern_insert pattern cell_dofs linked_dofs in
  mret (pattern_insert pattern linked_dofs cell_dofs).

(** The body of the loop over the two surfaces. *)
Definition pattern_surface {double} (c : Contact double) (dofmap : DofMap)
    (pattern : gset (Z * Z)) (s : Z) : result (gset (Z * Z)) :=
  opposite ← get2 (_opposites c) s;
  sub ← get2 (_submeshes c) opposite;
  pairs ← get2 (_cell_facet_pairs c) s;
  foldM (pattern_facet c dofmap s sub pairs) pattern
        (seq 0 (length pairs)).

(** [create_petsc_matrix]: [base_pattern] is
    [dolfinx::fem::create_sparsity_pattern(a)] and [dofmap] is
    [a.function_spaces().at(0)->dofmap()]; the result is the pattern the
    matrix is created from. *)
Definition create_petsc_matrix {double} (c : Contact double)
    (base_pattern : gset (Z * Z)) (dofmap : DofMap)
    : result (gset (Z * Z)) :=
  pattern ← foldM (pattern_surface c dofmap) base_pattern [0; 1];
  mret (pattern_assemble pattern).

End SparsityPattern.

(** ** Kernel calls and [mat_set] calls *)

(** The arguments of one call of a [contact_kernel_fn]. [k_coeffs] is the
    coefficient array from [coeffs.data() + i * cstride] on, for an offset
    within the span, [0 <= i * cstride <= coeffs.size()]; the source forms
    the pointer without a check, and a pointer outside the span has no
    counterpart here, so that what is said of [k_coeffs] below is said for
    offsets within the span. [k_blocks] is the block set the kernel
    receives and updates in place. *)
Record kernel_args (PetscScalar double : Type) : Type := KernelArgs {
  k_blocks : list (list PetscScalar);
  k_coeffs : list PetscScalar;
  k_constants : list PetscScalar;
  k_coordinate_dofs : list double;
  k_local_index : Z;
  k_perm : Z;
  k_num_linked_cells : nat;
}.
Arguments KernelArgs {PetscScalar double} _ _ _ _ _ _ _.
Arguments k_blocks {PetscScalar double} _.
Arguments k_coeffs {PetscScalar double} _.
Arguments k_constants {PetscScalar double} _.
Arguments k_coordinate_dofs {PetscScalar double} _.
Arguments k_local_index {PetscScalar double} _.
Arguments k_perm {PetscScalar double} _.
Arguments k_num_linked_cells {PetscScalar double} _.

(** What an assembly call does to the outside: it calls the kernel and it
    calls [mat_set]. *)
Inductive event (PetscScalar double : Type) : Type :=
  | KernelCall (a : kernel_args PetscScalar double)
  | MatSet (rows cols : list Z) (block : list PetscScalar).
Arguments KernelCall {PetscScalar double} a.
Arguments MatSet {PetscScalar double} rows cols block.

(** A computation that records its calls, in order, and then returns or
    aborts; the calls made before an abort stay recorded. *)
Record traced (E A : Type) : Type := Traced {
  trace : list E;
  outcome : result A;
}.
Arguments Traced {E A} trace outcome.
Arguments trace {E A} _.
Arguments outcome {E A} _.

#[global] Instance traced_ret {E} : MRet (traced E) := λ A a, Traced [] (Ok a).
#[global] Instance traced_bind {E} : MBind (traced E) :=
  λ A B f m,
    match outcome m with
    | Ok a => Traced (trace m ++ trace (f a)) (outcome (f a))
    | Abort e => Traced (trace m) (Abort e)
    end.

Definition lift {E A} (r : result A) : traced E A := Traced [] r.

Section Assembly.
Context {PetscScalar double : Type}.
Variable zero : PetscScalar.
Variable add : PetscScalar → PetscScalar → PetscScalar.
Variable dzero : double.
Variable radix_sort : list Z → list Z.

#[local] Abbreviation blocks := (list (list PetscScalar)).
#[local] Abbreviation M := (traced (event PetscScalar double)).
#[local] Abbreviation contact_kernel_fn :=
  (kernel_args PetscScalar double → list (list PetscScalar)).

(** [kernel(blocks, coeffs, constants, coordinate_dofs, &local_index, &perm,
    num_linked_cells)]: the call is recorded and the blocks are replaced by
    what the kernel left in them. *)
Definition call_kernel (kernel : contact_kernel_fn)
    (a : kernel_args PetscScalar double) : M blocks :=
  Traced [KernelCall a] (Ok (kernel a)).

(** [mat_set(rows, cols, block)] *)
Definition mat_set (rows cols : list Z) (block : list PetscScalar) : M unit :=
  Traced [MatSet rows cols block] (Ok ()).

(** [std::copy_n(std::next(src.begin(), off), n, std::next(dst.begin(), doff))] *)
Definition copy_n {A} (src : list A) (off : Z) (n : Z) (dst : list A)
    (doff : nat) : result (list A) :=
  let n' := Z.to_nat n in
  if decide (0 ≤ off ∧ (Z.to_nat off + n' ≤ length src)%nat
             ∧ (doff + n' ≤ length dst)%nat)
  then Ok (take doff dst ++ take n' (drop (Z.to_nat off) src)
                 ++ drop (doff + n') dst)
  else Abort UndefinedBehaviour.

(** The loop that copies the coordinates of the cell's geometry nodes into
    [coordinate_dofs]. *)
Definition gather_coordinates (x_g : list double) (gdim : Z)
    (x_dofs : list Z) (coordinate_dofs : list double) : result (list double) :=
  foldM (λ coordinate_dofs j,
           x_dof ← at_nat x_dofs j;
           copy_n x_g (3 * x_dof) gdim coordinate_dofs (j * 3))
        coordinate_dofs (seq 0 (length x_dofs)).

(** [std::fill(Aes[k].begin(), Aes[k].end(), 0)] *)
Definition fill_zero (Aes : blocks) (k : nat) : result blocks :=
  match Aes !! k with
  | Some block => Ok (<[k := replicate (length block) zero]> Aes)
  | None => Abort UndefinedBehaviour
  end.

(** The zero fill of [assemble_matrix]: block 0, then blocks [3j+1], [3j+2]
    and [3j+3] for every linked cell [j]. *)
Definition zero_matrix_blocks (Aes : blocks) (num_linked_cells : nat)
    : result blocks :=
  Aes ← fill_zero Aes 0;
  foldM (λ Aes j,
           Aes ← fill_zero Aes (3 * j + 1);
           Aes ← fill_zero Aes (3 * j + 2);
           fill_zero Aes (3 * j + 3))
        Aes (seq 0 num_linked_cells).

(** The zero fill of [assemble_vector]: block 0, then block [j+1] for every
    linked cell [j]. *)
Definition zero_vector_blocks (bes : blocks) (num_linked_cells : nat)
    : result blocks :=
  bes ← fill_zero bes 0;
  foldM (λ bes j, fill_zero bes (j + 1)) bes (seq 0 num_linked_cells).

(** [b[p] += v] on the span [b]. *)
Definition add_at (b : list PetscScalar) (p : Z) (v : PetscScalar)
    : result (list PetscScalar) :=
  x ← at_Z b p;
  mret (<[Z.to_nat p := add x v]> b).

(** The two nested loops that add block [m] of [bes], for a cell with dofs
    [dofs], to the global vector:
    [for j < ndofs_cell, for k < bs: b[bs * dofs[j] + k] += bes[m][bs * j + k]]. *)
Definition scatter_block (bs : Z) (ndofs_cell : nat) (dofs : list Z)
    (bes : blocks) (m : nat) (b : list PetscScalar)
    : result (list PetscScalar) :=
  foldM (λ b j,
           foldM (λ b k,
                    dof ← at_nat dofs j;
                    be ← at_nat bes m;
                    v ← at_Z be (bs * Z.of_nat j + k);
                    add_at b (bs * dof + k) v)
                 b (seqZ 0 bs))
        b (seq 0 ndofs_cell).

(** The local variables and parameters that the loop over the facets reads;
    they are set before the loop and not changed by it. *)
Record assembly_env : Type := AssemblyEnv {
  gdim : Z;
  x_dofmap : AdjacencyList;
  x_g : list double;
  dofmap : DofMap;
  ndofs_cell : nat;
  bs : Z;
  perm : Z;
  active_facets : list (Z * Z);
  map : AdjacencyList;
  opposite_facet_map : AdjacencyList;
  opposite_parent_cells : list Z;
  kernel : contact_kernel_fn;
  coeffs : list PetscScalar;
  cstride : Z;
  constants : list PetscScalar;
}.

(** The preamble that [assemble_matrix] and [assemble_vector] have in
    common, in the order of [assemble_matrix]. *)
Definition assembly_preamble (c : Contact double) (origin_meshtag : Z)
    (kernel : contact_kernel_fn) (coeffs : list PetscScalar) (cstride : Z)
    (constants : list PetscScalar) : result (assembly_env * Z * Z) :=
  mesh ← assert_ptr (marker_mesh c);
  let geometry := mesh in
  let gdim := geometry_dim geometry in
  let x_dofmap := geometry_dofmap geometry in
  let x_g := geometry_x geometry in
  let num_dofs_g := size_t_wrap (cmap_dim geometry) in
  let dofmap := V_dofmap c in
  dofs0 ← cell_dofs dofmap 0;
  let ndofs_cell := length dofs0 in
  let bs := dofmap_bs dofmap in
  let perm := 0 in
  let max_links := Z.max (_max_links c).1 (_max_links c).2 in
  active_facets ← get2 (_cell_facet_pairs c) origin_meshtag;
  map ← get2 (_facet_maps c) origin_meshtag;
  opposite ← get2 (_opposites c) origin_meshtag;
  submesh ← get2 (_submeshes c) opposite;
  mret (AssemblyEnv gdim x_dofmap x_g dofmap ndofs_cell bs perm
          active_facets map (facet_map submesh) (parent_cells submesh)
          kernel coeffs cstride constants,
        num_dofs_g, max_links).

(** *** [assemble_matrix] *)

(** The scatter of the blocks of one facet: block 0, then the three cross
    blocks of every linked cell. *)
Definition matrix_scatter (d : assembly_env) (cell : Z)
    (linked_cells : list Z) (Aes : blocks) : M unit :=
  dmap_cell ← lift (cell_dofs (dofmap d) cell);
  A0 ← lift (at_nat Aes 0);
  _ ← mat_set dmap_cell dmap_cell A0;
  foldM (λ _ j,
           linked_cell ← lift (at_nat linked_cells j);
           dmap_linked ← lift (cell_dofs (dofmap d) linked_cell);
           A1 ← lift (at_nat Aes (3 * j + 1));
           _ ← mat_set dmap_cell dmap_linked A1;
           A2 ← lift (at_nat Aes (3 * j + 2));
           _ ← mat_set dmap_linked dmap_cell A2;
           A3 ← lift (at_nat Aes (3 * j + 3));
           mat_set dmap_linked dmap_linked A3)
        () (seq 0 (length linked_cells)).

(** The body of the loop of [assemble_matrix] for the facet [i]; the state
    is the geometry buffer and the block set, which are reused from facet
    to facet. *)
Definition matrix_facet (d : assembly_env) (st : list double * blocks)
    (i : nat) : M (list double * blocks) :=
  let '(coordinate_dofs, Aes) := st in
  '(cell, local_index) ← lift (at_nat (active_facets d) i);
  x_dofs ← lift (links (x_dofmap d) cell);
  coordinate_dofs ← lift (gather_coordinates (x_g d) (gdim d) x_dofs
                            coordinate_dofs);
  candidates ← lift (links (map d) (Z.of_nat i));
  linked_cells ← lift (compute_linked_cells radix_sort candidates
                         (opposite_facet_map d) (opposite_parent_cells d));
  let num_linked_cells := length linked_cells in
  Aes ← lift (zero_matrix_blocks Aes num_linked_cells);
  Aes ← call_kernel (kernel d)
          (KernelArgs Aes
             (drop (Z.to_nat (Z.of_nat i * cstride d)) (coeffs d))
             (constants d) coordinate_dofs local_index (perm d)
             num_linked_cells);
  _ ← matrix_scatter d cell linked_cells Aes;
  mret (coordinate_dofs, Aes).

Definition assemble_matrix (c : Contact double) (origin_meshtag : Z)
    (kernel : contact_kernel_fn) (coeffs : list PetscScalar) (cstride : Z)
    (constants : list PetscScalar) : M unit :=
  '(d, num_dofs_g, max_links) ←
     lift (assembly_preamble c origin_meshtag kernel coeffs cstride
             constants);
  let coordinate_dofs :=
    replicate (Z.to_nat (size_t_mul 3 num_dofs_g)) dzero in
  let Aes :=
    replicate (Z.to_nat (size_t_add (size_t_mul 3 max_links) 1))
      (replicate
         (Z.to_nat (size_t_wrap (bs d * Z.of_nat (ndofs_cell d) * bs d
                                 * Z.of_nat (ndofs_cell d))))
         zero) in
  _ ← foldM (matrix_facet d) (coordinate_dofs, Aes)
        (seq 0 (length (active_facets d)));
  mret ().

(** *** [assemble_vector] *)

(** The scatter of the blocks of one facet into [b]: block 0 at the dofs of
    the cell, then block [l+1] at the dofs of the linked cell [l]. *)
Definition vector_scatter (d : assembly_env) (cell : Z)
    (linked_cells : list Z) (bes : blocks) (b : list PetscScalar)
    : result (list PetscScalar) :=
  dofs_cell ← cell_dofs (dofmap d) cell;
  b ← scatter_block (bs d) (ndofs_cell d) dofs_cell bes 0 b;
  foldM (λ b l,
           linked_cell ← at_nat linked_cells l;
           dofs_linked ← cell_dofs (dofmap d) linked_cell;
           scatter_block (bs d) (ndofs_cell d) dofs_linked bes (l + 1) b)
        b (seq 0 (length linked_cells)).

(** The body of the loop of [assemble_vector] for the facet [i]; the state
    is the geometry buffer, the block set and the global vector [b]. *)
Definition vector_facet (d : assembly_env)
    (st : list double * blocks * list PetscScalar) (i : nat)
    : M (list double * blocks * list PetscScalar) :=
  let '(coordinate_dofs, bes, b) := st in
  '(cell, local_index) ← lift (at_nat (active_facets d) i);
  x_dofs ← lift (links (x_dofmap d) cell);
  coordinate_dofs ← lift (gather_coordinates (x_g d) (gdim d) x_dofs
                            coordinate_dofs);
  candidates ← lift (links (map d) (Z.of_nat i));
  linked_cells ← lift (compute_linked_cells radix_sort candidates
                         (opposite_facet_map d) (opposite_parent_cells d));
  let num_linked_cells := length linked_cells in
  bes ← lift (zero_vector_blocks bes num_linked_cells);
  bes ← call_kernel (kernel d)
          (KernelArgs bes
             (drop (Z.to_nat (Z.of_nat i * cstride d)) (coeffs d))
             (constants d) coordinate_dofs local_index (perm d)
             num_linked_cells);
  b ← lift (vector_scatter d cell linked_cells bes b);
  mret (coordinate_dofs, bes, b).

(** The buffers of [assemble_vector] as they are allocated before the
    loop. *)
Definition vector_buffers (d : assembly_env) (num_dofs_g max_links : Z)
    : list double * blocks :=
  (replicate (Z.to_nat (size_t_mul 3 num_dofs_g)) dzero,
   replicate (Z.to_nat (size_t_add max_links 1))
     (replicate (Z.to_nat (size_t_wrap (bs d * Z.of_nat (ndofs_cell d))))
                zero)).

Definition assemble_vector (c : Contact double) (b : list PetscScalar)
    (origin_meshtag : Z) (kernel : contact_kernel_fn)
    (coeffs : list PetscScalar) (cstride : Z) (constants : list PetscScalar)
    : M (list PetscScalar) :=
  '(d, num_dofs_g, max_links) ←
     lift (assembly_preamble c origin_meshtag kernel coeffs cstride
             constants);
  let '(coordinate_dofs, bes) := vector_buffers d num_dofs_g max_links in
  '(_, _, b) ← foldM (vector_facet d) (coordinate_dofs, bes, b)
                 (seq 0 (length (active_facets d)));
  mret b.

(** [assemble_vector] with its loop taking the facets in the given [order]
    instead of [0, 1, ..., n-1]; used to state that the order does not
    matter. *)
Definition assemble_vector_in_order (order : list nat) (c : Contact double)
    (b : list PetscScalar) (origin_meshtag : Z) (kernel : contact_kernel_fn)
    (coeffs : list PetscScalar) (cstride : Z) (constants : list PetscScalar)
    : M (list PetscScalar) :=
  '(d, num_dofs_g, max_links) ←
     lift (assembly_preamble c origin_meshtag kernel coeffs cstride
             constants);
  let '(coordinate_dofs, bes) := vector_buffers d num_dofs_g max_links in
  '(_, _, b) ← foldM (vector_facet d) (coordinate_dofs, bes, b) order;
  mret b.

End Assembly.

Arguments assembly_env : clear implicits.

(** ** A small contact problem to run the definitions on

    Four triangles with three nodes each in the plane; cells 0 and 1 carry
    the two facets of surface 0, cells 2 and 3 those of surface 1. Facet 0
    of surface 0 has three candidates on the other side, which resolve to
    two cells; facet 1 has none. Scalars are integers. *)

Definition example_geometry : Geometry Z := {|
  geometry_dim := 2;
  geometry_dofmap := [[0; 1; 2]; [1; 2; 3]; [3; 4; 5]; [2; 4; 5]];
  geometry_x := [0; 0; 0; 10; 0; 0; 0; 10; 0; 10; 10; 0; 20; 0; 0; 20; 10; 0];
  cmap_dim := 3;
|}.

Definition example_dofmap : DofMap := {|
  dofmap_cells := [[0; 1; 2]; [1; 2; 3]; [3; 4; 5]; [2; 4; 5]];
  dofmap_bs := 2;
|}.

Definition example_contact : Contact Z := {|
  marker_mesh := Some example_geometry;
  V_dofmap := example_dofmap;
  _cell_facet_pairs := ([(0, 1); (1, 2)], [(2, 0); (3, 1)]);
  _submeshes := ({| facet_map := [[0; 1]; [1; 2]]; parent_cells := [0; 1] |},
                 {| facet_map := [[0; 0]; [1; 1]]; parent_cells := [2; 3] |});
  _facet_maps := ([[1; 0; 1]; []], [[0]; [1; 0]]);
  _opposites := (1, 0);
  _max_links := (2, 2);
  _qp_ref_facet := [[[1]; [2]; [3]; [4]]];
|}.

(** A kernel that adds, to entry [e] of every active block [m] (block 0 and
    one block per linked cell), the first coefficient of the facet plus
    [100 * m + e]. *)
Definition example_kernel (a : kernel_args Z Z) : list (list Z) :=
  imap (λ m block,
          if decide (m ≤ k_num_linked_cells a)%nat
          then imap (λ e x, x + default 0 (k_coeffs a !! 0%nat)
                            + 100 * Z.of_nat m + Z.of_nat e) block
          else block)
       (k_blocks a).

(** The locals of the assembly loops for surface 0 of the example, with the
    coefficients 1000 and 2000 of its two facets. *)
Definition example_env : assembly_env Z Z :=
  AssemblyEnv 2 [[0; 1; 2]; [1; 2; 3]; [3; 4; 5]; [2; 4; 5]]
    [0; 0; 0; 10; 0; 0; 0; 10; 0; 10; 10; 0; 20; 0; 0; 20; 10; 0]
    example_dofmap 3 2 0 [(0, 1); (1, 2)] [[1; 0; 1]; []]
    [[0; 0]; [1; 1]] [2; 3] example_kernel [1000; 2000] 1 [].

(** What [example_kernel] leaves in the active blocks of the two facets. *)
Definition example_values (i : nat) : list (list Z) :=
  match i with
  | 0%nat => [[1000; 1001; 1002; 1003; 1004; 1005];
              [1100; 1101; 1102; 1103; 1104; 1105];
              [1200; 1201; 1202; 1203; 1204; 1205]]
  | 1%nat => [[2000; 2001; 2002; 2003; 2004; 2005]]
  | _ => []
  end.

(** ** An example in double precision

    Three cells that share their only dof, each with one facet of surface 0
    and no linked cell; scalars are binary64 numbers. The kernel adds the
    coefficient of the facet to the entries of block 0; the coefficients
    are [2^53], 1 and 1. *)
Module FloatExample.
Import PrimFloat.

Definition float_geometry : Geometry float := {|
  geometry_dim := 1;
  geometry_dofmap := [[0]; [0]; [0]];
  geometry_x := [0%float; 0%float; 0%float];
  cmap_dim := 1;
|}.

Definition float_contact : Contact float := {|
  marker_mesh := Some float_geometry;
  V_dofmap := {| dofmap_cells := [[0]; [0]; [0]]; dofmap_bs := 1 |};
  _cell_facet_pairs := ([(0, 0); (1, 0); (2, 0)], []);
  _submeshes := ({| facet_map := []; parent_cells := [] |},
                 {| facet_map := []; parent_cells := [] |});
  _facet_maps := ([[]; []; []], []);
  _opposites := (1, 0);
  _max_links := (0, 0);
  _qp_ref_facet := [];
|}.

Definition float_kernel (a : kernel_args float float) : list (list float) :=
  match k_blocks a with
  | block0 :: rest =>
      ((λ x, PrimFloat.add x (default 0%float (k_coeffs a !! 0%nat)))
         <$> block0) :: rest
  | [] => []
  end.

Definition float_coeffs : list float :=
  [9007199254740992%float; 1%float; 1%float].

(** [assemble_vector] on the zero vector with the facets in the given
    order. *)
Definition float_assemble (order : list nat) : result (list float) :=
  outcome (assemble_vector_in_order 0%float PrimFloat.add 0%float
             reference_sort order float_contact [0%float] 0 float_kernel
             float_coeffs 1 []).

Definition two_to_53 : float := 9007199254740992%float.
Definition two_to_53_plus_2 : float := 9007199254740994%float.

End FloatExample.

(** * The vocabulary of the properties *)

(** ** The parent cell of a candidate facet *)

(** What resolving a candidate means, in terms of the two maps alone: the
    entry of [facet] in the facet map of the submesh is the pair
    (submesh cell, local facet index), and [cell] is the entry of that
    submesh cell in [parent_cells]. *)
Definition facet_parent_cell (sub_to_parent : AdjacencyList)
    (parent_cells : list Z) (facet cell : Z) : Prop :=
  ∃ sub_cell local_facet,
    0 ≤ facet
    ∧ sub_to_parent !! Z.to_nat facet = Some [sub_cell; local_facet]
    ∧ 0 ≤ sub_cell
    ∧ parent_cells !! Z.to_nat sub_cell = Some cell.

(** ** Zero-filled blocks and recorded calls *)

Section CallVocabulary.
Context {PetscScalar double : Type}.
Variable zero : PetscScalar.

#[local] Abbreviation blocks := (list (list PetscScalar)).
#[local] Abbreviation ev := (event PetscScalar double).

(** [Aes'] is [Aes] with the blocks [0 .. top] filled with zeros and the
    blocks after [top] left as they were. *)
Definition zeroed_upto (Aes Aes' : blocks) (top : nat) : Prop :=
  length Aes' = length Aes
  ∧ (∀ j, (j ≤ top)%nat →
       ∃ block, Aes !! j = Some block
                ∧ Aes' !! j = Some (replicate (length block) zero))
  ∧ (∀ j, (top < j)%nat → Aes' !! j = Aes !! j).

(** Whether a recorded call is a call of the kernel. *)
Definition is_kernel_call (e : ev) : bool :=
  match e with
  | KernelCall _ => true
  | MatSet _ _ _ => false
  end.

(** The orientation indicator of a recorded call. *)
Definition neutral_perm (e : ev) : Prop :=
  match e with
  | KernelCall a => k_perm a = 0
  | MatSet _ _ _ => True
  end.

End CallVocabulary.

(** ** The additions that [assemble_vector] makes to [b] *)

Section VectorWrites.
Context {PetscScalar double : Type}.
Variable add : PetscScalar → PetscScalar → PetscScalar.

#[local] Abbreviation env := (assembly_env PetscScalar double).
#[local] Abbreviation blocks := (list (list PetscScalar)).
#[local] Abbreviation write := (Z * PetscScalar)%type.

(** The additions [b[p] += v] of a list of pairs [(p, v)], in order. *)
Definition apply_writes (ws : list write) (b : list PetscScalar)
    : result (list PetscScalar) :=
  foldM (λ b w, add_at add b w.1 w.2) b ws.

(** The pair [(p, v)] of the innermost statement of [scatter_block]. *)
Definition block_write (bs : Z) (dofs : list Z) (bes : blocks) (m j : nat)
    (k : Z) : result write :=
  dof ← at_nat dofs j;
  be ← at_nat bes m;
  v ← at_Z be (bs * Z.of_nat j + k);
  mret (bs * dof + k, v).

(** The pairs of one call of [scatter_block], in the order of its loops. *)
Definition block_writes (bs : Z) (ndofs_cell : nat) (dofs : list Z)
    (bes : blocks) (m : nat) : result (list write) :=
  wss ← mapM (λ j, mapM (block_write bs dofs bes m j) (seqZ 0 bs))
             (seq 0 ndofs_cell);
  mret (concat wss).

(** The pairs of the linked cell [l] of a facet. *)
Definition linked_writes (d : env) (linked_cells : list Z) (bes : blocks)
    (l : nat) : result (list write) :=
  linked_cell ← at_nat linked_cells l;
  dofs_linked ← cell_dofs (dofmap d) linked_cell;
  block_writes (bs d) (ndofs_cell d) dofs_linked bes (l + 1).

(** The pairs of one facet: those of its cell, then those of its linked
    cells. *)
Definition facet_writes (d : env) (cell : Z) (linked_cells : list Z)
    (bes : blocks) : result (list write) :=
  dofs_cell ← cell_dofs (dofmap d) cell;
  ws0 ← block_writes (bs d) (ndofs_cell d) dofs_cell bes 0;
  wss ← mapM (linked_writes d linked_cells bes) (seq 0 (length linked_cells));
  mret (ws0 ++ concat wss).

(** A pair whose index is [bs * dof + k] for a dof of the cell of the facet
    or of one of its linked cells and a component [k] of the block size. *)
Definition targets_facet_dof (d : env) (cell : Z) (linked_cells : list Z)
    (p : Z) : Prop :=
  ∃ cell' dofs dof k,
    (cell' = cell ∨ cell' ∈ linked_cells)
    ∧ cell_dofs (dofmap d) cell' = Ok dofs
    ∧ dof ∈ dofs
    ∧ 0 ≤ k < bs d
    ∧ p = bs d * dof + k.

End VectorWrites.

(** ** One facet of [assemble_vector] *)

Section VectorFacet.
Context {PetscScalar double : Type}.
Variable zero : PetscScalar.
Variable radix_sort : list Z → list Z.

#[local] Abbreviation env := (assembly_env PetscScalar double).
#[local] Abbreviation blocks := (list (list PetscScalar)).

(** The loop body of [assemble_vector] up to the kernel call: the cell of
    the facet, its linked cells and the arguments that the kernel gets. *)
Definition vector_kernel_args (d : env) (i : nat)
    (coordinate_dofs : list double) (bes : blocks)
    : result (Z * list Z * kernel_args PetscScalar double) :=
  '(cell, local_index) ← at_nat (active_facets d) i;
  x_dofs ← links (x_dofmap d) cell;
  coordinate_dofs ← gather_coordinates (x_g d) (gdim d) x_dofs
                      coordinate_dofs;
  candidates ← links (map d) (Z.of_nat i);
  linked_cells ← compute_linked_cells radix_sort candidates
                   (opposite_facet_map d) (opposite_parent_cells d);
  bes ← zero_vector_blocks zero bes (length linked_cells);
  mret (cell, linked_cells,
        KernelArgs bes
          (drop (Z.to_nat (Z.of_nat i * cstride d)) (coeffs d))
          (constants d) coordinate_dofs local_index (perm d)
          (length linked_cells)).

(** The facet [i] with its cell and its set of linked cells. *)
Definition facet_cells (d : env) (i : nat) (cell : Z) (linked_cells : list Z)
    : Prop :=
  ∃ local_index candidates,
    active_facets d !! i = Some (cell, local_index)
    ∧ links (map d) (Z.of_nat i) = Ok candidates
    ∧ compute_linked_cells radix_sort candidates (opposite_facet_map d)
        (opposite_parent_cells d) = Ok linked_cells.

(** The indices [bs * dof + k] of the dofs of the cells of the active facets
    and of their linked cells. *)
Definition vector_target (d : env) (p : Z) : Prop :=
  ∃ i cell linked_cells,
    facet_cells d i cell linked_cells
    ∧ targets_facet_dof d cell linked_cells p.

End VectorFacet.

(** ** Sums of contributions *)

Section Contributions.
Context {PetscScalar double : Type}.
Variable zero : PetscScalar.
Variable add : PetscScalar → PetscScalar → PetscScalar.
Variable radix_sort : list Z → list Z.

#[local] Abbreviation env := (assembly_env PetscScalar double).
#[local] Abbreviation blocks := (list (list PetscScalar)).
#[local] Abbreviation write := (Z * PetscScalar)%type.

Definition sum_list (l : list PetscScalar) : PetscScalar := foldr add zero l.

(** The sum of the values that a list of pairs adds at the index [q]. *)
Definition write_sum (q : Z) (ws : list write) : PetscScalar :=
  sum_list ((λ w, if decide (w.1 = q) then w.2 else zero) <$> ws).

(** The cell of the facet [i] and its linked cells. *)
Definition facet_cell (d : env) (i : nat) : Z :=
  default 0 (fst <$> active_facets d !! i).

Definition facet_linked_cells (d : env) (i : nat) : list Z :=
  match
    candidates ← links (map d) (Z.of_nat i);
    compute_linked_cells radix_sort candidates (opposite_facet_map d)
      (opposite_parent_cells d)
  with
  | Ok linked_cells => linked_cells
  | Abort _ => []
  end.

Definition dofs_of (d : env) (cell : Z) : list Z :=
  match cell_dofs (dofmap d) cell with
  | Ok dofs => dofs
  | Abort _ => []
  end.

(** What the block [be] of a cell with the dofs [dofs] contributes to the
    component [k] of the dof [dof]: the entries [be[bs * j + k]] of the
    positions [j] at which the cell has this dof. *)
Definition block_contribution (d : env) (dofs : list Z)
    (be : list PetscScalar) (dof k : Z) : PetscScalar :=
  sum_list
    ((λ j : nat,
        if decide (dofs !! j = Some dof)
        then default zero (be !! Z.to_nat (bs d * Z.of_nat j + k))
        else zero) <$> seq 0 (ndofs_cell d)).

(** What the facet [i] contributes when the kernel has left the blocks
    [values] for it: (a) block 0 at the dofs of its cell and (b) block
    [l + 1] at the dofs of its linked cell [l]. *)
Definition facet_contribution (d : env) (values : nat → blocks) (dof k : Z)
    (i : nat) : PetscScalar :=
  let linked_cells := facet_linked_cells d i in
  add (block_contribution d (dofs_of d (facet_cell d i))
         (default [] (values i !! 0%nat)) dof k)
      (sum_list
         ((λ l : nat,
             block_contribution d
               (dofs_of d (default 0 (linked_cells !! l)))
               (default [] (values i !! (l + 1)%nat)) dof k)
            <$> seq 0 (length linked_cells))).

(** The sizes of the two buffers that the loop reuses: the length of the
    geometry buffer and the length of every block. *)
Definition buffer_sizes (coordinate_dofs : list double) (bes : blocks)
    : nat * list nat :=
  (length coordinate_dofs, length <$> bes).

(** The kernel leaves [values i] in the active blocks of the facet [i],
    whatever buffers of the given sizes hold from the facets before. *)
Definition kernel_values (d : env) (sizes : nat * list nat)
    (values : nat → blocks) : Prop :=
  ∀ i coordinate_dofs bes cell linked_cells a,
    buffer_sizes coordinate_dofs bes = sizes →
    vector_kernel_args zero radix_sort d i coordinate_dofs bes
      = Ok (cell, linked_cells, a) →
    ∀ m, (m ≤ length linked_cells)%nat → kernel d a !! m = values i !! m.

(** The kernel changes neither the number of blocks nor the length of a
    block. *)
Definition kernel_keeps_blocks (d : env) : Prop :=
  ∀ a, length <$> kernel d a = length <$> k_blocks a.

(** The pairs of the facet [i] when the kernel has left [values i]. *)
Definition facet_writes_of (d : env) (values : nat → blocks) (i : nat)
    : result (list write) :=
  facet_writes d (facet_cell d i) (facet_linked_cells d i) (values i).

End Contributions.

(** ** The loop of [assemble_vector] in any order *)

Section OrderVocabulary.
Context {PetscScalar double : Type}.
Variable zero : PetscScalar.
Variable add : PetscScalar → PetscScalar → PetscScalar.
Variable radix_sort : list Z → list Z.

#[local] Abbreviation state :=
  (list double * list (list PetscScalar) * list PetscScalar)%type.

(** The sizes of the buffers and the length of [b]. *)
Definition shape (st : state) : nat * list nat * nat :=
  (buffer_sizes st.1.1 st.1.2, length st.2).

(** The facet [i] completes from buffers and a vector of the shape [s]. *)
Definition facet_completes (d : assembly_env PetscScalar double)
    (s : nat * list nat * nat) (i : nat) : Prop :=
  ∃ st, shape st = s
        ∧ is_Ok (outcome (vector_facet zero add radix_sort d st i)).

End OrderVocabulary.

(** The initial vector of the example and what [assemble_vector] makes of
    it. *)
Definition example_b : list Z := replicate 14 0.

Definition example_b' : list Z :=
  [1000; 1001; 3002; 3004; 4206; 4209; 3104; 3106; 2304; 2306; 2308; 2310;
   0; 0].

(** Congruence modulo [N] as a relation to rewrite with, for the
    [std::size_t] arithmetic. *)
#[local] Instance eqm_equivalence N : Equivalence (eqm N) := eqm_setoid N.
#[local] Instance eqm_add_proper N : Proper (eqm N ==> eqm N ==> eqm N) Z.add :=
  Zplus_eqm N.
#[local] Instance eqm_mul_proper N : Proper (eqm N ==> eqm N ==> eqm N) Z.mul :=
  Zmult_eqm N.

(** * The vocabulary of the loops, the pattern and the buffers *)

(** The example with [2^62] as the larger number of links: the size of its
    coefficient layout does not fit in [std::size_t]. *)
Definition overflow_contact : Contact Z := {|
  marker_mesh := marker_mesh example_contact;
  V_dofmap := V_dofmap example_contact;
  _cell_facet_pairs := _cell_facet_pairs example_contact;
  _submeshes := _submeshes example_contact;
  _facet_maps := _facet_maps example_contact;
  _opposites := _opposites example_contact;
  _max_links := (2, 2 ^ 62);
  _qp_ref_facet := _qp_ref_facet example_contact;
|}.

(** ** Couplings of the sparsity pattern *)

Section PatternVocabulary.
Context {double : Type}.

(** [cell] is the cell of the facet [i] of surface [s], and [linked_cell]
    is the parent cell of one of the candidates of this facet as the loop
    of [create_petsc_matrix] resolves it. *)
Definition pattern_link (c : Contact double) (s : Z) (i : nat)
    (cell linked_cell : Z) : Prop :=
  ∃ opposite sub pairs map local_index candidates link facet_pair
      linked_sub_cell,
    get2 (_opposites c) s = Ok opposite
    ∧ get2 (_submeshes c) opposite = Ok sub
    ∧ get2 (_cell_facet_pairs c) s = Ok pairs
    ∧ get2 (_facet_maps c) s = Ok map
    ∧ pairs !! i = Some (cell, local_index)
    ∧ links map (Z.of_nat i) = Ok candidates
    ∧ link ∈ candidates
    ∧ links (facet_map sub) link = Ok facet_pair
    ∧ facet_pair !! 0%nat = Some linked_sub_cell
    ∧ at_Z (parent_cells sub) linked_sub_cell = Ok linked_cell.

(** [row] is a dof of the cell of a facet and [col] a dof of a cell linked
    to that facet. *)
Definition contact_coupling (c : Contact double) (dofmap : DofMap)
    (row col : Z) : Prop :=
  ∃ s i cell linked_cell dofs_cell dofs_linked,
    pattern_link c s i cell linked_cell
    ∧ cell_dofs dofmap cell = Ok dofs_cell
    ∧ cell_dofs dofmap linked_cell = Ok dofs_linked
    ∧ row ∈ dofs_cell
    ∧ col ∈ dofs_linked.

End PatternVocabulary.

(** The example without any candidate on the other side of a facet. *)
Definition example_contact_apart : Contact Z := {|
  marker_mesh := marker_mesh example_contact;
  V_dofmap := V_dofmap example_contact;
  _cell_facet_pairs := _cell_facet_pairs example_contact;
  _submeshes := _submeshes example_contact;
  _facet_maps := ([[]; []], [[]; []]);
  _opposites := _opposites example_contact;
  _max_links := (0, 0);
  _qp_ref_facet := _qp_ref_facet example_contact;
|}.

Section MatrixFacet.
Context {PetscScalar double : Type}.
Variable zero : PetscScalar.
Variable radix_sort : list Z → list Z.

#[local] Abbreviation env := (assembly_env PetscScalar double).
#[local] Abbreviation blocks := (list (list PetscScalar)).
#[local] Abbreviation ev := (event PetscScalar double).

(** The loop body of [assemble_matrix] up to the kernel call: the cell of
    the facet, its linked cells and the arguments that the kernel gets. *)
Definition matrix_kernel_args (d : env) (i : nat)
    (coordinate_dofs : list double) (Aes : blocks)
    : result (Z * list Z * kernel_args PetscScalar double) :=
  '(cell, local_index) ← at_nat (active_facets d) i;
  x_dofs ← links (x_dofmap d) cell;
  coordinate_dofs ← gather_coordinates (x_g d) (gdim d) x_dofs
                      coordinate_dofs;
  candidates ← links (map d) (Z.of_nat i);
  linked_cells ← compute_linked_cells radix_sort candidates
                   (opposite_facet_map d) (opposite_parent_cells d);
  Aes ← zero_matrix_blocks zero Aes (length linked_cells);
  mret (cell, linked_cells,
        KernelArgs Aes
          (drop (Z.to_nat (Z.of_nat i * cstride d)) (coeffs d))
          (constants d) coordinate_dofs local_index (perm d)
          (length linked_cells)).

(** The arguments of the kernel calls among recorded calls, in order. *)
Definition kernel_call_args (calls : list ev)
    : list (kernel_args PetscScalar double) :=
  omap (λ e, match e with
             | KernelCall a => Some a
             | MatSet _ _ _ => None
             end) calls.

(** The kernel call [a] is the call for the facet [i]: it gets the local
    index of the facet, the coefficients from [i * cstride] on, the
    constants and the number of linked cells of the facet. *)
Definition kernel_call_of_facet (d : env) (i : nat)
    (a : kernel_args PetscScalar double) : Prop :=
  ∃ cell linked_cells,
    facet_cells radix_sort d i cell linked_cells
    ∧ active_facets d !! i = Some (cell, k_local_index a)
    ∧ k_coeffs a = drop (Z.to_nat (Z.of_nat i * cstride d)) (coeffs d)
    ∧ k_constants a = constants d
    ∧ k_num_linked_cells a = length linked_cells.

End MatrixFacet.

Section ZeroFillVocabulary.
Context {PetscScalar double : Type}.
Variable zero : PetscScalar.
Variable radix_sort : list Z → list Z.

#[local] Abbreviation env := (assembly_env PetscScalar double).
#[local] Abbreviation blocks := (list (list PetscScalar)).
#[local] Abbreviation ev := (event PetscScalar double).
#[local] Abbreviation args := (kernel_args PetscScalar double).

(** The kernel call [a] of [assemble_matrix] is made for the facet [i]
    with zero-filled blocks: it is told the number of cells that
    [compute_linked_cells] gives for the candidates of the facet, and the
    blocks [0 .. 3 * numLinked] that it receives hold zeros only. *)
Definition matrix_call_zero_filled (d : env) (i : nat) (a : args) : Prop :=
  ∃ cell linked_cells,
    facet_cells radix_sort d i cell linked_cells
    ∧ k_num_linked_cells a = length linked_cells
    ∧ ∀ j, (j ≤ 3 * length linked_cells)%nat →
        ∃ block, k_blocks a !! j = Some block
                 ∧ block = replicate (length block) zero.

(** A call recorded by the facet [i] of [assemble_matrix], started on the
    blocks [Aes]: a kernel call is told the number of linked cells of the
    facet and receives [Aes] zero-filled from block 0 to block
    [3 * numLinked] and untouched after that. *)
Definition matrix_zero_fill_of_facet (d : env) (i : nat) (Aes : blocks)
    (e : ev) : Prop :=
  match e with
  | KernelCall a =>
      ∃ cell linked_cells,
        facet_cells radix_sort d i cell linked_cells
        ∧ k_num_linked_cells a = length linked_cells
        ∧ zeroed_upto zero Aes (k_blocks a) (3 * length linked_cells)
  | MatSet _ _ _ => True
  end.

(** The same for [assemble_vector], whose active blocks are
    [0 .. numLinked]. *)
Definition vector_call_zero_filled (d : env) (i : nat) (a : args) : Prop :=
  ∃ cell linked_cells,
    facet_cells radix_sort d i cell linked_cells
    ∧ k_num_linked_cells a = length linked_cells
    ∧ ∀ j, (j ≤ length linked_cells)%nat →
        ∃ block, k_blocks a !! j = Some block
                 ∧ block = replicate (length block) zero.

Definition vector_zero_fill_of_facet (d : env) (i : nat) (bes : blocks)
    (e : ev) : Prop :=
  match e with
  | KernelCall a =>
      ∃ cell linked_cells,
        facet_cells radix_sort d i cell linked_cells
        ∧ k_num_linked_cells a = length linked_cells
        ∧ zeroed_upto zero bes (k_blocks a) (length linked_cells)
  | MatSet _ _ _ => True
  end.

(** The kernel call [a] for the facet [i] gets the block of [cstride]
    coefficients of the facet: at least [cstride] coefficients are left
    from [i * cstride] on. *)
Definition gets_coefficient_block (d : env) (i : nat) (a : args) : Prop :=
  kernel_call_of_facet radix_sort d i a
  ∧ (Z.to_nat (cstride d) ≤ length (k_coeffs a))%nat.

End ZeroFillVocabulary.

Section GeometryVocabulary.
Context {PetscScalar double : Type}.
Variable dzero : double.

(** The geometry buffer has three entries per node, and the entries of a
    node after the first [gdim] hold [dzero]. *)
Definition padded_geometry (gdim : Z) (size : nat)
    (coordinate_dofs : list double) : Prop :=
  length coordinate_dofs = size
  ∧ ∀ p, (p < size)%nat → (Z.to_nat gdim ≤ p mod 3)%nat →
      coordinate_dofs !! p = Some dzero.

(** The geometry buffer that a recorded kernel call receives is padded. *)
Definition kernel_geometry_padded (gdim : Z) (size : nat)
    (e : event PetscScalar double) : Prop :=
  match e with
  | KernelCall a => padded_geometry gdim size (k_coordinate_dofs a)
  | MatSet _ _ _ => True
  end.

End GeometryVocabulary.

Section AssertionVocabulary.
Context {PetscScalar double : Type}.



End AssertionVocabulary.

(** * Properties *)

(** ** The outcome monad *)

Lemma bind_Ok {A B} (m : result A) (f : A → result B) (b : B) :
  m ≫= f = Ok b ↔ ∃ a, m = Ok a ∧ f a = Ok b.
Proof.
  destruct m as [a|e]; simpl; split.
  - intros Hf. by exists a.
  - by intros (a' & [= <-] & Hf).
  - intros [=].
  - by intros (a' & [=] & _).
Qed.

Lemma bind_Abort {A B} (m : result A) (f : A → result B) (e : fault) :
  m ≫= f = Abort e ↔ m = Abort e ∨ ∃ a, m = Ok a ∧ f a = Abort e.
Proof.
  destruct m as [a|e']; simpl; split.
  - intros Hf. right. by exists a.
  - by intros [[=]|(a' & [= <-] & Hf)].
  - intros [= <-]. by left.
  - by intros [[= <-]|(a' & [=] & _)].
Qed.

(** Rewrites with the results of steps that are known to succeed. *)
Ltac rewrite_Ok :=
  repeat match goal with
         | H : ?m = Ok _ |- context [?m ≫= _] =>
             rewrite H; cbn [mbind result_bind mret result_ret]
         end.

(** Splits a successful sequence of steps into its steps. *)
Ltac inv_Ok H :=
  repeat match type of H with
         | _ ≫= _ = Ok _ =>
             let a := fresh "a" in
             let Ha := fresh "H" a in
             apply bind_Ok in H as (a & Ha & H)
         end.

Lemma at_nat_Ok {A} (v : list A) (i : nat) (x : A) :
  at_nat v i = Ok x ↔ v !! i = Some x.
Proof. unfold at_nat. destruct (v !! i); naive_solver. Qed.

Lemma at_Z_Ok {A} (v : list A) (i : Z) (x : A) :
  at_Z v i = Ok x ↔ 0 ≤ i ∧ v !! Z.to_nat i = Some x.
Proof. unfold at_Z. case_decide; rewrite ?at_nat_Ok; naive_solver. Qed.

Lemma at_nat_not_assertion {A} (v : list A) (i : nat) :
  at_nat v i ≠ Abort AssertionFailure.
Proof. unfold at_nat. by destruct (v !! i). Qed.

Lemma at_Z_not_assertion {A} (v : list A) (i : Z) :
  at_Z v i ≠ Abort AssertionFailure.
Proof. unfold at_Z. case_decide; [apply at_nat_not_assertion | done]. Qed.

Lemma mapM_Ok {A B} (f : A → result B) (l : list A) (k : list B) :
  mapM f l = Ok k ↔ Forall2 (λ x y, f x = Ok y) l k.
Proof.
  revert k. induction l as [|x l IH]; intros k; simpl.
  - split; [intros [= <-]; constructor | by inversion 1].
  - rewrite bind_Ok. split.
    + intros (y & Hy & Hk). apply bind_Ok in Hk as (k' & Hk' & [= <-]).
      constructor; [done | by apply IH].
    + intros (y & k' & Hy & Hk' & ->)%Forall2_cons_inv_l.
      exists y. split; [done|]. apply IH in Hk'. by rewrite Hk'.
Qed.

(** ** [std::unique] on a sorted range *)

Lemma unique_from_sorted (x : Z) (l : list Z) :
  Forall (Z.le x) l → StronglySorted Z.le l →
  Forall (Z.lt x) (unique_from x l) ∧ StronglySorted Z.lt (unique_from x l).
Proof.
  revert x. induction l as [|y l IH]; intros x Hx Hl; simpl.
  - split; constructor.
  - apply Forall_cons in Hx as [Hxy Hx].
    apply StronglySorted_inv in Hl as [Hl Hy].
    case_decide as Heq.
    + by apply IH.
    + destruct (IH y Hy Hl) as [Hlt Hsorted]. split.
      * constructor; [lia|]. eapply Forall_impl; [exact Hlt|]. simpl. lia.
      * by constructor.
Qed.

Lemma unique_sorted (l : list Z) :
  Sorted Z.le l → StronglySorted Z.lt (unique l).
Proof.
  intros Hl. apply (Sorted_StronglySorted Z.le) in Hl.
  destruct l as [|x l]; simpl; [constructor|].
  apply StronglySorted_inv in Hl as [Hl Hx].
  destruct (unique_from_sorted x l Hx Hl). by constructor.
Qed.

Lemma elem_of_unique_from (x y : Z) (l : list Z) :
  y ∈ x :: unique_from x l ↔ y ∈ x :: l.
Proof.
  revert x. induction l as [|z l IH]; intros x; simpl; [done|].
  case_decide as Heq; subst.
  - rewrite IH. set_solver.
  - rewrite (elem_of_cons (z :: _)), IH. set_solver.
Qed.

Lemma elem_of_unique (y : Z) (l : list Z) : y ∈ unique l ↔ y ∈ l.
Proof. destruct l as [|x l]; [done|]. apply elem_of_unique_from. Qed.

Lemma StronglySorted_lt_NoDup (l : list Z) : StronglySorted Z.lt l → NoDup l.
Proof.
  induction 1 as [|x l _ IH Hx]; constructor; [|done].
  intros Hin. rewrite Forall_forall in Hx. specialize (Hx x Hin). lia.
Qed.

(** Two strictly ascending sequences with the same members are equal. *)
Lemma StronglySorted_lt_ext (l1 l2 : list Z) :
  StronglySorted Z.lt l1 → StronglySorted Z.lt l2 →
  (∀ x, x ∈ l1 ↔ x ∈ l2) → l1 = l2.
Proof.
  revert l2. induction l1 as [|x l1 IH]; intros l2 H1 H2 Hmem.
  - destruct l2 as [|y l2]; [done|]. specialize (Hmem y). set_solver.
  - destruct l2 as [|y l2]; [specialize (Hmem x); set_solver|].
    apply StronglySorted_inv in H1 as [H1 Hx].
    apply StronglySorted_inv in H2 as [H2 Hy].
    rewrite Forall_forall in Hx, Hy.
    assert (x = y) as <-.
    { destruct (Hmem x) as [Hxy _], (Hmem y) as [_ Hyx].
      specialize (Hxy ltac:(left)). specialize (Hyx ltac:(left)).
      apply elem_of_cons in Hxy as [?|Hxy]; [done|].
      apply elem_of_cons in Hyx as [?|Hyx]; [done|].
      specialize (Hx _ Hyx). specialize (Hy _ Hxy). lia. }
    f_equal. apply IH; [done..|]. intros z. split; intros Hz.
    + destruct (Hmem z) as [Hz' _]. specialize (Hz' ltac:(by right)).
      apply elem_of_cons in Hz' as [->|?]; [|done].
      specialize (Hx _ Hz). lia.
    + destruct (Hmem z) as [_ Hz']. specialize (Hz' ltac:(by right)).
      apply elem_of_cons in Hz' as [->|?]; [|done].
      specialize (Hy _ Hz). lia.
Qed.

Lemma NoDup_constant (P : Z) (l : list Z) :
  NoDup l → l ≠ [] → (∀ x, x ∈ l → x = P) → l = [P].
Proof.
  intros Hnd Hne Hall. destruct l as [|x [|y l]]; [done| |].
  - f_equal. apply Hall. set_solver.
  - assert (x = P) by (apply Hall; set_solver).
    assert (y = P) by (apply Hall; set_solver). subst.
    apply NoDup_cons in Hnd as [Hnin _]. set_solver.
Qed.

Lemma reference_sort_contract : radix_sort_contract reference_sort.
Proof.
  intros l _. split.
  - apply (Sorted_merge_sort Z.le).
  - apply merge_sort_Permutation.
Qed.

(** ** Linked cells *)

Lemma compute_linked_cells_Ok radix_sort facets sub_to_parent parent_cells
    linked :
  compute_linked_cells radix_sort facets sub_to_parent parent_cells = Ok linked
  ↔ ∃ cells,
      Forall2 (λ f c, parent_of_facet sub_to_parent parent_cells f = Ok c)
              facets cells
      ∧ linked = unique (radix_sort cells).
Proof.
  unfold compute_linked_cells. rewrite bind_Ok.
  setoid_rewrite mapM_Ok. split.
  - intros (cells & Hcells & [= <-]). eauto.
  - intros (cells & Hcells & ->). eauto.
Qed.

Lemma parent_of_facet_Ok sub_to_parent parent_cells facet cell :
  parent_of_facet sub_to_parent parent_cells facet = Ok cell
  ↔ ∃ sub_cell local_facet,
      links sub_to_parent facet = Ok [sub_cell; local_facet]
      ∧ at_Z parent_cells sub_cell = Ok cell.
Proof.
  unfold parent_of_facet. rewrite bind_Ok. split.
  - intros (pair & Hpair & H). inv_Ok H.
    unfold assert in Ha. case_bool_decide as Hlen; [|done].
    destruct pair as [|sub_cell [|local_facet [|]]]; try done.
    apply at_nat_Ok in Ha0. simplify_eq/=. eauto.
  - intros (sub_cell & local_facet & Hpair & Hcell). eauto.
Qed.

(** The lambda of [compute_linked_cells] returns the parent cell of the
    candidate, by the two maps. *)
Lemma parent_of_facet_parent_cell sub_to_parent parent_cells facet cell :
  parent_of_facet sub_to_parent parent_cells facet = Ok cell
  ↔ facet_parent_cell sub_to_parent parent_cells facet cell.
Proof.
  rewrite parent_of_facet_Ok. unfold facet_parent_cell, links.
  split; intros (sub_cell & local_facet & H); exists sub_cell, local_facet.
  - destruct H as [[Hf Hpair]%at_Z_Ok [Hs Hcell]%at_Z_Ok]. by split_and!.
  - destruct H as (Hf & Hpair & Hs & Hcell). split; by apply at_Z_Ok.
Qed.

(** C1. For every sequence of candidate facets, each with a pair
    (submesh cell, local facet) in the facet map of the submesh and a parent
    cell for that submesh cell, [compute_linked_cells] returns the parent
    cells of the candidates, as the two maps give them, in strictly
    ascending order and without duplicates; no candidate gives the empty
    sequence, and candidates that all have the parent cell [P] give the
    one-element sequence [[P]]. *)
Theorem compute_linked_cells_strictly_ascending
    (radix_sort : list Z → list Z) (submesh_facets : list Z)
    (sub_to_parent : AdjacencyList) (parent_cells : list Z) :
  radix_sort_contract radix_sort →
  Forall (λ facet, ∃ cell,
            facet_parent_cell sub_to_parent parent_cells facet cell
            ∧ is_index cell) submesh_facets →
  ∃ linked_cells,
    compute_linked_cells radix_sort submesh_facets sub_to_parent parent_cells
      = Ok linked_cells
    ∧ StronglySorted Z.lt linked_cells
    ∧ NoDup linked_cells
    ∧ (∀ cell, cell ∈ linked_cells ↔
         ∃ facet, facet ∈ submesh_facets
           ∧ facet_parent_cell sub_to_parent parent_cells facet cell)
    ∧ (submesh_facets = [] → linked_cells = [])
    ∧ (∀ P, submesh_facets ≠ [] →
         Forall (λ facet,
                   facet_parent_cell sub_to_parent parent_cells facet P)
                submesh_facets →
         linked_cells = [P]).
Proof.
  intros Hsort Hfacets.
  assert (∃ cells,
            Forall2 (λ f c, parent_of_facet sub_to_parent parent_cells f = Ok c)
                    submesh_facets cells
            ∧ Forall is_index cells) as (cells & Hcells & Hindex).
  { induction Hfacets as [|f fs (c & Hc%parent_of_facet_parent_cell & Hi) _
                            (cs & Hcs & His)].
    - exists []. split; constructor.
    - exists (c :: cs). split; by constructor. }
  destruct (Hsort cells Hindex) as [Hsorted Hperm].
  assert (Hmem : ∀ cell, cell ∈ unique (radix_sort cells) ↔
            ∃ facet, facet ∈ submesh_facets
              ∧ facet_parent_cell sub_to_parent parent_cells facet cell).
  { intros cell. rewrite elem_of_unique, Hperm. split.
    - intros Hin. apply list_elem_of_lookup in Hin as [i Hi].
      destruct (Forall2_lookup_r _ _ _ _ _ Hcells Hi) as (f & Hf & Hfc).
      exists f. split; [by eapply list_elem_of_lookup_2|].
      by apply parent_of_facet_parent_cell.
    - intros (f & Hin & Hfc%parent_of_facet_parent_cell).
      apply list_elem_of_lookup in Hin as [i Hi].
      destruct (Forall2_lookup_l _ _ _ _ _ Hcells Hi) as (c & Hc & Hfc').
      rewrite Hfc in Hfc'. injection Hfc' as ->.
      by eapply list_elem_of_lookup_2. }
  assert (Hnd : NoDup (unique (radix_sort cells)))
    by by apply StronglySorted_lt_NoDup, unique_sorted.
  exists (unique (radix_sort cells)). split_and!; try done.
  - apply compute_linked_cells_Ok. eauto.
  - by apply unique_sorted.
  - intros ->. apply Forall2_nil_inv_l in Hcells as ->.
    apply Permutation_nil_r in Hperm. by rewrite Hperm.
  - intros P Hne HP. apply NoDup_constant; [done| |].
    + destruct submesh_facets as [|f fs]; [done|].
      apply Forall_cons in HP as [Hf _].
      intros Hnil. assert (P ∈ unique (radix_sort cells)) as Hin
        by (apply Hmem; exists f; split; [left|done]).
      rewrite Hnil in Hin. by apply elem_of_nil in Hin.
    + intros x (f & Hin & Hfx)%Hmem.
      rewrite Forall_forall in HP. specialize (HP f Hin).
      apply parent_of_facet_parent_cell in Hfx, HP. congruence.
Qed.

(** On a facet map whose pairs are [[1; 0]] and [[0; 2]] and the parent
    cells 7 and 5, the candidates 1, 0, 1 give the linked cells 5 and 7,
    the candidates 0, 0 give the one linked cell 5, and no candidate gives
    none. *)
Lemma compute_linked_cells_strictly_ascending_witness :
  compute_linked_cells reference_sort [1; 0; 1] [[1; 0]; [0; 2]] [7; 5]
    = Ok [5; 7]
  ∧ compute_linked_cells reference_sort [0; 0] [[1; 0]; [0; 2]] [7; 5]
    = Ok [5]
  ∧ compute_linked_cells reference_sort [] [[1; 0]; [0; 2]] [7; 5] = Ok [].
Proof.
  assert (facet_parent_cell [[1; 0]; [0; 2]] [7; 5] 0 5) as H0
    by (exists 1, 0; by split_and!).
  assert (facet_parent_cell [[1; 0]; [0; 2]] [7; 5] 1 7) as H1
    by (exists 0, 2; by split_and!).
  split_and!.
  - destruct (compute_linked_cells_strictly_ascending reference_sort
                [1; 0; 1] [[1; 0]; [0; 2]] [7; 5] reference_sort_contract)
      as (linked & Hrun & Hsorted & _ & Hmem & _).
    { repeat constructor; eexists; (split; [eassumption|]);
        unfold is_index; lia. }
    rewrite Hrun. f_equal.
    apply StronglySorted_lt_ext; [done| |].
    { repeat constructor; lia. }
    intros cell. rewrite Hmem. split.
    + intros (f & Hf & sc & lf & _ & Hpair & _ & Hcell).
      apply elem_of_cons in Hf as [->|Hf]; [injection Hpair as <- _;
        injection Hcell as <-; set_solver|].
      apply elem_of_cons in Hf as [->|Hf]; [injection Hpair as <- _;
        injection Hcell as <-; set_solver|].
      apply elem_of_cons in Hf as [->|Hf]; [injection Hpair as <- _;
        injection Hcell as <-; set_solver|].
      by apply elem_of_nil in Hf.
    + intros [->|[->|Hcell%elem_of_nil]%elem_of_cons]%elem_of_cons; [| |done].
      * exists 0. split; [set_solver|done].
      * exists 1. split; [set_solver|done].
  - destruct (compute_linked_cells_strictly_ascending reference_sort
                [0; 0] [[1; 0]; [0; 2]] [7; 5] reference_sort_contract)
      as (linked & Hrun & _ & _ & _ & _ & Hsame).
    { repeat constructor; eexists; (split; [eassumption|]);
        unfold is_index; lia. }
    rewrite Hrun, (Hsame 5); [done..|]. by repeat constructor.
  - destruct (compute_linked_cells_strictly_ascending reference_sort
                [] [[1; 0]; [0; 2]] [7; 5] reference_sort_contract)
      as (linked & Hrun & _ & _ & _ & Hnone & _); [constructor|].
    by rewrite Hrun, Hnone.
Defined.

(** C9. Every candidate facet must have exactly two entries in the
    facet map of the submesh: at the first candidate that has not, the
    assertion fails and the call is aborted; when some candidate has not,
    no result is returned; and when all have, the assertion does not fail. *)
Theorem compute_linked_cells_facet_pair_assertion
    (radix_sort : list Z → list Z) (submesh_facets : list Z)
    (sub_to_parent : AdjacencyList) (parent_cells : list Z) :
  (∀ before facet after facet_pair,
     submesh_facets = before ++ facet :: after →
     Forall (λ f, is_Ok (parent_of_facet sub_to_parent parent_cells f))
            before →
     links sub_to_parent facet = Ok facet_pair →
     length facet_pair ≠ 2%nat →
     compute_linked_cells radix_sort submesh_facets sub_to_parent
       parent_cells = Abort AssertionFailure)
  ∧ (∀ linked_cells,
       compute_linked_cells radix_sort submesh_facets sub_to_parent
         parent_cells = Ok linked_cells →
       Forall (λ facet, ∃ facet_pair,
                 links sub_to_parent facet = Ok facet_pair
                 ∧ length facet_pair = 2%nat) submesh_facets)
  ∧ (Forall (λ facet, ∀ facet_pair,
               links sub_to_parent facet = Ok facet_pair →
               length facet_pair = 2%nat) submesh_facets →
     compute_linked_cells radix_sort submesh_facets sub_to_parent
       parent_cells ≠ Abort AssertionFailure).
Proof.
  split_and!.
  - intros before facet after facet_pair -> Hbefore Hpair Hlen.
    unfold compute_linked_cells.
    assert (mapM (parent_of_facet sub_to_parent parent_cells)
              (before ++ facet :: after) = Abort AssertionFailure) as ->; [|done].
    induction Hbefore as [|f fs [c Hc] _ IH]; simpl.
    + unfold parent_of_facet. rewrite Hpair. simpl.
      by rewrite bool_decide_eq_false_2.
    + by rewrite Hc, IH.
  - intros linked_cells (cells & Hcells & _)%compute_linked_cells_Ok.
    induction Hcells as [|f c fs cs Hfc _ IH]; constructor; [|done].
    apply parent_of_facet_Ok in Hfc as (sub_cell & local_facet & Hpair & _).
    by exists [sub_cell; local_facet].
  - intros Hall. unfold compute_linked_cells.
    assert (mapM (parent_of_facet sub_to_parent parent_cells) submesh_facets
            ≠ Abort AssertionFailure) as Hmap.
    { induction Hall as [|f fs Hf _ IH]; simpl; [done|].
      destruct (parent_of_facet sub_to_parent parent_cells f) as [c|e] eqn:Hc;
        simpl.
      - destruct (mapM _ fs); simpl; [done|]. congruence.
      - intros [= ->]. unfold parent_of_facet in Hc.
        apply bind_Abort in Hc as [Hc|(pair & Hpair & Hc)];
          [by apply at_Z_not_assertion in Hc|].
        specialize (Hf pair Hpair).
        unfold assert in Hc. rewrite bool_decide_eq_true_2 in Hc by done.
        simpl in Hc. apply bind_Abort in Hc as [Hc|(sc & _ & Hc)].
        + by apply at_nat_not_assertion in Hc.
        + by apply at_Z_not_assertion in Hc. }
    destruct (mapM _ submesh_facets); simpl; [done|]. congruence.
Qed.

Lemma compute_linked_cells_facet_pair_assertion_witness :
  compute_linked_cells reference_sort [0; 1; 0] [[0; 0]; [1]] [2; 3]
    = Abort AssertionFailure
  ∧ compute_linked_cells reference_sort [1; 0] [[0; 0]; [1; 1]] [2; 3]
    ≠ Abort AssertionFailure.
Proof.
  split.
  - apply (proj1 (compute_linked_cells_facet_pair_assertion reference_sort
                    [0; 1; 0] [[0; 0]; [1]] [2; 3]) [0] 1 [0] [1]).
    + reflexivity.
    + repeat constructor. by eexists.
    + reflexivity.
    + simpl. lia.
  - apply (proj2 (proj2 (compute_linked_cells_facet_pair_assertion
                           reference_sort [1; 0] [[0; 0]; [1; 1]] [2; 3]))).
    repeat constructor; intros pair [= <-]; reflexivity.
Defined.

(** ** The coefficient layout *)

Lemma eqm_size_t (a b : Z) : eqm (2 ^ 64) a b → size_t_wrap a = size_t_wrap b.
Proof. done. Qed.

Lemma size_t_wrap_eqm (a : Z) : eqm (2 ^ 64) (size_t_wrap a) a.
Proof. apply Zmod_eqm. Qed.

Lemma coefficients_size_expr_mod (nq g n b m : Z) :
  coefficients_size_expr nq g n b m
  = size_t_wrap (layout_size_formula nq g n b m).
Proof.
  unfold coefficients_size_expr, layout_size_formula, size_t_add, size_t_mul.
  apply eqm_size_t. by repeat setoid_rewrite size_t_wrap_eqm.
Qed.

Lemma coefficients_size_expr_small (nq g n b m : Z) :
  0 ≤ layout_size_formula nq g n b m < 2 ^ 64 →
  coefficients_size_expr nq g n b m = layout_size_formula nq g n b m.
Proof. intros H. rewrite coefficients_size_expr_mod. by apply Z.mod_small. Qed.

Lemma coefficients_size_expr_wrap_args (nq g n b m : Z) :
  coefficients_size_expr nq (size_t_wrap g) n (size_t_wrap b) m
  = coefficients_size_expr nq g n b m.
Proof.
  rewrite !coefficients_size_expr_mod. unfold layout_size_formula.
  apply eqm_size_t. by repeat setoid_rewrite size_t_wrap_eqm.
Qed.

Lemma layout_size_formula_nonneg (nq g n b m : Z) :
  0 ≤ nq → 0 ≤ g → 0 ≤ n → 0 ≤ b → 0 ≤ m → 0 ≤ layout_size_formula nq g n b m.
Proof.
  intros. unfold layout_size_formula.
  assert (0 ≤ n * b) by (by apply Z.mul_nonneg_nonneg).
  assert (0 ≤ n * b * m) by (by apply Z.mul_nonneg_nonneg).
  assert (0 ≤ nq * (2 * g + n * b * m + b)) by (apply Z.mul_nonneg_nonneg; lia).
  lia.
Qed.

Lemma layout_size_formula_increasing (nq g n b m : Z) :
  1 ≤ nq → 0 ≤ g → 1 ≤ n → 1 ≤ b → 0 ≤ m →
  let top := layout_size_formula nq g n b m in
  (∀ q, 0 ≤ q < nq → layout_size_formula q g n b m < top)
  ∧ (∀ g', 0 ≤ g' < g → layout_size_formula nq g' n b m < top)
  ∧ (∀ n', 0 ≤ n' < n → layout_size_formula nq g n' b m < top)
  ∧ (∀ b', 0 ≤ b' < b → layout_size_formula nq g n b' m < top)
  ∧ (∀ m', 0 ≤ m' < m → layout_size_formula nq g n b m' < top).
Proof.
  intros Hq Hg Hn Hb Hm top. subst top. unfold layout_size_formula.
  assert (1 ≤ n * b) by nia.
  assert (0 ≤ n * b * m) by (apply Z.mul_nonneg_nonneg; lia).
  split_and!; intros x Hx.
  - nia.
  - nia.
  - assert (x * b < n * b) by nia.
    assert (x * b * m ≤ n * b * m) by (apply Z.mul_le_mono_nonneg_r; lia).
    nia.
  - assert (n * x < n * b) by nia.
    assert (n * x * m ≤ n * b * m) by (apply Z.mul_le_mono_nonneg_r; lia).
    nia.
  - assert (n * b * x < n * b * m) by (apply Z.mul_lt_mono_pos_l; lia).
    nia.
Qed.

(** C3. [coefficients_size] returns
    [3 + numQuadPoints * (2 * gdim + dofsPerCell * blockSize * maxLinksGlobal
    + blockSize) + dofsPerCell * blockSize], where [maxLinksGlobal] is the
    larger of the two entries of [_max_links], whenever that number fits in
    [std::size_t]; for the parameters 4, 2, 3, 2, 2 the size is 81. *)
Theorem coefficients_size_formula {double : Type} (c : Contact double)
    (mesh : Geometry double) (dofs0 : list Z) (qp0 : list (list double)) :
  marker_mesh c = Some mesh →
  cell_dofs (V_dofmap c) 0 = Ok dofs0 →
  _qp_ref_facet c !! 0%nat = Some qp0 →
  let numQuadPoints := Z.of_nat (length qp0) in
  let gdim := geometry_dim mesh in
  let dofsPerCell := Z.of_nat (length dofs0) in
  let blockSize := dofmap_bs (V_dofmap c) in
  let maxLinksGlobal := Z.max (_max_links c).1 (_max_links c).2 in
  0 ≤ gdim → 0 ≤ blockSize → 0 ≤ maxLinksGlobal →
  layout_size_formula numQuadPoints gdim dofsPerCell blockSize maxLinksGlobal
    < 2 ^ 64 →
  coefficients_size c
    = Ok (layout_size_formula numQuadPoints gdim dofsPerCell blockSize
            maxLinksGlobal)
  ∧ ((numQuadPoints, gdim, dofsPerCell, blockSize, maxLinksGlobal)
       = (4, 2, 3, 2, 2) → coefficients_size c = Ok 81).
Proof.
  intros Hmesh Hdofs Hqp nq g n b m Hg Hb Hm Hsmall.
  assert (coefficients_size c = Ok (layout_size_formula nq g n b m)) as Heq.
  { unfold coefficients_size. rewrite Hmesh. simpl. rewrite Hdofs. simpl.
    unfold at_nat. rewrite Hqp. simpl. f_equal.
    rewrite coefficients_size_expr_wrap_args.
    apply coefficients_size_expr_small. split; [|done].
    apply layout_size_formula_nonneg; lia. }
  split; [done|]. intros [= Hnq Hgd Hn Hbs Hml]. rewrite Heq.
  by rewrite Hnq, Hgd, Hn, Hbs, Hml.
Qed.

Lemma coefficients_size_formula_witness :
  coefficients_size example_contact = Ok 81.
Proof.
  refine (proj1 (coefficients_size_formula example_contact example_geometry
                   [0; 1; 2] [[1]; [2]; [3]; [4]] _ _ _ _ _ _ _));
    first [reflexivity | (simpl; lia) | (vm_compute; reflexivity)].
Defined.

(** C7, the claim as stated fails: with no quadrature point the size does
    not depend on [gdim]. *)
Lemma coefficients_size_not_increasing_in_gdim :
  2 < 3 ∧ coefficients_size_expr 0 2 3 2 2 = coefficients_size_expr 0 3 3 2 2.
Proof. split; [lia | reflexivity]. Qed.

(** C7, amended. When there is at least one quadrature point, one dof per
    cell and one component per dof, and the size fits in [std::size_t], the
    size is strictly increasing in each of its five parameters, the other
    four held fixed. *)
Theorem coefficients_size_strictly_increasing
    (numQuadPoints gdim dofsPerCell blockSize maxLinksGlobal : Z) :
  1 ≤ numQuadPoints → 0 ≤ gdim → 1 ≤ dofsPerCell → 1 ≤ blockSize →
  0 ≤ maxLinksGlobal →
  layout_size_formula numQuadPoints gdim dofsPerCell blockSize maxLinksGlobal
    < 2 ^ 64 →
  let size := coefficients_size_expr in
  let top := size numQuadPoints gdim dofsPerCell blockSize maxLinksGlobal in
  (∀ q, 0 ≤ q < numQuadPoints →
     size q gdim dofsPerCell blockSize maxLinksGlobal < top)
  ∧ (∀ g, 0 ≤ g < gdim →
       size numQuadPoints g dofsPerCell blockSize maxLinksGlobal < top)
  ∧ (∀ n, 0 ≤ n < dofsPerCell →
       size numQuadPoints gdim n blockSize maxLinksGlobal < top)
  ∧ (∀ b, 0 ≤ b < blockSize →
       size numQuadPoints gdim dofsPerCell b maxLinksGlobal < top)
  ∧ (∀ m, 0 ≤ m < maxLinksGlobal →
       size numQuadPoints gdim dofsPerCell blockSize m < top).
Proof.
  intros Hq Hg Hn Hb Hm Hsmall size top. subst size top.
  destruct (layout_size_formula_increasing numQuadPoints gdim dofsPerCell
              blockSize maxLinksGlobal Hq Hg Hn Hb Hm)
    as (Hq' & Hg' & Hn' & Hb' & Hm').
  split_and!; intros x Hx;
    [ specialize (Hq' x Hx) | specialize (Hg' x Hx) | specialize (Hn' x Hx)
    | specialize (Hb' x Hx) | specialize (Hm' x Hx) ];
    rewrite !coefficients_size_expr_small; try done;
    (split; [apply layout_size_formula_nonneg |]; lia).
Qed.

Lemma coefficients_size_strictly_increasing_witness :
  coefficients_size_expr 3 2 3 2 2 < coefficients_size_expr 4 2 3 2 2
  ∧ coefficients_size_expr 4 1 3 2 2 < coefficients_size_expr 4 2 3 2 2
  ∧ coefficients_size_expr 4 2 2 2 2 < coefficients_size_expr 4 2 3 2 2
  ∧ coefficients_size_expr 4 2 3 1 2 < coefficients_size_expr 4 2 3 2 2
  ∧ coefficients_size_expr 4 2 3 2 0 < coefficients_size_expr 4 2 3 2 2.
Proof.
  destruct (coefficients_size_strictly_increasing 4 2 3 2 2)
    as (Hq & Hg & Hn & Hb & Hm); [lia | lia | lia | lia | lia | reflexivity |].
  split_and!; [apply Hq | apply Hg | apply Hn | apply Hb | apply Hm]; lia.
Defined.

(** ** Recorded computations *)

Lemma lift_bind {E A B} (r : result A) (f : A → traced E B) :
  lift r ≫= f = match r with Ok a => f a | Abort e => Traced [] (Abort e) end.
Proof.
  destruct r as [a|e]; [|done].
  unfold mbind, traced_bind, lift; simpl. by destruct (f a).
Qed.

Lemma traced_cons_bind {E A B} (e : E) (a : A) (f : A → traced E B) :
  Traced [e] (Ok a) ≫= f = Traced (e :: trace (f a)) (outcome (f a)).
Proof. reflexivity. Qed.

Lemma outcome_bind {E A B} (m : traced E A) (f : A → traced E B) :
  outcome (m ≫= f)
  = match outcome m with Ok a => outcome (f a) | Abort e => Abort e end.
Proof. unfold mbind, traced_bind. by destruct (outcome m). Qed.

Lemma trace_bind {E A B} (m : traced E A) (f : A → traced E B) :
  trace (m ≫= f)
  = match outcome m with
    | Ok a => trace m ++ trace (f a)
    | Abort _ => trace m
    end.
Proof. unfold mbind, traced_bind. by destruct (outcome m). Qed.

Lemma outcome_bind_Ok {E A B} (m : traced E A) (f : A → traced E B) (b : B) :
  outcome (m ≫= f) = Ok b ↔ ∃ a, outcome m = Ok a ∧ outcome (f a) = Ok b.
Proof.
  rewrite outcome_bind. destruct (outcome m) as [a|e]; split.
  - intros Hf. by exists a.
  - by intros (a' & [= <-] & Hf).
  - intros [=].
  - by intros (a' & [=] & _).
Qed.

Lemma Forall_trace_bind {E A B} (P : E → Prop) (m : traced E A)
    (f : A → traced E B) :
  Forall P (trace m) →
  (∀ a, outcome m = Ok a → Forall P (trace (f a))) →
  Forall P (trace (m ≫= f)).
Proof.
  intros Hm Hf. rewrite trace_bind. destruct (outcome m) as [a|e]; [|done].
  apply Forall_app. split; [done | by apply Hf].
Qed.

Lemma Forall_trace_foldM {E S B} (P : E → Prop) (body : S → B → traced E S)
    (s : S) (l : list B) :
  (∀ s x, Forall P (trace (body s x))) →
  Forall P (trace (foldM body s l)).
Proof.
  intros Hbody. revert s. induction l as [|x l IH]; intros s; simpl.
  - constructor.
  - apply Forall_trace_bind; [apply Hbody | intros s' _; apply IH].
Qed.

Lemma foldM_traced_Ok_inv {E S B} (Inv : S → Prop) (body : S → B → traced E S)
    (s s' : S) (l : list B) :
  (∀ s x s', Inv s → outcome (body s x) = Ok s' → Inv s') →
  Inv s → outcome (foldM body s l) = Ok s' → Inv s'.
Proof.
  intros Hinv. revert s. induction l as [|x l IH]; intros s Hs; simpl.
  - by intros [= <-].
  - intros (s1 & Hs1 & Hl)%outcome_bind_Ok. eapply IH; [|done].
    by eapply Hinv.
Qed.

(** ** The zero fill *)

Section ZeroFill.
Context {PetscScalar : Type}.
Variable zero : PetscScalar.

Lemma zeroed_upto_sizes (Aes Aes' : list (list PetscScalar)) (top : nat) :
  zeroed_upto zero Aes Aes' top → length <$> Aes' = length <$> Aes.
Proof.
  intros (Hlen & Hlow & Hhigh). apply list_eq. intros j.
  rewrite !list_lookup_fmap. destruct (decide (j ≤ top)%nat) as [Hj|Hj].
  - destruct (Hlow j Hj) as (block & -> & ->). simpl.
    by rewrite length_replicate.
  - by rewrite Hhigh by lia.
Qed.

Lemma fill_zero_Ok (Aes Aes' : list (list PetscScalar)) (k : nat) :
  fill_zero zero Aes k = Ok Aes'
  ↔ ∃ block, Aes !! k = Some block
             ∧ Aes' = <[k := replicate (length block) zero]> Aes.
Proof.
  unfold fill_zero. destruct (Aes !! k) as [block|]; split.
  - intros [= <-]. eauto.
  - by intros (block' & [= <-] & ->).
  - intros [=].
  - by intros (block' & [=] & _).
Qed.

Lemma fill_zero_first (Aes Aes' : list (list PetscScalar)) :
  fill_zero zero Aes 0 = Ok Aes' → zeroed_upto zero Aes Aes' 0.
Proof.
  intros (block & Hblock & ->)%fill_zero_Ok. split_and!.
  - by rewrite length_insert.
  - intros j Hj. assert (j = 0%nat) as -> by lia. exists block.
    split; [done|]. apply list_lookup_insert_eq. by eapply lookup_lt_Some.
  - intros j Hj. apply list_lookup_insert_ne. lia.
Qed.

Lemma fill_zero_next (Aes A A' : list (list PetscScalar)) (top : nat) :
  zeroed_upto zero Aes A top → fill_zero zero A (top + 1) = Ok A' →
  zeroed_upto zero Aes A' (top + 1).
Proof.
  intros (Hlen & Hlow & Hhigh) (block & Hblock & ->)%fill_zero_Ok.
  rewrite Hhigh in Hblock by lia. split_and!.
  - by rewrite length_insert.
  - intros j Hj. destruct (decide (j = (top + 1)%nat)) as [->|Hne].
    + exists block. split; [done|]. apply list_lookup_insert_eq.
      rewrite Hlen. by eapply lookup_lt_Some.
    + rewrite list_lookup_insert_ne by done. apply Hlow. lia.
  - intros j Hj. rewrite list_lookup_insert_ne by lia. apply Hhigh. lia.
Qed.

Lemma zero_matrix_blocks_Ok (Aes Aes' : list (list PetscScalar)) (n : nat) :
  zero_matrix_blocks zero Aes n = Ok Aes' → zeroed_upto zero Aes Aes' (3 * n).
Proof.
  unfold zero_matrix_blocks. intros (A0 & HA0%fill_zero_first & Hloop)%bind_Ok.
  assert (∀ len start A,
            zeroed_upto zero Aes A (3 * start) →
            foldM (λ Aes j,
                     Aes ← fill_zero zero Aes (3 * j + 1);
                     Aes ← fill_zero zero Aes (3 * j + 2);
                     fill_zero zero Aes (3 * j + 3)) A (seq start len)
              = Ok Aes' →
            zeroed_upto zero Aes Aes' (3 * (start + len))) as Hgen.
  { induction len as [|len IH]; intros start A HA; cbn [foldM seq].
    - intros [= <-]. by replace (3 * (start + 0))%nat with (3 * start)%nat by lia.
    - intros (A3 & Hbody & Hrest)%bind_Ok.
      apply bind_Ok in Hbody as (A1 & H1 & Hbody).
      apply bind_Ok in Hbody as (A2 & H2 & H3).
      apply (fill_zero_next _ _ _ _ HA) in H1.
      replace (3 * start + 2)%nat with (3 * start + 1 + 1)%nat in H2 by lia.
      apply (fill_zero_next _ _ _ _ H1) in H2.
      replace (3 * start + 3)%nat with (3 * start + 1 + 1 + 1)%nat in H3 by lia.
      apply (fill_zero_next _ _ _ _ H2) in H3.
      replace (3 * (start + S len))%nat with (3 * (S start + len))%nat by lia.
      apply (IH (S start) A3); [|done].
      by replace (3 * S start)%nat with (3 * start + 1 + 1 + 1)%nat by lia. }
  apply (Hgen n 0%nat A0); done.
Qed.

Lemma zero_vector_blocks_Ok (bes bes' : list (list PetscScalar)) (n : nat) :
  zero_vector_blocks zero bes n = Ok bes' → zeroed_upto zero bes bes' n.
Proof.
  unfold zero_vector_blocks. intros (b0 & Hb0%fill_zero_first & Hloop)%bind_Ok.
  assert (∀ len start b,
            zeroed_upto zero bes b start →
            foldM (λ bes j, fill_zero zero bes (j + 1)) b (seq start len)
              = Ok bes' →
            zeroed_upto zero bes bes' (start + len)) as Hgen.
  { induction len as [|len IH]; intros start b Hb; cbn [foldM seq].
    - intros [= <-]. by replace (start + 0)%nat with start by lia.
    - intros (b1 & H1 & Hrest)%bind_Ok.
      apply (fill_zero_next _ _ _ _ Hb) in H1.
      replace (start + S len)%nat with (S start + len)%nat by lia.
      apply (IH (S start) b1); [|done].
      by replace (S start) with (start + 1)%nat by lia. }
  apply (Hgen n 0%nat b0); done.
Qed.

End ZeroFill.

(** ** Kernel calls of the two assembly loops *)

Section KernelCalls.
Context {PetscScalar double : Type}.
Variable zero : PetscScalar.
Variable add : PetscScalar → PetscScalar → PetscScalar.
Variable dzero : double.
Variable radix_sort : list Z → list Z.

#[local] Abbreviation env := (assembly_env PetscScalar double).
#[local] Abbreviation blocks := (list (list PetscScalar)).
#[local] Abbreviation ev := (event PetscScalar double).

Lemma assembly_preamble_perm (c : Contact double) (origin_meshtag : Z)
    (kernel : kernel_args PetscScalar double → blocks)
    (coeffs : list PetscScalar) (cstride : Z) (constants : list PetscScalar)
    (d : env) (num_dofs_g max_links : Z) :
  assembly_preamble c origin_meshtag kernel coeffs cstride constants
    = Ok (d, num_dofs_g, max_links) →
  perm d = 0.
Proof.
  unfold assembly_preamble. intros H. inv_Ok H. by injection H as <- _ _.
Qed.

Lemma matrix_scatter_trace (P : ev → Prop) (d : env) (cell : Z)
    (linked_cells : list Z) (Aes : blocks) :
  (∀ rows cols block, P (MatSet rows cols block)) →
  Forall P (trace (matrix_scatter d cell linked_cells Aes)).
Proof.
  intros HP. unfold matrix_scatter.
  rewrite lift_bind. destruct (cell_dofs _ _); [|constructor].
  rewrite lift_bind. destruct (at_nat Aes 0); [|constructor].
  apply Forall_trace_bind; [by repeat constructor|]. intros _ _.
  apply Forall_trace_foldM. intros [] j.
  rewrite lift_bind. destruct (at_nat linked_cells j); [|constructor].
  rewrite lift_bind. destruct (cell_dofs _ _); [|constructor].
  rewrite lift_bind. destruct (at_nat Aes _); [|constructor].
  apply Forall_trace_bind; [by repeat constructor|]. intros _ _.
  rewrite lift_bind. destruct (at_nat Aes _); [|constructor].
  apply Forall_trace_bind; [by repeat constructor|]. intros _ _.
  rewrite lift_bind. destruct (at_nat Aes _); [|constructor].
  by repeat constructor.
Qed.

(** Every call that the body of the matrix loop records is a [mat_set] or a
    kernel call on blocks that the zero fill has just produced. *)
Lemma matrix_facet_trace (P : ev → Prop) (d : env)
    (coordinate_dofs : list double) (Aes : blocks) (i : nat) :
  (∀ rows cols block, P (MatSet rows cols block)) →
  (∀ Aes' coeffs' coordinate_dofs' local_index n,
     zero_matrix_blocks zero Aes n = Ok Aes' →
     P (KernelCall (KernelArgs Aes' coeffs' (constants d) coordinate_dofs'
                      local_index (perm d) n))) →
  Forall P (trace (matrix_facet zero radix_sort d (coordinate_dofs, Aes) i)).
Proof.
  intros Hset Hkernel. unfold matrix_facet.
  rewrite lift_bind. destruct (at_nat _ i) as [[cell local_index]|];
    [|constructor].
  rewrite lift_bind. destruct (links _ cell); [|constructor].
  rewrite lift_bind. destruct (gather_coordinates _ _ _ _); [|constructor].
  rewrite lift_bind. destruct (links _ _); [|constructor].
  rewrite lift_bind. destruct (compute_linked_cells _ _ _ _) as [linked|];
    [|constructor].
  rewrite lift_bind.
  destruct (zero_matrix_blocks _ _ _) as [Aes'|] eqn:Hzero; [|constructor].
  apply Forall_trace_bind; [repeat constructor; by apply Hkernel|].
  intros Aes'' _.
  apply Forall_trace_bind; [by apply matrix_scatter_trace|].
  intros _ _. constructor.
Qed.

(** The same for the body of the vector loop, which records kernel calls
    only. *)
Lemma vector_facet_trace (P : ev → Prop) (d : env)
    (coordinate_dofs : list double) (bes : blocks) (b : list PetscScalar)
    (i : nat) :
  (∀ bes' coeffs' coordinate_dofs' local_index n,
     zero_vector_blocks zero bes n = Ok bes' →
     P (KernelCall (KernelArgs bes' coeffs' (constants d) coordinate_dofs'
                      local_index (perm d) n))) →
  Forall P (trace (vector_facet zero add radix_sort d
                     (coordinate_dofs, bes, b) i)).
Proof.
  intros Hkernel. unfold vector_facet.
  rewrite lift_bind. destruct (at_nat _ i) as [[cell local_index]|];
    [|constructor].
  rewrite lift_bind. destruct (links _ cell); [|constructor].
  rewrite lift_bind. destruct (gather_coordinates _ _ _ _); [|constructor].
  rewrite lift_bind. destruct (links _ _); [|constructor].
  rewrite lift_bind. destruct (compute_linked_cells _ _ _ _) as [linked|];
    [|constructor].
  rewrite lift_bind.
  destruct (zero_vector_blocks _ _ _) as [bes'|] eqn:Hzero; [|constructor].
  apply Forall_trace_bind; [repeat constructor; by apply Hkernel|].
  intros bes'' _.
  rewrite lift_bind. destruct (vector_scatter _ _ _ _ _ _); constructor.
Qed.

(** C8. Every kernel call made by [assemble_matrix] and by
    [assemble_vector], for every facet, gets the orientation indicator 0;
    this covers the calls made before an abort as well. *)
Theorem assemble_kernel_perm_neutral (c : Contact double)
    (b : list PetscScalar) (origin_meshtag : Z)
    (kernel : kernel_args PetscScalar double → blocks)
    (coeffs : list PetscScalar) (cstride : Z) (constants : list PetscScalar) :
  Forall neutral_perm
    (trace (assemble_matrix zero dzero radix_sort c origin_meshtag kernel
              coeffs cstride constants))
  ∧ Forall neutral_perm
      (trace (assemble_vector zero add dzero radix_sort c b origin_meshtag
                kernel coeffs cstride constants)).
Proof.
  split.
  - unfold assemble_matrix. rewrite lift_bind.
    destruct (assembly_preamble _ _ _ _ _ _) as [[[d ng] ml]|] eqn:Hpre;
      [|constructor].
    apply assembly_preamble_perm in Hpre.
    apply Forall_trace_bind; [|intros; constructor].
    apply Forall_trace_foldM. intros [coordinate_dofs Aes] i.
    apply matrix_facet_trace; [done|]. intros; exact Hpre.
  - unfold assemble_vector. rewrite lift_bind.
    destruct (assembly_preamble _ _ _ _ _ _) as [[[d ng] ml]|] eqn:Hpre;
      [|constructor].
    apply assembly_preamble_perm in Hpre.
    destruct (vector_buffers _ _ _ _ _) as [coordinate_dofs bes].
    apply Forall_trace_bind; [|intros [[? ?] ?] _; constructor].
    apply Forall_trace_foldM. intros [[coordinate_dofs' bes'] b'] i.
    apply vector_facet_trace. intros; exact Hpre.
Qed.

(** C5. A facet of [assemble_matrix] whose set of linked cells is empty,
    and whose cell has its geometry and dofs in the mesh, completes; it
    calls the kernel once and then [mat_set] exactly once, with the dofs of
    its cell as rows and as columns and with block 0. *)
Theorem assemble_matrix_facet_without_links (d : env)
    (coordinate_dofs coordinate_dofs' : list double) (Aes : blocks) (i : nat)
    (cell local_index : Z) (x_dofs candidates dmap_cell : list Z)
    (block0 A0 : list PetscScalar) :
  active_facets d !! i = Some (cell, local_index) →
  links (x_dofmap d) cell = Ok x_dofs →
  gather_coordinates (x_g d) (gdim d) x_dofs coordinate_dofs
    = Ok coordinate_dofs' →
  links (map d) (Z.of_nat i) = Ok candidates →
  compute_linked_cells radix_sort candidates (opposite_facet_map d)
    (opposite_parent_cells d) = Ok [] →
  Aes !! 0%nat = Some block0 →
  cell_dofs (dofmap d) cell = Ok dmap_cell →
  let args :=
    KernelArgs (<[0%nat := replicate (length block0) zero]> Aes)
      (drop (Z.to_nat (Z.of_nat i * cstride d)) (coeffs d))
      (constants d) coordinate_dofs' local_index (perm d) 0 in
  kernel d args !! 0%nat = Some A0 →
  matrix_facet zero radix_sort d (coordinate_dofs, Aes) i
  = Traced [KernelCall args; MatSet dmap_cell dmap_cell A0]
      (Ok (coordinate_dofs', kernel d args)).
Proof.
  intros Hfacet Hx Hgather Hcand Hlinked Hblock Hdofs args HA0.
  unfold matrix_facet.
  rewrite lift_bind, (proj2 (at_nat_Ok _ _ _) Hfacet).
  rewrite lift_bind, Hx. rewrite lift_bind, Hgather. rewrite lift_bind, Hcand.
  rewrite lift_bind, Hlinked. rewrite lift_bind.
  assert (zero_matrix_blocks zero Aes (length (@nil Z))
          = Ok (<[0%nat := replicate (length block0) zero]> Aes)) as ->.
  { unfold zero_matrix_blocks, fill_zero. by rewrite Hblock. }
  change (length (@nil Z)) with 0%nat.
  unfold call_kernel. rewrite traced_cons_bind. fold args.
  unfold matrix_scatter. rewrite lift_bind, Hdofs.
  rewrite lift_bind, (proj2 (at_nat_Ok _ _ _) HA0).
  unfold mat_set. rewrite traced_cons_bind. reflexivity.
Qed.

End KernelCalls.

Lemma assemble_matrix_facet_without_links_witness :
  ∃ args A0,
    matrix_facet 0 reference_sort example_env
      (replicate 9 0, replicate 7 (replicate 36 0)) 1
    = Traced [KernelCall args; MatSet [1; 2; 3] [1; 2; 3] A0]
        (Ok ([10; 0; 0; 0; 10; 0; 10; 10; 0], example_kernel args)).
Proof.
  do 2 eexists.
  apply (assemble_matrix_facet_without_links 0 reference_sort example_env
           (replicate 9 0) [10; 0; 0; 0; 10; 0; 10; 10; 0]
           (replicate 7 (replicate 36 0)) 1 1 2 [1; 2; 3] [] [1; 2; 3]
           (replicate 36 0)); reflexivity.
Defined.

(** On the example [assemble_matrix] completes; facet 0, with two linked
    cells, gives one kernel call and seven calls of [mat_set], and facet 1,
    with none, one kernel call and one call of [mat_set]. *)
Example example_assemble_matrix_calls :
  let run := assemble_matrix 0 0 reference_sort example_contact 0
               example_kernel [1000; 2000] 1 [] in
  outcome run = Ok ()
  ∧ is_kernel_call <$> trace run
    = [true; false; false; false; false; false; false; false; true; false].
Proof. split; vm_compute; reflexivity. Qed.

(** ** The additions that [assemble_vector] makes to [b] *)

Section VectorWritesFacts.
Context {PetscScalar double : Type}.
Variable add : PetscScalar → PetscScalar → PetscScalar.

#[local] Abbreviation env := (assembly_env PetscScalar double).
#[local] Abbreviation blocks := (list (list PetscScalar)).
#[local] Abbreviation write := (Z * PetscScalar)%type.

Lemma add_at_Ok (b b' : list PetscScalar) (p : Z) (v : PetscScalar) :
  add_at add b p v = Ok b'
  ↔ ∃ x, 0 ≤ p ∧ b !! Z.to_nat p = Some x
         ∧ b' = <[Z.to_nat p := add x v]> b.
Proof.
  unfold add_at. rewrite bind_Ok. setoid_rewrite at_Z_Ok. split.
  - intros (x & [Hp Hx] & [= <-]). eauto.
  - intros (x & Hp & Hx & ->). eauto.
Qed.

Lemma apply_writes_cons (w : write) (ws : list write)
    (b b' : list PetscScalar) :
  apply_writes add (w :: ws) b = Ok b'
  ↔ ∃ b1, add_at add b w.1 w.2 = Ok b1 ∧ apply_writes add ws b1 = Ok b'.
Proof. unfold apply_writes. cbn [foldM]. apply bind_Ok. Qed.

Lemma apply_writes_app (ws1 ws2 : list write) (b b' : list PetscScalar) :
  apply_writes add (ws1 ++ ws2) b = Ok b'
  ↔ ∃ b1, apply_writes add ws1 b = Ok b1 ∧ apply_writes add ws2 b1 = Ok b'.
Proof.
  revert b. induction ws1 as [|w ws1 IH]; intros b.
  - split; [intros H; by exists b | by intros (b1 & [= <-] & H)].
  - rewrite <- app_comm_cons, apply_writes_cons. split.
    + intros (b1 & Hw & (b2 & H1 & H2)%IH). exists b2. split; [|done].
      apply apply_writes_cons. eauto.
    + intros (b2 & (b1 & Hw & H1)%apply_writes_cons & H2).
      exists b1. split; [done|]. apply IH. eauto.
Qed.

Lemma apply_writes_length (ws : list write) (b b' : list PetscScalar) :
  apply_writes add ws b = Ok b' → length b' = length b.
Proof.
  revert b. induction ws as [|w ws IH]; intros b.
  - by intros [= <-].
  - intros (b1 & (x & _ & _ & ->)%add_at_Ok & H)%apply_writes_cons.
    rewrite (IH _ H). apply length_insert.
Qed.

(** Whether the additions succeed depends on the length of the vector
    only. *)
Lemma apply_writes_in_range (ws : list write) (b : list PetscScalar) :
  is_Ok (apply_writes add ws b)
  ↔ Forall (λ w, 0 ≤ w.1 < Z.of_nat (length b)) ws.
Proof.
  revert b. induction ws as [|w ws IH]; intros b.
  - split; [constructor | by eexists].
  - split.
    + intros [b' (b1 & Hw & H)%apply_writes_cons].
      apply add_at_Ok in Hw as (x & Hp & Hx & ->).
      constructor.
      * apply lookup_lt_Some in Hx. lia.
      * assert (is_Ok (apply_writes add ws
                         (<[Z.to_nat w.1 := add x w.2]> b))) as Hok
          by by eexists.
        apply IH in Hok. by rewrite length_insert in Hok.
    + intros [[Hp Hlt] Hws]%Forall_cons.
      destruct (lookup_lt_is_Some_2 b (Z.to_nat w.1)) as [x Hx]; [lia|].
      destruct (proj2 (IH (<[Z.to_nat w.1 := add x w.2]> b))) as [b' Hb'].
      { by rewrite length_insert. }
      exists b'. apply apply_writes_cons. eexists. split; [|done].
      apply add_at_Ok. eauto.
Qed.

(** An entry that no pair names keeps its value. *)
Lemma apply_writes_frame (ws : list write) (b b' : list PetscScalar)
    (p : nat) :
  apply_writes add ws b = Ok b' →
  Forall (λ w, Z.to_nat w.1 ≠ p) ws →
  b' !! p = b !! p.
Proof.
  revert b. induction ws as [|w ws IH]; intros b.
  - by intros [= <-].
  - intros (b1 & (x & _ & _ & ->)%add_at_Ok & H)%apply_writes_cons
      [Hne Hws]%Forall_cons.
    rewrite (IH _ H Hws). by apply list_lookup_insert_ne.
Qed.

(** A loop whose body computes some pairs from the loop variable and adds
    them is the addition of all the pairs. *)
Lemma foldM_apply_writes {X} (body : list PetscScalar → X → result (list PetscScalar))
    (gen : X → result (list write)) (xs : list X) :
  (∀ x b b', body b x = Ok b'
             ↔ ∃ ws, gen x = Ok ws ∧ apply_writes add ws b = Ok b') →
  ∀ b b', foldM body b xs = Ok b'
          ↔ ∃ wss, mapM gen xs = Ok wss
                   ∧ apply_writes add (concat wss) b = Ok b'.
Proof.
  intros Hbody. induction xs as [|x xs IH]; intros b b'; cbn [foldM mapM].
  - split.
    + intros [= <-]. by exists [].
    + by intros (wss & [= <-] & [= <-]).
  - rewrite bind_Ok. split.
    + intros (b1 & (ws & Hws & Hb1)%Hbody & (wss & Hwss & Hb')%IH).
      exists (ws :: wss). split.
      * rewrite Hws. simpl. by rewrite Hwss.
      * simpl. apply apply_writes_app. eauto.
    + intros (wss & H & Hb'). apply bind_Ok in H as (ws & Hws & H).
      apply bind_Ok in H as (wss' & Hwss' & [= <-]).
      simpl in Hb'. apply apply_writes_app in Hb' as (b1 & Hb1 & Hb').
      exists b1. split; [apply Hbody | apply IH]; eauto.
Qed.

Lemma scatter_block_writes (bs : Z) (ndofs_cell : nat) (dofs : list Z)
    (bes : blocks) (m : nat) (b b' : list PetscScalar) :
  scatter_block add bs ndofs_cell dofs bes m b = Ok b'
  ↔ ∃ ws, block_writes bs ndofs_cell dofs bes m = Ok ws
          ∧ apply_writes add ws b = Ok b'.
Proof.
  unfold scatter_block, block_writes.
  rewrite (foldM_apply_writes _
             (λ j, wss ← mapM (λ k, w ← block_write bs dofs bes m j k;
                                    mret [w]) (seqZ 0 bs);
                   mret (concat wss))).
  - split.
    + intros (wss & Hwss & Hb'). exists (concat wss). split; [|done].
      assert (mapM (λ j, mapM (block_write bs dofs bes m j) (seqZ 0 bs))
                (seq 0 ndofs_cell) = Ok wss) as ->; [|done].
      apply mapM_Ok. apply mapM_Ok in Hwss.
      eapply Forall2_impl; [exact Hwss|]. intros j ws Hj. simpl in Hj.
      apply bind_Ok in Hj as (wss' & Hj & [= <-]).
      apply mapM_Ok. apply mapM_Ok in Hj. clear -Hj.
      induction Hj as [|k ws ks wss' Hk _ IH]; [constructor|].
      apply bind_Ok in Hk as (w & Hw & [= <-]). simpl. by constructor.
    + intros (ws & H & Hb'). apply bind_Ok in H as (wss & Hwss & [= <-]).
      exists wss. split; [|done].
      apply mapM_Ok. apply mapM_Ok in Hwss.
      eapply Forall2_impl; [exact Hwss|]. intros j ws Hj. simpl in Hj.
      apply bind_Ok. exists ((λ w, [w]) <$> ws). split.
      * apply mapM_Ok. apply mapM_Ok in Hj. clear -Hj.
        induction Hj as [|k w ks ws Hk _ IH]; [constructor|].
        rewrite fmap_cons. constructor; [|done]. by rewrite Hk.
      * f_equal. clear. induction ws as [|w ws IH]; [done|].
        rewrite fmap_cons. simpl. by rewrite IH.
  - intros j b1 b1'.
    rewrite (foldM_apply_writes _
               (λ k, w ← block_write bs dofs bes m j k; mret [w])).
    + split.
      * intros (wss & Hwss & Hb). exists (concat wss). by rewrite Hwss.
      * intros (ws & H & Hb). apply bind_Ok in H as (wss & Hwss & [= <-]).
        eauto.
    + intros k b2 b2'. unfold block_write. split.
      * intros H. inv_Ok H. eexists. rewrite_Ok.
        split; [done|]. apply apply_writes_cons. eauto.
      * intros (ws & H & Hb). apply bind_Ok in H as (w & Hw & [= <-]).
        inv_Ok Hw. injection Hw as <-. rewrite_Ok.
        by apply apply_writes_cons in Hb as (b3 & Hb3 & [= <-]).
Qed.

Lemma vector_scatter_writes (d : env) (cell : Z) (linked_cells : list Z)
    (bes : blocks) (b b' : list PetscScalar) :
  vector_scatter add d cell linked_cells bes b = Ok b'
  ↔ ∃ ws, facet_writes d cell linked_cells bes = Ok ws
          ∧ apply_writes add ws b = Ok b'.
Proof.
  unfold vector_scatter, facet_writes. split.
  - intros H. apply bind_Ok in H as (dofs_cell & Hdofs & H).
    apply bind_Ok in H as (b1 & (ws0 & Hws0 & Hb1)%scatter_block_writes & H).
    apply (foldM_apply_writes _ (linked_writes d linked_cells bes)) in H
      as (wss & Hwss & Hb').
    + exists (ws0 ++ concat wss). rewrite_Ok.
      split; [done|]. apply apply_writes_app. eauto.
    + intros l b2 b2'. unfold linked_writes. split.
      * intros H'. inv_Ok H'. apply scatter_block_writes in H' as (ws & ? & ?).
        exists ws. rewrite_Ok. eauto.
      * intros (ws & H' & Hb). inv_Ok H'. rewrite_Ok.
        apply scatter_block_writes. eauto.
  - intros (ws & H & Hb'). inv_Ok H. injection H as <-.
    apply apply_writes_app in Hb' as (b1 & Hb1 & Hb').
    rewrite_Ok. apply bind_Ok. exists b1. split.
    + apply scatter_block_writes. eauto.
    + apply (foldM_apply_writes _ (linked_writes d linked_cells bes)).
      * intros l b2 b2'. unfold linked_writes. split.
        -- intros H'. inv_Ok H'.
           apply scatter_block_writes in H' as (ws & ? & ?).
           exists ws. rewrite_Ok. eauto.
        -- intros (ws & H' & Hb). inv_Ok H'. rewrite_Ok.
           apply scatter_block_writes. eauto.
      * eauto.
Qed.

End VectorWritesFacts.

(** ** One facet of [assemble_vector] *)

Section VectorFacetFacts.
Context {PetscScalar double : Type}.
Variable zero : PetscScalar.
Variable add : PetscScalar → PetscScalar → PetscScalar.
Variable dzero : double.
Variable radix_sort : list Z → list Z.

#[local] Abbreviation env := (assembly_env PetscScalar double).
#[local] Abbreviation blocks := (list (list PetscScalar)).
#[local] Abbreviation write := (Z * PetscScalar)%type.

Lemma vector_facet_eq (d : env) (coordinate_dofs : list double) (bes : blocks)
    (b : list PetscScalar) (i : nat) :
  vector_facet zero add radix_sort d (coordinate_dofs, bes, b) i
  = match vector_kernel_args zero radix_sort d i coordinate_dofs bes with
    | Ok (cell, linked_cells, a) =>
        Traced [KernelCall a]
          (b' ← vector_scatter add d cell linked_cells (kernel d a) b;
           mret (k_coordinate_dofs a, kernel d a, b'))
    | Abort e => Traced [] (Abort e)
    end.
Proof.
  unfold vector_facet, vector_kernel_args.
  rewrite lift_bind. destruct (at_nat _ i) as [[cell local_index]|]; [|done].
  cbn [mbind result_bind].
  rewrite lift_bind. destruct (links _ cell); [|done].
  cbn [mbind result_bind].
  rewrite lift_bind. destruct (gather_coordinates _ _ _ _); [|done].
  cbn [mbind result_bind].
  rewrite lift_bind. destruct (links _ _); [|done].
  cbn [mbind result_bind].
  rewrite lift_bind. destruct (compute_linked_cells _ _ _ _); [|done].
  cbn [mbind result_bind].
  rewrite lift_bind. destruct (zero_vector_blocks _ _ _); [|done].
  cbn [mbind result_bind mret result_ret].
  unfold call_kernel. rewrite traced_cons_bind. rewrite lift_bind.
  by destruct (vector_scatter _ _ _ _ _ _).
Qed.

Lemma vector_facet_Ok (d : env) (coordinate_dofs coordinate_dofs' : list double)
    (bes bes' : blocks) (b b' : list PetscScalar) (i : nat) :
  outcome (vector_facet zero add radix_sort d (coordinate_dofs, bes, b) i)
    = Ok (coordinate_dofs', bes', b')
  ↔ ∃ cell linked_cells a,
      vector_kernel_args zero radix_sort d i coordinate_dofs bes
        = Ok (cell, linked_cells, a)
      ∧ coordinate_dofs' = k_coordinate_dofs a
      ∧ bes' = kernel d a
      ∧ vector_scatter add d cell linked_cells (kernel d a) b = Ok b'.
Proof.
  rewrite vector_facet_eq.
  destruct (vector_kernel_args _ _ _ _ _ _) as [[[cell linked] a]|]; simpl.
  - rewrite bind_Ok. split.
    + intros (b1 & Hb1 & [= <- <- <-]). by exists cell, linked, a.
    + intros (cell' & linked' & a' & [= <- <- <-] & -> & -> & Hb').
      by exists b'.
  - split; [done | by intros (? & ? & ? & [=] & _)].
Qed.

Lemma vector_kernel_args_Ok (d : env) (i : nat) (coordinate_dofs : list double)
    (bes : blocks) (cell : Z) (linked_cells : list Z)
    (a : kernel_args PetscScalar double) :
  vector_kernel_args zero radix_sort d i coordinate_dofs bes
    = Ok (cell, linked_cells, a) →
  facet_cells radix_sort d i cell linked_cells
  ∧ zero_vector_blocks zero bes (length linked_cells) = Ok (k_blocks a)
  ∧ k_num_linked_cells a = length linked_cells.
Proof.
  unfold vector_kernel_args. intros H.
  apply bind_Ok in H as ([cell' local_index] & Hfacet%at_nat_Ok & H).
  inv_Ok H. injection H as <- <- <-. split; [|done].
  unfold facet_cells. eauto.
Qed.

Lemma block_writes_targets (bs : Z) (ndofs_cell : nat) (dofs : list Z)
    (bes : blocks) (m : nat) (ws : list write) :
  block_writes bs ndofs_cell dofs bes m = Ok ws →
  Forall (λ w, ∃ dof k, dof ∈ dofs ∧ 0 ≤ k < bs ∧ w.1 = bs * dof + k) ws.
Proof.
  unfold block_writes. intros (wss & Hwss%mapM_Ok & [= <-])%bind_Ok.
  apply Forall_concat.
  induction Hwss as [|j row js wss Hrow%mapM_Ok _ IH]; constructor; [|done].
  apply Forall_forall. intros w Hw.
  apply list_elem_of_lookup in Hw as [n Hn].
  destruct (Forall2_lookup_r _ _ _ _ _ Hrow Hn) as (k & Hk & Hkw).
  unfold block_write in Hkw. inv_Ok Hkw. injection Hkw as <-.
  exists a, k. split; [|split; [|done]].
  - apply at_nat_Ok in Ha. by eapply list_elem_of_lookup_2.
  - apply list_elem_of_lookup_2, elem_of_seqZ in Hk. lia.
Qed.

Lemma facet_writes_targets (d : env) (cell : Z) (linked_cells : list Z)
    (bes : blocks) (ws : list write) :
  facet_writes d cell linked_cells bes = Ok ws →
  Forall (λ w, targets_facet_dof d cell linked_cells w.1) ws.
Proof.
  unfold facet_writes. intros H. inv_Ok H. injection H as <-.
  apply Forall_app. split.
  - eapply Forall_impl; [by eapply block_writes_targets|].
    intros w (dof & k & Hdof & Hk & Hw). exists cell, a, dof, k.
    split; [by left|]. by repeat (split; [done|]).
  - apply Forall_concat. apply mapM_Ok in Ha1.
    induction Ha1 as [|l row ls wss Hrow _ IH]; constructor; [|done].
    unfold linked_writes in Hrow.
    apply bind_Ok in Hrow as (linked_cell & Hlinked%at_nat_Ok & Hrow).
    apply bind_Ok in Hrow as (dofs_linked & Hdofs & Hrow).
    eapply Forall_impl; [by eapply block_writes_targets|].
    intros w (dof & k & Hdof & Hk & Hw). exists linked_cell, dofs_linked, dof, k.
    split; [|by repeat (split; [done|])].
    right. by eapply list_elem_of_lookup_2.
Qed.

(** One facet changes [b] at the indices of its own dofs only. *)
Lemma vector_facet_frame (d : env) (coordinate_dofs coordinate_dofs' : list double)
    (bes bes' : blocks) (b b' : list PetscScalar) (i : nat) :
  outcome (vector_facet zero add radix_sort d (coordinate_dofs, bes, b) i)
    = Ok (coordinate_dofs', bes', b') →
  length b' = length b
  ∧ ∀ p : nat, ¬ vector_target radix_sort d (Z.of_nat p) → b' !! p = b !! p.
Proof.
  intros (cell & linked & a & Hargs & _ & _ & Hscatter)%vector_facet_Ok.
  apply vector_kernel_args_Ok in Hargs as (Hcells & _).
  apply vector_scatter_writes in Hscatter as (ws & Hws & Hb').
  split; [by eapply apply_writes_length|].
  intros p Hp. eapply apply_writes_frame; [done|].
  assert (is_Ok (apply_writes add ws b)) as Hrange%apply_writes_in_range
    by by eexists.
  apply facet_writes_targets in Hws.
  rewrite Forall_forall in Hrange, Hws. apply Forall_forall.
  intros w Hw Heq. apply Hp. exists i, cell, linked. split; [done|].
  replace (Z.of_nat p) with w.1 by (specialize (Hrange w Hw); lia).
  by apply Hws.
Qed.

(** C10. When [assemble_vector] completes, [b] has kept its length, and
    every entry whose index is not [bs * dof + k], with [0 <= k < bs], for
    a dof of the cell of an active facet or of a cell linked to that facet,
    has kept its value. *)
Theorem assemble_vector_frame (c : Contact double) (b b' : list PetscScalar)
    (origin_meshtag : Z) (kernel : kernel_args PetscScalar double → blocks)
    (coeffs : list PetscScalar) (cstride : Z) (constants : list PetscScalar)
    (d : env) (num_dofs_g max_links : Z) :
  assembly_preamble c origin_meshtag kernel coeffs cstride constants
    = Ok (d, num_dofs_g, max_links) →
  outcome (assemble_vector zero add dzero radix_sort c b origin_meshtag
             kernel coeffs cstride constants) = Ok b' →
  length b' = length b
  ∧ ∀ p : nat, ¬ vector_target radix_sort d (Z.of_nat p) → b' !! p = b !! p.
Proof.
  intros Hpre. unfold assemble_vector. rewrite Hpre, lift_bind.
  destruct (vector_buffers _ _ _ _ _) as [coordinate_dofs bes].
  intros ([[coordinate_dofs' bes'] b1] & Hloop & [= <-])%outcome_bind_Ok.
  apply (foldM_traced_Ok_inv
           (λ st, length st.2 = length b
                  ∧ ∀ p : nat, ¬ vector_target radix_sort d (Z.of_nat p) →
                      st.2 !! p = b !! p)) in Hloop; [done| |done].
  intros [[c1 bes1] b2] i [[c2 bes2] b3] [Hlen Hframe] Hstep. simpl in *.
  apply vector_facet_frame in Hstep as [Hlen' Hframe']. split; [congruence|].
  intros p Hp. by rewrite Hframe', Hframe.
Qed.

End VectorFacetFacts.

Lemma assemble_vector_frame_witness :
  length example_b' = length example_b
  ∧ ∀ p : nat, ¬ vector_target reference_sort example_env (Z.of_nat p) →
      example_b' !! p = example_b !! p.
Proof.
  apply (assemble_vector_frame 0 Z.add 0 reference_sort example_contact
           example_b example_b' 0 example_kernel [1000; 2000] 1 []
           example_env 3 2); reflexivity.
Defined.

(** ** Sums of contributions *)

Section ContributionsFacts.
Context {PetscScalar double : Type}.
Variable zero : PetscScalar.
Variable add : PetscScalar → PetscScalar → PetscScalar.

Hypothesis add_assoc : ∀ x y z, add x (add y z) = add (add x y) z.
Hypothesis add_comm : ∀ x y, add x y = add y x.
Hypothesis add_zero_r : ∀ x, add x zero = x.

#[local] Abbreviation env := (assembly_env PetscScalar double).
#[local] Abbreviation blocks := (list (list PetscScalar)).
#[local] Abbreviation write := (Z * PetscScalar)%type.
#[local] Abbreviation Σ := (sum_list zero add).

Lemma add_zero_l (x : PetscScalar) : add zero x = x.
Proof. by rewrite add_comm. Qed.

Lemma sum_list_app (l1 l2 : list PetscScalar) :
  Σ (l1 ++ l2) = add (Σ l1) (Σ l2).
Proof.
  induction l1 as [|x l1 IH]; simpl.
  - by rewrite add_zero_l.
  - by rewrite IH, add_assoc.
Qed.

Lemma sum_list_Permutation (l1 l2 : list PetscScalar) :
  l1 ≡ₚ l2 → Σ l1 = Σ l2.
Proof.
  induction 1 as [|x l1 l2 _ IH|x y l|l1 l2 l3 _ IH1 _ IH2]; simpl.
  - done.
  - by rewrite IH.
  - by rewrite !add_assoc, (add_comm x y).
  - by rewrite IH1.
Qed.

Lemma sum_list_zeros (l : list PetscScalar) :
  Forall (λ x, x = zero) l → Σ l = zero.
Proof.
  induction 1 as [|x l -> _ IH]; simpl; [done|]. by rewrite IH, add_zero_r.
Qed.

Lemma write_sum_app (q : Z) (ws1 ws2 : list write) :
  write_sum zero add q (ws1 ++ ws2)
  = add (write_sum zero add q ws1) (write_sum zero add q ws2).
Proof.
  unfold write_sum. by rewrite fmap_app, sum_list_app.
Qed.

Lemma write_sum_concat (q : Z) (wss : list (list write)) :
  write_sum zero add q (concat wss) = Σ (write_sum zero add q <$> wss).
Proof.
  induction wss as [|ws wss IH]; simpl; [done|].
  by rewrite write_sum_app, IH.
Qed.

Lemma write_sum_Permutation (q : Z) (ws1 ws2 : list write) :
  ws1 ≡ₚ ws2 → write_sum zero add q ws1 = write_sum zero add q ws2.
Proof.
  intros H. unfold write_sum. apply sum_list_Permutation. by rewrite H.
Qed.

(** After the additions, an entry holds its old value plus the sum of the
    values added at its index. *)
Lemma apply_writes_lookup (ws : list write) (b b' : list PetscScalar) (q : Z) :
  0 ≤ q →
  apply_writes add ws b = Ok b' →
  b' !! Z.to_nat q
  = (λ x, add x (write_sum zero add q ws)) <$> b !! Z.to_nat q.
Proof.
  intros Hq. revert b. induction ws as [|w ws IH]; intros b.
  - intros [= <-]. unfold write_sum. simpl.
    destruct (b !! Z.to_nat q); simpl; [|done]. by rewrite add_zero_r.
  - intros (b1 & (x & Hp & Hx & ->)%add_at_Ok & H)%apply_writes_cons.
    rewrite (IH _ H). unfold write_sum. rewrite fmap_cons. simpl.
    fold (write_sum zero add q ws). case_decide as Heq.
    + rewrite Heq in *. rewrite list_lookup_insert_eq
        by by eapply lookup_lt_Some.
      rewrite Hx. simpl. by rewrite add_assoc.
    + rewrite list_lookup_insert_ne by lia.
      destruct (b !! Z.to_nat q); simpl; [|done]. by rewrite add_zero_l.
Qed.

Lemma block_write_Ok (bs : Z) (dofs : list Z) (bes : blocks) (m j : nat)
    (k : Z) (w : write) :
  block_write bs dofs bes m j k = Ok w
  ↔ ∃ dof be v,
      dofs !! j = Some dof ∧ bes !! m = Some be
      ∧ 0 ≤ bs * Z.of_nat j + k
      ∧ be !! Z.to_nat (bs * Z.of_nat j + k) = Some v
      ∧ w = (bs * dof + k, v).
Proof.
  unfold block_write. split.
  - intros H. apply bind_Ok in H as (dof & Hdof%at_nat_Ok & H).
    apply bind_Ok in H as (be & Hbe%at_nat_Ok & H).
    apply bind_Ok in H as (v & [Hpos Hv]%at_Z_Ok & [= <-]).
    by exists dof, be, v.
  - intros (dof & be & v & Hdof%at_nat_Ok & Hbe%at_nat_Ok & Hpos & Hv & ->).
    rewrite_Ok. rewrite (proj2 (at_Z_Ok _ _ _) (conj Hpos Hv)). done.
Qed.

(** The pairs of one position [j] of a cell add, at the index
    [bs * dof + k], the entry [bs * j + k] of the block when the cell has
    the dof at this position, and nothing otherwise. *)
Lemma write_sum_row (bs : Z) (dofs : list Z) (bes : blocks) (m j : nat)
    (dof k : Z) (ks : list Z) (row : list write) :
  Forall2 (λ k' w, block_write bs dofs bes m j k' = Ok w) ks row →
  NoDup ks → Forall (λ k', 0 ≤ k' < bs) ks → 0 ≤ k < bs →
  write_sum zero add (bs * dof + k) row
  = if decide (dofs !! j = Some dof ∧ k ∈ ks)
    then default zero
           (default [] (bes !! m) !! Z.to_nat (bs * Z.of_nat j + k))
    else zero.
Proof.
  intros Hrow Hnd Hks Hk.
  induction Hrow as [|k' w ks row Hw _ IH].
  - unfold write_sum. simpl. case_decide as H; [|done].
    destruct H as [_ H]. by apply elem_of_nil in H.
  - apply NoDup_cons in Hnd as [Hk' Hnd].
    apply Forall_cons in Hks as [Hk'range Hks].
    specialize (IH Hnd Hks).
    apply block_write_Ok in Hw as (dof' & be & v & Hdof & Hbe & _ & Hv & ->).
    unfold write_sum in *. rewrite fmap_cons. simpl. rewrite IH. clear IH.
    destruct (decide (dof' = dof ∧ k' = k)) as [[-> ->]|Hne].
    + rewrite decide_True by done.
      rewrite (decide_False (P := _ ∧ k ∈ ks)) by tauto.
      rewrite decide_True by (split; [done | left]).
      rewrite add_zero_r, Hbe. simpl. by rewrite Hv.
    + rewrite (decide_False (P := _ = bs * dof + k)).
      2:{ intros Heq. apply Hne. assert (dof' = dof) as -> by nia.
          split; [done | lia]. }
      rewrite add_zero_l by done.
      destruct (decide (dof' = dof)) as [->|Hdof'].
      * assert (k' ≠ k) by tauto.
        apply decide_ext. rewrite elem_of_cons. naive_solver.
      * rewrite !decide_False; [done| |]; intros [? _]; congruence.
Qed.

Lemma fmap_Forall2_eq {A B C} (f : A → C) (g : B → C) (l : list A)
    (k : list B) :
  Forall2 (λ x y, g y = f x) l k → g <$> k = f <$> l.
Proof. induction 1; [done|]. rewrite !fmap_cons. by f_equal. Qed.

Lemma write_sum_block (d : env) (dofs : list Z) (bes : blocks) (m : nat)
    (dof k : Z) (ws : list write) :
  block_writes (bs d) (ndofs_cell d) dofs bes m = Ok ws →
  0 ≤ k < bs d →
  write_sum zero add (bs d * dof + k) ws
  = block_contribution zero add d dofs (default [] (bes !! m)) dof k.
Proof.
  unfold block_writes. intros (wss & Hwss%mapM_Ok & [= <-])%bind_Ok Hk.
  rewrite write_sum_concat. unfold block_contribution. f_equal.
  apply fmap_Forall2_eq. eapply Forall2_impl; [exact Hwss|].
  intros j row Hrow%mapM_Ok. simpl.
  rewrite (write_sum_row _ _ _ _ _ _ _ _ _ Hrow); [| |  |done].
  - apply decide_ext. rewrite elem_of_seqZ. split; [tauto | intros; split; [done|lia]].
  - apply NoDup_seqZ.
  - apply Forall_forall. intros k' Hk'%elem_of_seqZ. lia.
Qed.

(** The pairs of a facet add, at the index [bs * dof + k], the entries of
    block 0 for the cell and of block [l + 1] for the linked cell [l]. *)
Lemma write_sum_facet (d : env) (cell : Z) (linked_cells : list Z)
    (bes : blocks) (dof k : Z) (ws : list write) :
  facet_writes d cell linked_cells bes = Ok ws →
  0 ≤ k < bs d →
  write_sum zero add (bs d * dof + k) ws
  = add (block_contribution zero add d (dofs_of d cell)
           (default [] (bes !! 0%nat)) dof k)
        (Σ ((λ l : nat,
               block_contribution zero add d
                 (dofs_of d (default 0 (linked_cells !! l)))
                 (default [] (bes !! (l + 1)%nat)) dof k)
              <$> seq 0 (length linked_cells))).
Proof.
  unfold facet_writes. intros H Hk.
  apply bind_Ok in H as (dofs_cell & Hdofs & H).
  apply bind_Ok in H as (ws0 & Hws0 & H).
  apply bind_Ok in H as (wss & Hwss%mapM_Ok & [= <-]).
  rewrite write_sum_app, write_sum_concat. f_equal.
  - unfold dofs_of. rewrite Hdofs. by apply write_sum_block.
  - f_equal. apply fmap_Forall2_eq. eapply Forall2_impl; [exact Hwss|].
    intros l row Hrow. simpl. unfold linked_writes in Hrow.
    apply bind_Ok in Hrow as (linked_cell & Hlinked%at_nat_Ok & Hrow).
    apply bind_Ok in Hrow as (dofs_linked & Hdl & Hrow).
    rewrite Hlinked. simpl. unfold dofs_of. rewrite Hdl.
    by apply write_sum_block.
Qed.

(** A cell that does not have the dof contributes nothing to it. *)
Lemma block_contribution_zero (d : env) (dofs : list Z)
    (be : list PetscScalar) (dof k : Z) :
  dof ∉ dofs → block_contribution zero add d dofs be dof k = zero.
Proof.
  intros Hdof. unfold block_contribution. apply sum_list_zeros.
  apply Forall_fmap, Forall_forall. intros j _. simpl.
  rewrite decide_False; [done|]. intros Hj. apply Hdof.
  by eapply list_elem_of_lookup_2.
Qed.

End ContributionsFacts.

(** ** The loop of [assemble_vector] in any order *)

Lemma foldM_shape {S B} (shape : S → nat) (body : S → B → result S)
    (l : list B) :
  (∀ s x s', body s x = Ok s' → shape s' = shape s) →
  (∀ s1 s2 x, shape s1 = shape s2 → is_Ok (body s1 x) → is_Ok (body s2 x)) →
  ∀ s1 s2 s1', shape s1 = shape s2 → foldM body s1 l = Ok s1' →
    shape s1' = shape s1 ∧ is_Ok (foldM body s2 l).
Proof.
  intros Hkeep Hsame. induction l as [|x l IH]; intros s1 s2 s1' Hshape;
    cbn [foldM].
  - intros [= <-]. split; [done | by eexists].
  - intros (t1 & Ht1 & Hl)%bind_Ok.
    destruct (Hsame s1 s2 x Hshape) as [t2 Ht2]; [by eexists|].
    assert (shape t1 = shape t2) as Ht
      by (rewrite (Hkeep _ _ _ Ht1), (Hkeep _ _ _ Ht2); done).
    destruct (IH t1 t2 s1' Ht Hl) as [Hs1' Hok]. split.
    + rewrite Hs1'. by eapply Hkeep.
    + by rewrite Ht2.
Qed.

Lemma mapM_ext_in {A B} (f g : A → result B) (l : list A) :
  (∀ x, x ∈ l → f x = g x) → mapM f l = mapM g l.
Proof.
  induction l as [|x l IH]; intros Hfg; [done|]. cbn [mapM].
  rewrite (Hfg x) by left. rewrite IH; [done|].
  intros y Hy. apply Hfg. by right.
Qed.

Lemma mapM_Permutation {A B} (f : A → result B) (l1 l2 : list A)
    (k1 : list B) :
  l1 ≡ₚ l2 → mapM f l1 = Ok k1 → ∃ k2, mapM f l2 = Ok k2 ∧ k1 ≡ₚ k2.
Proof.
  intros Hperm. revert k1.
  induction Hperm as [|x l1 l2 _ IH|x y l|l1 l2 l3 _ IH1 _ IH2]; intros k1.
  - intros [= <-]. by exists [].
  - cbn [mapM]. intros (z & Hz & H)%bind_Ok.
    apply bind_Ok in H as (k & Hk & [= <-]).
    destruct (IH k Hk) as (k2 & Hk2 & Hperm). exists (z :: k2).
    rewrite Hz. simpl. rewrite Hk2. split; [done | by constructor].
  - cbn [mapM]. intros (zy & Hy & H)%bind_Ok.
    apply bind_Ok in H as (k' & H & [= <-]).
    apply bind_Ok in H as (zx & Hx & H).
    apply bind_Ok in H as (k & Hk & [= <-]).
    exists (zx :: zy :: k). rewrite Hx. simpl. rewrite Hy. simpl.
    rewrite Hk. split; [done | constructor].
  - intros H1. destruct (IH1 k1 H1) as (k2 & H2 & Hp12).
    destruct (IH2 k2 H2) as (k3 & H3 & Hp23). exists k3.
    split; [done | by etrans].
Qed.

Section GatherShape.
Context {double : Type}.

Lemma copy_n_length (src dst dst' : list double) (off n : Z) (doff : nat) :
  copy_n src off n dst doff = Ok dst' → length dst' = length dst.
Proof.
  unfold copy_n. case_decide as H; [|done]. intros [= <-].
  rewrite !length_app, !length_take, !length_drop. lia.
Qed.

Lemma copy_n_shape (src dst1 dst2 : list double) (off n : Z) (doff : nat) :
  length dst1 = length dst2 →
  is_Ok (copy_n src off n dst1 doff) → is_Ok (copy_n src off n dst2 doff).
Proof.
  unfold copy_n. intros Hlen [dst' H]. case_decide as H1; [|done].
  rewrite decide_True by (rewrite <- Hlen; done). by eexists.
Qed.

Lemma gather_coordinates_shape (x_g : list double) (gdim : Z)
    (x_dofs : list Z) (c1 c2 c1' : list double) :
  length c1 = length c2 →
  gather_coordinates x_g gdim x_dofs c1 = Ok c1' →
  length c1' = length c1
  ∧ is_Ok (gather_coordinates x_g gdim x_dofs c2).
Proof.
  unfold gather_coordinates. apply (foldM_shape length).
  - intros c j c' (x_dof & _ & H)%bind_Ok. by eapply copy_n_length.
  - intros d1 d2 j Hlen [c' (x_dof & Hx & H)%bind_Ok].
    rewrite Hx. simpl. eapply copy_n_shape; [done | by eexists].
Qed.

End GatherShape.

Section ZeroShape.
Context {PetscScalar : Type}.
Variable zero : PetscScalar.

Lemma zero_vector_blocks_shape (bes1 bes2 bes1' : list (list PetscScalar))
    (n : nat) :
  length bes1 = length bes2 →
  zero_vector_blocks zero bes1 n = Ok bes1' →
  is_Ok (zero_vector_blocks zero bes2 n).
Proof.
  intros Hlen. unfold zero_vector_blocks.
  assert (Hkeep : ∀ (s : list (list PetscScalar)) k s',
            fill_zero zero s k = Ok s' → length s' = length s).
  { intros s k s' (block & _ & ->)%fill_zero_Ok. apply length_insert. }
  assert (Hsame : ∀ (s1 s2 : list (list PetscScalar)) k,
            length s1 = length s2 →
            is_Ok (fill_zero zero s1 k) → is_Ok (fill_zero zero s2 k)).
  { intros s1 s2 k Hs [s' (block & Hblock & _)%fill_zero_Ok].
    apply lookup_lt_Some in Hblock. rewrite Hs in Hblock.
    apply lookup_lt_is_Some_2 in Hblock as [block2 Hblock2].
    unfold fill_zero. rewrite Hblock2. by eexists. }
  intros (b1 & Hb1 & Hloop)%bind_Ok.
  destruct (Hsame bes1 bes2 0%nat Hlen) as [b2 Hb2]; [by eexists|].
  rewrite Hb2. simpl.
  eapply (foldM_shape length (λ bes j, fill_zero zero bes (j + 1))
            (seq 0 n)); [ | |  |exact Hloop].
  - intros s j s'. apply Hkeep.
  - intros s1 s2 j. apply Hsame.
  - by rewrite (Hkeep _ _ _ Hb1), (Hkeep _ _ _ Hb2).
Qed.

End ZeroShape.

Section AssembleVectorOrder.
Context {PetscScalar double : Type}.
Variable zero : PetscScalar.
Variable add : PetscScalar → PetscScalar → PetscScalar.
Variable dzero : double.
Variable radix_sort : list Z → list Z.

Hypothesis add_assoc : ∀ x y z, add x (add y z) = add (add x y) z.
Hypothesis add_comm : ∀ x y, add x y = add y x.
Hypothesis add_zero_r : ∀ x, add x zero = x.

#[local] Abbreviation env := (assembly_env PetscScalar double).
#[local] Abbreviation blocks := (list (list PetscScalar)).
#[local] Abbreviation write := (Z * PetscScalar)%type.
#[local] Abbreviation state :=
  (list double * list (list PetscScalar) * list PetscScalar)%type.
#[local] Abbreviation Σ := (sum_list zero add).
#[local] Abbreviation facet := (vector_facet zero add radix_sort).

Variable d : env.
Variable sizes : nat * list nat.
Variable values : nat → blocks.
Hypothesis kernel_count : kernel_keeps_blocks d.
Hypothesis kernel_local : kernel_values zero radix_sort d sizes values.

Lemma facet_cells_functional (i : nat) (cell : Z) (linked_cells : list Z) :
  facet_cells radix_sort d i cell linked_cells →
  cell = facet_cell d i ∧ linked_cells = facet_linked_cells radix_sort d i.
Proof.
  intros (local_index & candidates & Hfacet & Hcand & Hlinked).
  unfold facet_cell, facet_linked_cells.
  by rewrite Hfacet, Hcand; simpl; rewrite Hlinked.
Qed.

Lemma block_writes_ext (bs : Z) (n : nat) (dofs : list Z) (bes1 bes2 : blocks)
    (m : nat) :
  bes1 !! m = bes2 !! m →
  block_writes bs n dofs bes1 m = block_writes bs n dofs bes2 m.
Proof.
  intros Hm. unfold block_writes. f_equal.
  apply mapM_ext_in. intros j _. apply mapM_ext_in. intros k _.
  unfold block_write, at_nat. by rewrite Hm.
Qed.

(** The pairs of a facet depend on its active blocks only. *)
Lemma facet_writes_ext (cell : Z) (linked_cells : list Z)
    (bes1 bes2 : blocks) :
  (∀ m, (m ≤ length linked_cells)%nat → bes1 !! m = bes2 !! m) →
  facet_writes d cell linked_cells bes1 = facet_writes d cell linked_cells bes2.
Proof.
  intros Hbes. unfold facet_writes.
  destruct (cell_dofs _ _) as [dofs_cell|]; [|done]. cbn [mbind result_bind].
  rewrite (block_writes_ext _ _ _ bes1 bes2) by (apply Hbes; lia).
  destruct (block_writes _ _ _ bes2 0) as [ws0|]; [|done].
  cbn [mbind result_bind]. f_equal.
  apply mapM_ext_in. intros l Hl%elem_of_seq. unfold linked_writes.
  destruct (at_nat _ _); [|done]. cbn [mbind result_bind].
  destruct (cell_dofs _ _); [|done]. cbn [mbind result_bind].
  apply block_writes_ext, Hbes. lia.
Qed.

Lemma vector_kernel_args_shape (i : nat) (c1 c2 : list double)
    (bes1 bes2 : blocks) (cell : Z) (linked_cells : list Z)
    (a1 : kernel_args PetscScalar double) :
  buffer_sizes c1 bes1 = buffer_sizes c2 bes2 →
  vector_kernel_args zero radix_sort d i c1 bes1 = Ok (cell, linked_cells, a1) →
  buffer_sizes (k_coordinate_dofs a1) (k_blocks a1) = buffer_sizes c1 bes1
  ∧ ∃ a2, vector_kernel_args zero radix_sort d i c2 bes2
          = Ok (cell, linked_cells, a2).
Proof.
  intros [= Hc Hbes]. unfold vector_kernel_args. intros H.
  apply bind_Ok in H as ([cell' local_index] & Hfacet & H).
  apply bind_Ok in H as (x_dofs & Hx & H).
  apply bind_Ok in H as (c1' & Hgather & H).
  apply bind_Ok in H as (candidates & Hcand & H).
  apply bind_Ok in H as (linked & Hlinked & H).
  apply bind_Ok in H as (bes1' & Hzero & [= <- <- <-]).
  destruct (gather_coordinates_shape _ _ _ _ _ _ Hc Hgather)
    as [Hc1' [c2' Hc2']].
  assert (length bes1 = length bes2) as Hlen
    by (rewrite <- (length_fmap length bes1), Hbes; apply length_fmap).
  destruct (zero_vector_blocks_shape _ _ _ _ _ Hlen Hzero) as [bes2' Hbes2'].
  apply zero_vector_blocks_Ok, zeroed_upto_sizes in Hzero.
  split; [unfold buffer_sizes; simpl; congruence|].
  rewrite Hfacet. cbn [mbind result_bind]. rewrite_Ok. by eexists.
Qed.

(** A facet that completes applies its pairs to [b]; it keeps the sizes of
    the buffers, and it completes from any buffers of the same sizes. *)
Lemma vector_facet_transfer (st1 st1' : state) (i : nat) :
  buffer_sizes st1.1.1 st1.1.2 = sizes →
  outcome (facet d st1 i) = Ok st1' →
  shape st1' = shape st1
  ∧ (∃ ws, facet_writes_of radix_sort d values i = Ok ws
           ∧ apply_writes add ws st1.2 = Ok st1'.2)
  ∧ ∀ st2, shape st2 = shape st1 → is_Ok (outcome (facet d st2 i)).
Proof.
  destruct st1 as [[c1 bes1] b1], st1' as [[c1' bes1'] b1']. simpl.
  intros Hsizes.
  intros (cell & linked & a1 & Hargs & -> & -> & Hscatter)%vector_facet_Ok.
  apply vector_scatter_writes in Hscatter as (ws & Hws & Hb1').
  destruct (vector_kernel_args_Ok _ _ _ _ _ _ _ _ _ Hargs)
    as (Hcells%facet_cells_functional & _).
  destruct Hcells as [Hcell Hlinked].
  assert (facet_writes_of radix_sort d values i = Ok ws) as Hws'.
  { unfold facet_writes_of. rewrite <- Hcell, <- Hlinked, <- Hws.
    symmetry. apply facet_writes_ext. intros m Hm.
    by eapply kernel_local. }
  unfold shape. simpl. split_and!.
  - destruct (vector_kernel_args_shape i c1 c1 bes1 bes1 _ _ _ eq_refl Hargs)
      as ([= Hc Hb] & _).
    unfold buffer_sizes.
    by rewrite Hc, kernel_count, Hb, (apply_writes_length _ _ _ _ Hb1').
  - eauto.
  - intros [[c2 bes2] b2]. simpl. intros [= Hc Hbes Hb].
    destruct (vector_kernel_args_shape i c1 c2 bes1 bes2 _ _ _
                (eq_sym (f_equal2 pair Hc Hbes)) Hargs) as (_ & a2 & Hargs2).
    assert (is_Ok (apply_writes add ws b2)) as [b2' Hb2'].
    { apply apply_writes_in_range. rewrite Hb.
      apply (apply_writes_in_range add). by eexists. }
    exists (k_coordinate_dofs a2, kernel d a2, b2').
    apply vector_facet_Ok. exists cell, linked, a2.
    split_and!; try done. apply vector_scatter_writes. exists ws.
    split; [|done]. rewrite <- Hws.
    apply facet_writes_ext. intros m Hm.
    assert (buffer_sizes c2 bes2 = sizes) as Hsizes2
      by (rewrite <- Hsizes; unfold buffer_sizes; congruence).
    rewrite (kernel_local _ _ _ _ _ _ Hsizes2 Hargs2 m Hm).
    by rewrite (kernel_local _ _ _ _ _ _ Hsizes Hargs m Hm).
Qed.

Lemma vector_loop_forward (order : list nat) (st st' : state) :
  buffer_sizes st.1.1 st.1.2 = sizes →
  outcome (foldM (facet d) st order) = Ok st' →
  shape st' = shape st
  ∧ (∃ wss, mapM (facet_writes_of radix_sort d values) order = Ok wss
            ∧ apply_writes add (concat wss) st.2 = Ok st'.2)
  ∧ Forall (facet_completes zero add radix_sort d (shape st)) order.
Proof.
  revert st. induction order as [|i order IH]; intros st Hsizes; cbn [foldM].
  - intros [= <-]. split_and!; [done | by exists [] | constructor].
  - intros (st1 & Hstep & Hrest)%outcome_bind_Ok.
    destruct (vector_facet_transfer _ _ _ Hsizes Hstep)
      as (Hshape1 & (ws & Hws & Hb1) & _).
    assert (buffer_sizes st1.1.1 st1.1.2 = sizes) as Hsizes1
      by (unfold shape in Hshape1; congruence).
    destruct (IH _ Hsizes1 Hrest) as (Hshape' & (wss & Hwss & Hb') & Hall).
    split_and!.
    + congruence.
    + exists (ws :: wss). cbn [mapM]. rewrite_Ok. split; [done|].
      simpl. apply apply_writes_app. eauto.
    + constructor.
      * exists st. split; [done | by eexists].
      * by rewrite <- Hshape1.
Qed.

Lemma vector_loop_transfer (order : list nat) (st : state) :
  buffer_sizes st.1.1 st.1.2 = sizes →
  Forall (facet_completes zero add radix_sort d (shape st)) order →
  is_Ok (outcome (foldM (facet d) st order)).
Proof.
  revert st. induction order as [|i order IH]; intros st Hsizes; cbn [foldM].
  - intros _. by eexists.
  - intros [(sti & Hshape & [sti' Hsti']) Hall]%Forall_cons.
    assert (buffer_sizes sti.1.1 sti.1.2 = sizes) as Hsizesi
      by (unfold shape in Hshape; congruence).
    destruct (vector_facet_transfer _ _ _ Hsizesi Hsti') as (_ & _ & Hany).
    destruct (Hany st) as [st1 Hst1]; [done|].
    destruct (vector_facet_transfer _ _ _ Hsizes Hst1) as (Hshape1 & _ & _).
    assert (buffer_sizes st1.1.1 st1.1.2 = sizes) as Hsizes1
      by (unfold shape in Hshape1; congruence).
    destruct (IH st1 Hsizes1) as [st' Hst']; [by rewrite Hshape1|].
    exists st'. apply outcome_bind_Ok. eauto.
Qed.

(** The loop over the facets in two orders that are permutations of each
    other: when one completes, the other completes with the same [b]. *)
Lemma vector_loop_permutation (order1 order2 : list nat) (st st1 : state) :
  buffer_sizes st.1.1 st.1.2 = sizes →
  order1 ≡ₚ order2 →
  outcome (foldM (facet d) st order1) = Ok st1 →
  ∃ st2, outcome (foldM (facet d) st order2) = Ok st2 ∧ st2.2 = st1.2.
Proof.
  intros Hsizes Hperm Hrun1.
  destruct (vector_loop_forward _ _ _ Hsizes Hrun1)
    as (Hshape1 & (wss1 & Hwss1 & Hb1) & Hall).
  rewrite Hperm in Hall.
  destruct (vector_loop_transfer _ _ Hsizes Hall) as [st2 Hrun2].
  exists st2. split; [done|].
  destruct (vector_loop_forward _ _ _ Hsizes Hrun2)
    as (Hshape2 & (wss2 & Hwss2 & Hb2) & _).
  destruct (mapM_Permutation _ _ _ _ Hperm Hwss1) as (wss2' & Hwss2' & Hp).
  assert (wss2' = wss2) as -> by congruence.
  apply list_eq. intros p.
  rewrite <- (Nat2Z.id p).
  rewrite (apply_writes_lookup zero add add_assoc add_comm add_zero_r _ _ _
             (Z.of_nat p) (Nat2Z.is_nonneg p) Hb1).
  rewrite (apply_writes_lookup zero add add_assoc add_comm add_zero_r _ _ _
             (Z.of_nat p) (Nat2Z.is_nonneg p) Hb2).
  f_equal. by rewrite (write_sum_Permutation zero add add_assoc add_comm _
                         (concat wss1) (concat wss2)) by by rewrite Hp.
Qed.

(** After the loop an entry of [b] holds its old value plus the sum, over
    the facets of the loop, of what each facet contributes to it. *)
Lemma vector_loop_sum (order : list nat) (st st' : state) (dof k : Z) :
  buffer_sizes st.1.1 st.1.2 = sizes →
  outcome (foldM (facet d) st order) = Ok st' →
  0 ≤ k < bs d → 0 ≤ bs d * dof + k →
  st'.2 !! Z.to_nat (bs d * dof + k)
  = (λ x, add x (Σ (facet_contribution zero add radix_sort d values dof k
                      <$> order)))
      <$> st.2 !! Z.to_nat (bs d * dof + k).
Proof.
  intros Hsizes Hrun Hk Hq.
  destruct (vector_loop_forward _ _ _ Hsizes Hrun)
    as (_ & (wss & Hwss & Hb) & _).
  rewrite (apply_writes_lookup zero add add_assoc add_comm add_zero_r _ _ _
             _ Hq Hb).
  rewrite (write_sum_concat zero add add_assoc add_comm add_zero_r).
  assert (write_sum zero add (bs d * dof + k) <$> wss
          = facet_contribution zero add radix_sort d values dof k <$> order)
    as ->; [|done].
  apply mapM_Ok in Hwss.
  apply fmap_Forall2_eq. eapply Forall2_impl; [exact Hwss|].
  intros i ws Hws. simpl.
  by apply (write_sum_facet zero add add_assoc add_comm add_zero_r).
Qed.

End AssembleVectorOrder.

(** ** The sum that [assemble_vector] accumulates *)

Lemma assemble_vector_in_order_seq {PetscScalar double : Type}
    (zero : PetscScalar) (add : PetscScalar → PetscScalar → PetscScalar)
    (dzero : double) (radix_sort : list Z → list Z) (c : Contact double)
    (b : list PetscScalar) (origin_meshtag : Z)
    (kernel : kernel_args PetscScalar double → list (list PetscScalar))
    (coeffs : list PetscScalar) (cstride : Z) (constants : list PetscScalar)
    (d : assembly_env PetscScalar double) (num_dofs_g max_links : Z) :
  assembly_preamble c origin_meshtag kernel coeffs cstride constants
    = Ok (d, num_dofs_g, max_links) →
  assemble_vector zero add dzero radix_sort c b origin_meshtag kernel coeffs
    cstride constants
  = assemble_vector_in_order zero add dzero radix_sort
      (seq 0 (length (active_facets d))) c b origin_meshtag kernel coeffs
      cstride constants.
Proof.
  intros Hpre. unfold assemble_vector, assemble_vector_in_order.
  by rewrite Hpre, !lift_bind.
Qed.

(** C2, the claim as stated fails: in double precision the three facets
    of [FloatExample] give [2^53] in the order 0, 1, 2 of the source and
    [2^53 + 2] in the order 1, 2, 0. *)
Lemma assemble_vector_order_matters_in_floating_point :
  [1; 2; 0]%nat ≡ₚ seq 0 3
  ∧ outcome (assemble_vector PrimFloat.zero PrimFloat.add PrimFloat.zero
               reference_sort FloatExample.float_contact [PrimFloat.zero] 0
               FloatExample.float_kernel FloatExample.float_coeffs 1 [])
    = Ok [FloatExample.two_to_53]
  ∧ FloatExample.float_assemble [0; 1; 2]%nat = Ok [FloatExample.two_to_53]
  ∧ FloatExample.float_assemble [1; 2; 0]%nat
    = Ok [FloatExample.two_to_53_plus_2]
  ∧ PrimFloat.eqb FloatExample.two_to_53 FloatExample.two_to_53_plus_2 = false.
Proof.
  split_and!; try reflexivity.
  simpl. etrans; [apply perm_skip, perm_swap | apply perm_swap].
Qed.

(** C2, amended. Let the addition of scalars be associative and
    commutative with 0 neutral, and let the kernel keep the sizes of the
    blocks and leave in the active blocks of each facet [i] the values
    [values i], whatever the reused buffers hold. When [assemble_vector]
    completes, the entry [bs * dof + k] of [b] is its initial value plus the
    sum over all facets of (a) the entries of block 0 at the positions where
    the cell of the facet has the dof and (b) the entries of block [l + 1]
    at the positions where its linked cell [l] has the dof; a cell without
    the dof contributes 0; and with the facets taken in any permuted order
    the call completes with the same [b]. *)
Theorem assemble_vector_sum_any_order {PetscScalar double : Type}
    (zero : PetscScalar) (add : PetscScalar → PetscScalar → PetscScalar)
    (dzero : double) (radix_sort : list Z → list Z) (c : Contact double)
    (b b' : list PetscScalar) (origin_meshtag : Z)
    (kernel : kernel_args PetscScalar double → list (list PetscScalar))
    (coeffs : list PetscScalar) (cstride : Z) (constants : list PetscScalar)
    (d : assembly_env PetscScalar double) (num_dofs_g max_links : Z)
    (values : nat → list (list PetscScalar)) :
  (∀ x y z, add x (add y z) = add (add x y) z) →
  (∀ x y, add x y = add y x) →
  (∀ x, add x zero = x) →
  assembly_preamble c origin_meshtag kernel coeffs cstride constants
    = Ok (d, num_dofs_g, max_links) →
  kernel_keeps_blocks d →
  kernel_values zero radix_sort d
    (buffer_sizes (vector_buffers zero dzero d num_dofs_g max_links).1
                  (vector_buffers zero dzero d num_dofs_g max_links).2)
    values →
  outcome (assemble_vector zero add dzero radix_sort c b origin_meshtag
             kernel coeffs cstride constants) = Ok b' →
  (∀ dof k, 0 ≤ k < bs d → 0 ≤ bs d * dof + k →
     b' !! Z.to_nat (bs d * dof + k)
     = (λ x, add x (sum_list zero add
                      (facet_contribution zero add radix_sort d values dof k
                         <$> seq 0 (length (active_facets d)))))
         <$> b !! Z.to_nat (bs d * dof + k))
  ∧ (∀ dofs be dof k,
       dof ∉ dofs → block_contribution zero add d dofs be dof k = zero)
  ∧ (∀ order, order ≡ₚ seq 0 (length (active_facets d)) →
       outcome (assemble_vector_in_order zero add dzero radix_sort order c b
                  origin_meshtag kernel coeffs cstride constants) = Ok b').
Proof.
  intros add_assoc add_comm add_zero_r Hpre Hcount Hlocal Hrun.
  rewrite (assemble_vector_in_order_seq _ _ _ _ _ _ _ _ _ _ _ _ _ _ Hpre)
    in Hrun.
  unfold assemble_vector_in_order, vector_buffers in *.
  rewrite Hpre, lift_bind in Hrun. simpl in Hlocal.
  set (coordinate_dofs := replicate _ dzero) in *.
  set (bes := replicate _ (replicate _ zero)) in *.
  apply outcome_bind_Ok in Hrun
    as ([[coordinate_dofs' bes'] b1] & Hloop & [= <-]).
  split_and!.
  - intros dof k Hk Hq.
    by apply (vector_loop_sum zero add radix_sort add_assoc add_comm
                add_zero_r d _ values Hcount Hlocal _
                (coordinate_dofs, bes, b) _ dof k eq_refl Hloop).
  - intros dofs be dof k. by apply block_contribution_zero.
  - intros order Hperm. rewrite Hpre, lift_bind.
    destruct (vector_loop_permutation zero add radix_sort add_assoc add_comm
                add_zero_r d _ values Hcount Hlocal _ order
                (coordinate_dofs, bes, b) _ eq_refl
                (symmetry Hperm) Hloop) as ([[c2 bes2] b2] & Hrun2 & Hb2).
    apply outcome_bind_Ok. eexists. split; [exact Hrun2|].
    simpl in Hb2. by rewrite Hb2.
Qed.

(** The example meets the conditions on the kernel. *)

Lemma example_preamble :
  assembly_preamble example_contact 0 example_kernel [1000; 2000] 1 []
  = Ok (example_env, 3, 2).
Proof. reflexivity. Qed.

Lemma imap_sizes {A} (f : nat → list A → list A) (l : list (list A)) :
  (∀ m x, length (f m x) = length x) →
  length <$> imap f l = length <$> l.
Proof.
  revert f. induction l as [|x l IH]; intros f Hf; [done|].
  simpl. rewrite Hf. f_equal. apply IH. intros m y. apply Hf.
Qed.

Lemma example_kernel_keeps_blocks : kernel_keeps_blocks example_env.
Proof.
  intros a. simpl. unfold example_kernel. apply imap_sizes.
  intros m x. case_decide; [apply length_imap | done].
Qed.

Lemma example_kernel_values :
  kernel_values 0 reference_sort example_env (9%nat, [6; 6; 6]%nat)
    example_values.
Proof.
  intros i coordinate_dofs bes cell linked a [= Hc Hbes] Hargs m Hm.
  destruct bes as [|b0 [|b1 [|b2 [|]]]]; try discriminate Hbes.
  injection Hbes as H0 H1 H2.
  unfold vector_kernel_args in Hargs.
  apply bind_Ok in Hargs as ([cell' local_index] & Hfacet & Hargs).
  apply bind_Ok in Hargs as (x_dofs & _ & Hargs).
  apply bind_Ok in Hargs as (coordinate_dofs' & _ & Hargs).
  apply bind_Ok in Hargs as (candidates & Hcand & Hargs).
  apply bind_Ok in Hargs as (linked' & Hlinked & Hargs).
  apply bind_Ok in Hargs as (bes' & Hzero & [= <- <- <-]).
  destruct i as [|[|i]]; [| |done].
  - injection Hfacet as <- <-. injection Hcand as <-.
    vm_compute in Hlinked. injection Hlinked as <-.
    unfold zero_vector_blocks, fill_zero in Hzero. simpl in Hzero.
    injection Hzero as <-. rewrite H0, H1, H2.
    destruct m as [|[|[|m]]]; [reflexivity..|simpl in Hm; lia].
  - injection Hfacet as <- <-. injection Hcand as <-.
    vm_compute in Hlinked. injection Hlinked as <-.
    unfold zero_vector_blocks, fill_zero in Hzero. simpl in Hzero.
    injection Hzero as <-. rewrite H0.
    destruct m as [|m]; [reflexivity|simpl in Hm; lia].
Qed.

Lemma assemble_vector_sum_any_order_witness :
  (∀ dof k, 0 ≤ k < bs example_env → 0 ≤ bs example_env * dof + k →
     example_b' !! Z.to_nat (bs example_env * dof + k)
     = (λ x, x + sum_list 0 Z.add
                   (facet_contribution 0 Z.add reference_sort example_env
                      example_values dof k
                      <$> seq 0 (length (active_facets example_env))))
         <$> example_b !! Z.to_nat (bs example_env * dof + k))
  ∧ (∀ dofs be dof k,
       dof ∉ dofs → block_contribution 0 Z.add example_env dofs be dof k = 0)
  ∧ (∀ order, order ≡ₚ seq 0 (length (active_facets example_env)) →
       outcome (assemble_vector_in_order 0 Z.add 0 reference_sort order
                  example_contact example_b 0 example_kernel [1000; 2000] 1
                  []) = Ok example_b').
Proof.
  apply (assemble_vector_sum_any_order 0 Z.add 0 reference_sort
           example_contact example_b example_b' 0 example_kernel
           [1000; 2000] 1 [] example_env 3 2 example_values).
  - intros x y z. lia.
  - intros x y. lia.
  - intros x. lia.
  - exact example_preamble.
  - exact example_kernel_keeps_blocks.
  - exact example_kernel_values.
  - reflexivity.
Defined.

(** ** The sparsity pattern *)

Lemma foldM_grows {B T} `{SubsetEq T, !PreOrder (⊆@{T})}
    (body : T → B → result T) (l : list B) (s s' : T) :
  (∀ s x s', body s x = Ok s' → s ⊆ s') →
  foldM body s l = Ok s' → s ⊆ s'.
Proof.
  intros Hbody. revert s. induction l as [|x l IH]; intros s; cbn [foldM].
  - by intros [= <-].
  - intros (s1 & Hs1 & Hl)%bind_Ok. etrans; [by eapply Hbody | by apply IH].
Qed.

(** What the step of a loop leaves stays until the end of the loop when no
    step takes anything away. *)
Lemma foldM_step_grows {B T} `{SubsetEq T, !PreOrder (⊆@{T})}
    (body : T → B → result T) (l : list B) (s s' : T) (x : B) :
  (∀ s x s', body s x = Ok s' → s ⊆ s') →
  x ∈ l → foldM body s l = Ok s' →
  ∃ s1 s2, body s1 x = Ok s2 ∧ s2 ⊆ s'.
Proof.
  intros Hbody Hx. revert s.
  induction l as [|y l IH]; intros s; cbn [foldM]; [by apply elem_of_nil in Hx|].
  intros (s1 & Hs1 & Hl)%bind_Ok. apply elem_of_cons in Hx as [->|Hx].
  - exists s, s1. split; [done|]. by eapply foldM_grows.
  - by eapply IH.
Qed.

Lemma elem_of_pattern_insert (pattern : gset (Z * Z)) (rows cols : list Z)
    (r c : Z) :
  (r, c) ∈ pattern_insert pattern rows cols
  ↔ (r, c) ∈ pattern ∨ (r ∈ rows ∧ c ∈ cols).
Proof.
  unfold pattern_insert. rewrite elem_of_union, elem_of_list_to_set.
  rewrite list_elem_of_bind. split.
  - intros [H|(r' & (c' & H & Hc)%list_elem_of_bind & Hr)]; [by left|].
    apply list_elem_of_singleton in H as [= -> ->]. by right.
  - intros [H|[Hr Hc]]; [by left|]. right. exists r. split; [|done].
    apply list_elem_of_bind. exists c. split; [|done].
    by apply list_elem_of_singleton.
Qed.

Section SparsityPatternFacts.
Variable radix_sort : list Z → list Z.
Variable pattern_assemble : gset (Z * Z) → gset (Z * Z).
Hypothesis radix_sort_sorts : radix_sort_contract radix_sort.
Hypothesis pattern_assemble_keeps : ∀ pattern, pattern ⊆ pattern_assemble pattern.

(** The dofs that the loop over the candidates collects are the dofs of the
    parent cells of the candidates. *)
Lemma collect_linked_dofs_Ok (dofmap : DofMap) (facet_map : AdjacencyList)
    (parent_cells : list Z) (candidates linked_dofs : list Z) :
  collect_linked_dofs dofmap facet_map parent_cells candidates
    = Ok linked_dofs →
  (∀ x, x ∈ linked_dofs →
     ∃ cell dofs, cell_dofs dofmap cell = Ok dofs ∧ x ∈ dofs)
  ∧ ∀ facet cell dofs,
      facet ∈ candidates →
      parent_of_facet facet_map parent_cells facet = Ok cell →
      cell_dofs dofmap cell = Ok dofs →
      dofs ⊆ linked_dofs.
Proof.
  unfold collect_linked_dofs.
  assert (∀ acc,
    (∀ x, x ∈ acc → ∃ cell dofs, cell_dofs dofmap cell = Ok dofs ∧ x ∈ dofs) →
    foldM (λ linked_dofs link,
             facet_pair ← links facet_map link;
             linked_sub_cell ← at_nat facet_pair 0;
             linked_cell ← at_Z parent_cells linked_sub_cell;
             linked_cell_dofs ← cell_dofs dofmap linked_cell;
             mret (linked_dofs ++ linked_cell_dofs)) acc candidates
      = Ok linked_dofs →
    acc ⊆ linked_dofs
    ∧ (∀ x, x ∈ linked_dofs →
         ∃ cell dofs, cell_dofs dofmap cell = Ok dofs ∧ x ∈ dofs)
    ∧ ∀ facet cell dofs,
        facet ∈ candidates →
        parent_of_facet facet_map parent_cells facet = Ok cell →
        cell_dofs dofmap cell = Ok dofs →
        dofs ⊆ linked_dofs) as Hgen.
  { induction candidates as [|link candidates IH]; intros acc Hacc;
      cbn [foldM].
    - intros [= <-]. split_and!; [done|done|].
      intros facet cell dofs Hin. by apply elem_of_nil in Hin.
    - intros (acc1 & Hstep & Hrest)%bind_Ok.
      apply bind_Ok in Hstep as (pair & Hpair & Hstep).
      apply bind_Ok in Hstep as (sub_cell & Hsub%at_nat_Ok & Hstep).
      apply bind_Ok in Hstep as (linked_cell & Hcell & Hstep).
      apply bind_Ok in Hstep as (cell_dofs' & Hdofs & [= <-]).
      destruct (IH (acc ++ cell_dofs')) as (Hsub1 & Hmem & Hall); [|done|].
      { intros x [Hx|Hx]%elem_of_app; [by apply Hacc | eauto]. }
      split_and!; [set_solver | done |].
      intros facet cell dofs [->|Hin]%elem_of_cons Hparent Hcd.
      + apply parent_of_facet_Ok in Hparent
          as (sub_cell' & local_facet & Hpair' & Hcell').
        rewrite Hpair in Hpair'. injection Hpair' as ->.
        injection Hsub as <-.
        rewrite Hcell in Hcell'. injection Hcell' as <-.
        rewrite Hdofs in Hcd. injection Hcd as <-. set_solver.
      + by eapply Hall. }
  intros H. destruct (Hgen [] (λ x Hx, False_ind _ (not_elem_of_nil x Hx)) H)
    as (_ & Hmem & Hall).
  by split.
Qed.

Lemma pattern_facet_grows {double : Type} (c : Contact double)
    (dofmap : DofMap) (s : Z) (sub : SubMesh) (pairs : list (Z * Z))
    (pattern pattern' : gset (Z * Z)) (i : nat) :
  pattern_facet radix_sort c dofmap s sub pairs pattern i = Ok pattern' →
  pattern ⊆ pattern'.
Proof.
  unfold pattern_facet. intros H.
  apply bind_Ok in H as ([cell local_index] & _ & H). inv_Ok H.
  injection H as <-. unfold pattern_insert. set_solver.
Qed.

Lemma pattern_surface_grows {double : Type} (c : Contact double)
    (dofmap : DofMap) (pattern pattern' : gset (Z * Z)) (s : Z) :
  pattern_surface radix_sort c dofmap pattern s = Ok pattern' →
  pattern ⊆ pattern'.
Proof.
  unfold pattern_surface. intros H. inv_Ok H.
  eapply foldM_grows; [|done]. intros p i p'. apply pattern_facet_grows.
Qed.

(** C4. For every facet of either surface and every cell in its set of
    linked cells, the pattern that [create_petsc_matrix] builds has the
    entries (dof of the cell of the facet, dof of the linked cell) and
    (dof of the linked cell, dof of the cell of the facet). *)
Theorem create_petsc_matrix_couples_both_ways {double : Type}
    (c : Contact double) (base_pattern pattern : gset (Z * Z))
    (dofmap : DofMap) (s opposite : Z) (sub : SubMesh) (pairs : list (Z * Z))
    (map : AdjacencyList) (i : nat) (cell local_index linked_cell : Z)
    (candidates linked_cells dofs_cell dofs_linked : list Z) (row col : Z) :
  Forall (Forall is_index) (dofmap_cells dofmap) →
  Forall is_index (parent_cells sub) →
  s = 0 ∨ s = 1 →
  get2 (_opposites c) s = Ok opposite →
  get2 (_submeshes c) opposite = Ok sub →
  get2 (_cell_facet_pairs c) s = Ok pairs →
  get2 (_facet_maps c) s = Ok map →
  pairs !! i = Some (cell, local_index) →
  links map (Z.of_nat i) = Ok candidates →
  compute_linked_cells radix_sort candidates (facet_map sub)
    (parent_cells sub) = Ok linked_cells →
  linked_cell ∈ linked_cells →
  cell_dofs dofmap cell = Ok dofs_cell →
  cell_dofs dofmap linked_cell = Ok dofs_linked →
  row ∈ dofs_cell → col ∈ dofs_linked →
  create_petsc_matrix radix_sort pattern_assemble c base_pattern dofmap
    = Ok pattern →
  (row, col) ∈ pattern ∧ (col, row) ∈ pattern.
Proof.
  intros Hdofs_index Hcells_index Hs Hopp Hsub Hpairs Hmap Hfacet Hcand
    Hlinked Hlc Hdc Hdl Hrow Hcol Hcreate.
  unfold create_petsc_matrix in Hcreate.
  apply bind_Ok in Hcreate as (pattern1 & Hloop & [= <-]).
  assert (∃ p1 p2, pattern_surface radix_sort c dofmap p1 s = Ok p2
                   ∧ p2 ⊆ pattern1) as (p1 & p2 & Hsurface & Hp2).
  { apply (foldM_step_grows (pattern_surface radix_sort c dofmap) [0; 1]
             base_pattern pattern1 s); [ | |done].
    - intros p s' p'. apply pattern_surface_grows.
    - destruct Hs as [-> | ->]; set_solver. }
  unfold pattern_surface in Hsurface. rewrite Hopp in Hsurface. simpl in Hsurface.
  rewrite Hsub in Hsurface. simpl in Hsurface.
  rewrite Hpairs in Hsurface. simpl in Hsurface.
  assert (∃ p3 p4, pattern_facet radix_sort c dofmap s sub pairs p3 i = Ok p4
                   ∧ p4 ⊆ p2) as (p3 & p4 & Hstep & Hp4).
  { apply (foldM_step_grows (pattern_facet radix_sort c dofmap s sub pairs)
             (seq 0 (length pairs)) p1 p2 i); [ | |done].
    - intros p j p'. apply pattern_facet_grows.
    - apply elem_of_seq. apply lookup_lt_Some in Hfacet. lia. }
  assert (∀ rc, rc ∈ p4 → rc ∈ pattern_assemble pattern1) as Hkeep.
  { intros rc Hrc. apply pattern_assemble_keeps, Hp2, Hp4, Hrc. }
  unfold pattern_facet in Hstep.
  rewrite (proj2 (at_nat_Ok _ _ _) Hfacet) in Hstep. simpl in Hstep.
  rewrite Hdc in Hstep. simpl in Hstep. rewrite Hmap in Hstep. simpl in Hstep.
  rewrite Hcand in Hstep. simpl in Hstep.
  apply bind_Ok in Hstep as (linked_dofs & Hcollect & [= <-]).
  apply collect_linked_dofs_Ok in Hcollect as [Hmem Hall].
  (* the linked cell is the parent cell of a candidate *)
  apply compute_linked_cells_Ok in Hlinked as (cells & Hcells & ->).
  assert (Forall is_index cells) as Hcells_idx.
  { apply Forall_forall. intros x Hx.
    apply list_elem_of_lookup in Hx as [j Hj].
    destruct (Forall2_lookup_r _ _ _ _ _ Hcells Hj) as (f & _ & Hf).
    apply parent_of_facet_Ok in Hf as (sc & lf & _ & [_ Hx]%at_Z_Ok).
    rewrite Forall_forall in Hcells_index. apply Hcells_index.
    by eapply list_elem_of_lookup_2. }
  destruct (radix_sort_sorts cells Hcells_idx) as [_ Hperm].
  rewrite elem_of_unique, Hperm in Hlc.
  apply list_elem_of_lookup in Hlc as [j Hj].
  destruct (Forall2_lookup_r _ _ _ _ _ Hcells Hj) as (f & Hf & Hparent).
  assert (dofs_linked ⊆ linked_dofs) as Hincl
    by (eapply Hall; [by eapply list_elem_of_lookup_2 | done | done]).
  (* its dofs survive the sort and the removal of duplicates *)
  assert (Forall is_index linked_dofs) as Hld_idx.
  { apply Forall_forall. intros x (cell' & dofs' & Hcd & Hx)%Hmem.
    unfold cell_dofs, links in Hcd. apply at_Z_Ok in Hcd as [_ Hcd].
    rewrite Forall_forall in Hdofs_index.
    specialize (Hdofs_index dofs' (list_elem_of_lookup_2 _ _ _ Hcd)).
    rewrite Forall_forall in Hdofs_index. by apply Hdofs_index. }
  destruct (radix_sort_sorts linked_dofs Hld_idx) as [_ Hperm'].
  assert (col ∈ unique (radix_sort linked_dofs)) as Hcol'.
  { rewrite elem_of_unique, Hperm'. by apply Hincl. }
  split; apply Hkeep.
  - apply elem_of_pattern_insert. left. apply elem_of_pattern_insert. by right.
  - apply elem_of_pattern_insert. by right.
Qed.

End SparsityPatternFacts.

Lemma create_petsc_matrix_couples_both_ways_witness :
  ∃ pattern,
    create_petsc_matrix reference_sort id example_contact ∅ example_dofmap
      = Ok pattern
    ∧ (0, 5) ∈ pattern ∧ (5, 0) ∈ pattern.
Proof.
  destruct (create_petsc_matrix reference_sort id example_contact ∅
              example_dofmap) as [pattern|e] eqn:Hcreate.
  - exists pattern. split; [done|].
    apply (create_petsc_matrix_couples_both_ways reference_sort id
             reference_sort_contract (λ p, reflexivity p) example_contact ∅
             pattern example_dofmap 0 1
             {| facet_map := [[0; 0]; [1; 1]]; parent_cells := [2; 3] |}
             [(0, 1); (1, 2)] [[1; 0; 1]; []] 0 0 1 3 [1; 0; 1] [2; 3]
             [0; 1; 2] [2; 4; 5] 0 5);
      try reflexivity; try exact Hcreate.
    + by apply (bool_decide_unpack _).
    + by apply (bool_decide_unpack _).
    + by left.
    + set_solver.
    + set_solver.
    + set_solver.
  - vm_compute in Hcreate. discriminate Hcreate.
Defined.

(** * Properties of the loops, the pattern and the buffers *)

(** ** Linked cells: further properties *)

Lemma unique_from_length (x : Z) (l : list Z) :
  (length (unique_from x l) ≤ length l)%nat.
Proof.
  revert x. induction l as [|y l IH]; intros x; simpl; [done|].
  case_decide; [specialize (IH x) | specialize (IH y); simpl]; lia.
Qed.

Lemma unique_length (l : list Z) : (length (unique l) ≤ length l)%nat.
Proof.
  destruct l as [|x l]; simpl; [done|]. pose proof (unique_from_length x l). lia.
Qed.

(** The parent cells of candidates are entries of [parent_cells]. *)
Lemma parent_of_facet_elem_of sub_to_parent parent_cells facet cell :
  parent_of_facet sub_to_parent parent_cells facet = Ok cell →
  cell ∈ parent_cells.
Proof.
  intros (sc & lf & _ & [_ Hcell]%at_Z_Ok)%parent_of_facet_Ok.
  by eapply list_elem_of_lookup_2.
Qed.

(** What a completed call returns, given the contract of the sort. *)
Lemma compute_linked_cells_sorted_members (radix_sort : list Z → list Z)
    submesh_facets sub_to_parent parent_cells linked_cells :
  radix_sort_contract radix_sort →
  Forall is_index parent_cells →
  compute_linked_cells radix_sort submesh_facets sub_to_parent parent_cells
    = Ok linked_cells →
  StronglySorted Z.lt linked_cells
  ∧ (length linked_cells ≤ length submesh_facets)%nat
  ∧ ∀ cell, cell ∈ linked_cells ↔
      ∃ facet, facet ∈ submesh_facets
        ∧ parent_of_facet sub_to_parent parent_cells facet = Ok cell.
Proof.
  intros Hsort Hindex (cells & Hcells & ->)%compute_linked_cells_Ok.
  assert (Forall is_index cells) as Hcells_index.
  { apply Forall_forall. intros x Hx.
    apply list_elem_of_lookup in Hx as [j Hj].
    destruct (Forall2_lookup_r _ _ _ _ _ Hcells Hj) as (f & _ & Hf).
    rewrite Forall_forall in Hindex.
    by eapply Hindex, parent_of_facet_elem_of. }
  destruct (Hsort cells Hcells_index) as [Hsorted Hperm]. split_and!.
  - by apply unique_sorted.
  - etrans; [apply unique_length|].
    by rewrite Hperm, (Forall2_length _ _ _ Hcells).
  - intros cell. rewrite elem_of_unique, Hperm. split.
    + intros Hin. apply list_elem_of_lookup in Hin as [i Hi].
      destruct (Forall2_lookup_r _ _ _ _ _ Hcells Hi) as (f & Hf & Hfc).
      exists f. split; [|done]. by eapply list_elem_of_lookup_2.
    + intros (f & Hin & Hfc). apply list_elem_of_lookup in Hin as [i Hi].
      destruct (Forall2_lookup_l _ _ _ _ _ Hcells Hi) as (c & Hc & Hfc').
      rewrite Hfc in Hfc'. injection Hfc' as ->.
      by eapply list_elem_of_lookup_2.
Qed.

(** X1. The result of [compute_linked_cells] depends on the set of parent
    cells of the candidates only: two candidate sequences with the same
    parent cells, in any order and with any repetitions, give the same
    sequence of linked cells. *)
Theorem compute_linked_cells_candidate_set
    (radix_sort : list Z → list Z) (facets1 facets2 : list Z)
    (sub_to_parent : AdjacencyList) (parent_cells linked1 linked2 : list Z) :
  radix_sort_contract radix_sort →
  Forall is_index parent_cells →
  compute_linked_cells radix_sort facets1 sub_to_parent parent_cells
    = Ok linked1 →
  compute_linked_cells radix_sort facets2 sub_to_parent parent_cells
    = Ok linked2 →
  (∀ cell,
     (∃ facet, facet ∈ facets1
        ∧ parent_of_facet sub_to_parent parent_cells facet = Ok cell)
     ↔ (∃ facet, facet ∈ facets2
          ∧ parent_of_facet sub_to_parent parent_cells facet = Ok cell)) →
  linked1 = linked2.
Proof.
  intros Hsort Hindex H1 H2 Hsame.
  apply (compute_linked_cells_sorted_members _ _ _ _ _ Hsort Hindex) in H1
    as (Hs1 & _ & Hm1).
  apply (compute_linked_cells_sorted_members _ _ _ _ _ Hsort Hindex) in H2
    as (Hs2 & _ & Hm2).
  apply StronglySorted_lt_ext; [done..|].
  intros cell. by rewrite Hm1, Hm2.
Qed.

Lemma compute_linked_cells_candidate_set_witness :
  compute_linked_cells reference_sort [1; 0; 1] [[0; 0]; [1; 1]; [0; 1]]
    [2; 3] = Ok [2; 3]
  ∧ compute_linked_cells reference_sort [2; 1; 2; 2] [[0; 0]; [1; 1]; [0; 1]]
      [2; 3] = Ok [2; 3].
Proof.
  assert (compute_linked_cells reference_sort [1; 0; 1]
            [[0; 0]; [1; 1]; [0; 1]] [2; 3] = Ok [2; 3]) as H1 by reflexivity.
  split; [exact H1|].
  destruct (compute_linked_cells reference_sort [2; 1; 2; 2]
              [[0; 0]; [1; 1]; [0; 1]] [2; 3]) as [linked2|e] eqn:H2;
    [|vm_compute in H2; discriminate H2].
  f_equal. symmetry.
  apply (compute_linked_cells_candidate_set reference_sort [1; 0; 1]
           [2; 1; 2; 2] [[0; 0]; [1; 1]; [0; 1]] [2; 3] [2; 3] linked2
           reference_sort_contract); [| exact H1 | exact H2 |].
  - by apply (bool_decide_unpack _).
  - intros cell. split; intros (f & Hf & Hp).
    + apply elem_of_cons in Hf as [->|Hf].
      { exists 1. split; [set_solver|done]. }
      apply elem_of_cons in Hf as [->|Hf].
      { exists 2. split; [set_solver|done]. }
      apply elem_of_cons in Hf as [->|Hf]; [|by apply elem_of_nil in Hf].
      exists 1. split; [set_solver|done].
    + apply elem_of_cons in Hf as [->|Hf].
      { exists 0. split; [set_solver|done]. }
      apply elem_of_cons in Hf as [->|Hf].
      { exists 1. split; [set_solver|done]. }
      apply elem_of_cons in Hf as [->|Hf].
      { exists 0. split; [set_solver|done]. }
      apply elem_of_cons in Hf as [->|Hf]; [|by apply elem_of_nil in Hf].
      exists 0. split; [set_solver|done].
Defined.

(** X2. A completed call returns at most as many linked cells as there are
    candidates, and at least one when there is a candidate. *)
Theorem compute_linked_cells_count
    (radix_sort : list Z → list Z) (submesh_facets : list Z)
    (sub_to_parent : AdjacencyList) (parent_cells linked_cells : list Z) :
  radix_sort_contract radix_sort →
  Forall is_index parent_cells →
  compute_linked_cells radix_sort submesh_facets sub_to_parent parent_cells
    = Ok linked_cells →
  (length linked_cells ≤ length submesh_facets)%nat
  ∧ (submesh_facets ≠ [] → linked_cells ≠ []).
Proof.
  intros Hsort Hindex Hrun.
  pose proof Hrun as (cells & Hcells & _)%compute_linked_cells_Ok.
  apply (compute_linked_cells_sorted_members _ _ _ _ _ Hsort Hindex) in Hrun
    as (_ & Hlen & Hmem).
  split; [done|]. intros Hne ->.
  destruct Hcells as [|f c fs cs Hfc _]; [done|].
  assert (c ∈ []) as Hc; [|by apply elem_of_nil in Hc].
  apply Hmem. exists f. split; [left|done].
Qed.

Lemma compute_linked_cells_count_witness :
  (length [2; 3] ≤ length [1; 0; 1])%nat ∧ ([1; 0; 1] ≠ [] → [2; 3] ≠ []).
Proof.
  apply (compute_linked_cells_count reference_sort [1; 0; 1]
           [[0; 0]; [1; 1]] [2; 3] [2; 3] reference_sort_contract).
  - by apply (bool_decide_unpack _).
  - reflexivity.
Defined.

(** X3. Neither the candidate nor the submesh cell it leads to is checked
    against the size of its map: at the first candidate that is not a facet
    of [sub_to_parent], or whose submesh cell has no entry in
    [parent_cells], the call reads out of bounds and its behaviour is
    undefined; what a build does then is not determined. *)
Theorem compute_linked_cells_out_of_range
    (radix_sort : list Z → list Z) (submesh_facets : list Z)
    (sub_to_parent : AdjacencyList) (parent_cells : list Z)
    (before after : list Z) (facet : Z) :
  submesh_facets = before ++ facet :: after →
  Forall (λ f, is_Ok (parent_of_facet sub_to_parent parent_cells f)) before →
  ¬ (0 ≤ facet < Z.of_nat (length sub_to_parent))
  ∨ (∃ sub_cell local_facet,
       links sub_to_parent facet = Ok [sub_cell; local_facet]
       ∧ ¬ (0 ≤ sub_cell < Z.of_nat (length parent_cells))) →
  compute_linked_cells radix_sort submesh_facets sub_to_parent parent_cells
    = Abort UndefinedBehaviour.
Proof.
  intros -> Hbefore Hbad. unfold compute_linked_cells.
  assert (parent_of_facet sub_to_parent parent_cells facet
          = Abort UndefinedBehaviour) as Hfacet.
  { unfold parent_of_facet. destruct Hbad as [Hf|(sc & lf & Hpair & Hsc)].
    - unfold links, at_Z, at_nat. case_decide as Hpos; [|done].
      rewrite lookup_ge_None_2; [done|lia].
    - rewrite Hpair. simpl. unfold at_Z, at_nat. case_decide as Hpos; [|done].
      rewrite lookup_ge_None_2; [done|lia]. }
  assert (mapM (parent_of_facet sub_to_parent parent_cells)
            (before ++ facet :: after) = Abort UndefinedBehaviour) as ->; [|done].
  induction Hbefore as [|f fs [c Hc] _ IH]; simpl.
  - by rewrite Hfacet.
  - by rewrite Hc, IH.
Qed.

Lemma compute_linked_cells_out_of_range_witness :
  compute_linked_cells reference_sort [0; 2] [[0; 0]; [1; 1]] [2; 3]
    = Abort UndefinedBehaviour
  ∧ compute_linked_cells reference_sort [0; 1] [[0; 0]; [5; 1]] [2; 3]
    = Abort UndefinedBehaviour.
Proof.
  split.
  - apply (compute_linked_cells_out_of_range reference_sort [0; 2]
             [[0; 0]; [1; 1]] [2; 3] [0] [] 2); [reflexivity| |].
    + repeat constructor. by eexists.
    + left. simpl. lia.
  - apply (compute_linked_cells_out_of_range reference_sort [0; 1]
             [[0; 0]; [5; 1]] [2; 3] [0] [] 1); [reflexivity| |].
    + repeat constructor. by eexists.
    + right. exists 5, 1. split; [reflexivity | simpl; lia].
Defined.

(** X4. Whatever the sizes are, [coefficients_size] returns the size of
    the layout reduced modulo [2^64]: the [std::size_t] arithmetic wraps
    around without a check, and the result is a [std::size_t] value. *)
Theorem coefficients_size_wraps {double : Type} (c : Contact double)
    (mesh : Geometry double) (dofs0 : list Z) (qp0 : list (list double)) :
  marker_mesh c = Some mesh →
  cell_dofs (V_dofmap c) 0 = Ok dofs0 →
  _qp_ref_facet c !! 0%nat = Some qp0 →
  ∃ size,
    coefficients_size c = Ok size
    ∧ size = layout_size_formula (Z.of_nat (length qp0)) (geometry_dim mesh)
               (Z.of_nat (length dofs0)) (dofmap_bs (V_dofmap c))
               (Z.max (_max_links c).1 (_max_links c).2) mod 2 ^ 64
    ∧ 0 ≤ size < 2 ^ 64.
Proof.
  intros Hmesh Hdofs Hqp. eexists. split; [|split; [reflexivity|]].
  - unfold coefficients_size. rewrite Hmesh. simpl. rewrite Hdofs. simpl.
    unfold at_nat. rewrite Hqp. simpl. f_equal.
    rewrite coefficients_size_expr_wrap_args.
    apply coefficients_size_expr_mod.
  - apply Z.mod_pos_bound. lia.
Qed.

Lemma coefficients_size_wraps_witness :
  coefficients_size overflow_contact = Ok 33
  ∧ 2 ^ 64 < layout_size_formula 4 2 3 2 (2 ^ 62).
Proof.
  destruct (coefficients_size_wraps overflow_contact example_geometry
              [0; 1; 2] [[1]; [2]; [3]; [4]] eq_refl eq_refl eq_refl)
    as (size & Hsize & -> & _).
  split; [exact Hsize | reflexivity].
Defined.

(** ** The sparsity pattern: what is inserted *)

(** A loop keeps what every step keeps. *)
Lemma foldM_invariant {S B} (Inv : S → Prop) (body : S → B → result S)
    (l : list B) (s s' : S) :
  (∀ s x s', x ∈ l → Inv s → body s x = Ok s' → Inv s') →
  Inv s → foldM body s l = Ok s' → Inv s'.
Proof.
  revert s. induction l as [|x l IH]; intros s Hbody Hs; cbn [foldM].
  - by intros [= <-].
  - intros (s1 & Hs1 & Hl)%bind_Ok. apply (IH s1); [| |done].
    + intros s2 y s3 Hy. apply Hbody. by right.
    + eapply Hbody; [left|done..].
Qed.

(** Every dof that the loop over the candidates collects is a dof of the
    parent cell of a candidate. *)
Lemma collect_linked_dofs_elem_of (dofmap : DofMap) (facet_map : AdjacencyList)
    (parent_cells : list Z) (candidates linked_dofs : list Z) (x : Z) :
  collect_linked_dofs dofmap facet_map parent_cells candidates
    = Ok linked_dofs →
  x ∈ linked_dofs →
  ∃ link facet_pair linked_sub_cell linked_cell dofs,
    link ∈ candidates
    ∧ links facet_map link = Ok facet_pair
    ∧ facet_pair !! 0%nat = Some linked_sub_cell
    ∧ at_Z parent_cells linked_sub_cell = Ok linked_cell
    ∧ cell_dofs dofmap linked_cell = Ok dofs
    ∧ x ∈ dofs.
Proof.
  unfold collect_linked_dofs. intros Hrun.
  pose (P := λ y : Z,
          ∃ link facet_pair linked_sub_cell linked_cell dofs,
            link ∈ candidates
            ∧ links facet_map link = Ok facet_pair
            ∧ facet_pair !! 0%nat = Some linked_sub_cell
            ∧ at_Z parent_cells linked_sub_cell = Ok linked_cell
            ∧ cell_dofs dofmap linked_cell = Ok dofs
            ∧ y ∈ dofs).
  assert (∀ y, y ∈ linked_dofs → P y) as HP; [|apply HP].
  eapply (foldM_invariant (λ acc, ∀ y, y ∈ acc → P y)); [| |exact Hrun].
  - intros acc link acc' Hlink Hacc Hstep.
    apply bind_Ok in Hstep as (pair & Hpair & Hstep).
    apply bind_Ok in Hstep as (sub_cell & Hsub%at_nat_Ok & Hstep).
    apply bind_Ok in Hstep as (linked_cell & Hcell & Hstep).
    apply bind_Ok in Hstep as (dofs & Hdofs & [= <-]).
    intros y [Hy|Hy]%elem_of_app; [by apply Hacc|].
    by exists link, pair, sub_cell, linked_cell, dofs.
  - intros y Hy. by apply elem_of_nil in Hy.
Qed.

Section SparsityPatternInsertions.
Context {double : Type}.
Variable radix_sort : list Z → list Z.
Variable pattern_assemble : gset (Z * Z) → gset (Z * Z).

(** X5. [create_petsc_matrix] takes no entry away: the pattern it returns
    has every entry of the pattern of the form, when [pattern.assemble()]
    keeps the entries it is given. *)
Theorem create_petsc_matrix_keeps_form_pattern (c : Contact double)
    (base_pattern pattern : gset (Z * Z)) (dofmap : DofMap) :
  (∀ p, p ⊆ pattern_assemble p) →
  create_petsc_matrix radix_sort pattern_assemble c base_pattern dofmap
    = Ok pattern →
  base_pattern ⊆ pattern.
Proof.
  intros Hkeep (inserted & Hloop & [= <-])%bind_Ok.
  etrans; [|apply Hkeep].
  eapply (foldM_invariant (λ p, base_pattern ⊆ p)); [| |exact Hloop]; [|done].
  intros p s p' _ Hp Hsurface. unfold pattern_surface in Hsurface.
  apply bind_Ok in Hsurface as (opposite & _ & Hsurface).
  apply bind_Ok in Hsurface as (sub & _ & Hsurface).
  apply bind_Ok in Hsurface as (pairs & _ & Hsurface).
  eapply (foldM_invariant (λ p, base_pattern ⊆ p)); [| |exact Hsurface];
    [|done].
  intros p1 i p2 _ Hp1 Hfacet. unfold pattern_facet in Hfacet.
  apply bind_Ok in Hfacet as ([cell local_index] & _ & Hfacet).
  inv_Ok Hfacet. injection Hfacet as <-.
  unfold pattern_insert. set_solver.
Qed.

(** X6. Whatever the sort does, the entries are inserted in transposed
    pairs: every entry of the pattern handed to [pattern.assemble()] is an
    entry of the pattern of the form or has its transpose in the pattern
    too. *)
Theorem create_petsc_matrix_inserts_transposed_pairs (c : Contact double)
    (base_pattern pattern : gset (Z * Z)) (dofmap : DofMap) :
  create_petsc_matrix radix_sort pattern_assemble c base_pattern dofmap
    = Ok pattern →
  ∃ inserted,
    pattern = pattern_assemble inserted
    ∧ ∀ row col, (row, col) ∈ inserted →
        (row, col) ∈ base_pattern ∨ (col, row) ∈ inserted.
Proof.
  intros (inserted & Hloop & [= <-])%bind_Ok. exists inserted. split; [done|].
  pose (Inv := λ p : gset (Z * Z),
          ∀ row col, (row, col) ∈ p → (row, col) ∈ base_pattern ∨ (col, row) ∈ p).
  change (Inv inserted).
  eapply (foldM_invariant Inv); [| |exact Hloop]; [|by left].
  intros p s p' _ Hp Hsurface. unfold pattern_surface in Hsurface.
  apply bind_Ok in Hsurface as (opposite & _ & Hsurface).
  apply bind_Ok in Hsurface as (sub & _ & Hsurface).
  apply bind_Ok in Hsurface as (pairs & _ & Hsurface).
  eapply (foldM_invariant Inv); [| |exact Hsurface]; [|done].
  intros p1 i p2 _ Hp1 Hfacet. unfold pattern_facet in Hfacet.
  apply bind_Ok in Hfacet as ([cell local_index] & _ & Hfacet).
  inv_Ok Hfacet. injection Hfacet as <-.
  intros row col Hin. rewrite !elem_of_pattern_insert in Hin.
  rewrite !elem_of_pattern_insert.
  destruct Hin as [[Hin|[Hr Hc]]|[Hr Hc]].
  - destruct (Hp1 row col Hin) as [?|?]; [by left | right; by left; left].
  - right. by right.
  - right. left. by right.
Qed.

(** X7. Given the contract of the sort, nothing but couplings across the
    contact is inserted: every entry of the pattern handed to
    [pattern.assemble()] is an entry of the pattern of the form, or couples
    a dof of the cell of a facet with a dof of the parent cell of one of
    the candidates of that facet, in one direction or the other. *)
Theorem create_petsc_matrix_inserts_couplings_only (c : Contact double)
    (base_pattern pattern : gset (Z * Z)) (dofmap : DofMap) :
  radix_sort_contract radix_sort →
  Forall (Forall is_index) (dofmap_cells dofmap) →
  create_petsc_matrix radix_sort pattern_assemble c base_pattern dofmap
    = Ok pattern →
  ∃ inserted,
    pattern = pattern_assemble inserted
    ∧ ∀ row col, (row, col) ∈ inserted →
        (row, col) ∈ base_pattern
        ∨ contact_coupling c dofmap row col
        ∨ contact_coupling c dofmap col row.
Proof.
  intros Hsort Hindex (inserted & Hloop & [= <-])%bind_Ok.
  exists inserted. split; [done|].
  pose (Inv := λ p : gset (Z * Z),
          ∀ row col, (row, col) ∈ p →
            (row, col) ∈ base_pattern
            ∨ contact_coupling c dofmap row col
            ∨ contact_coupling c dofmap col row).
  change (Inv inserted).
  eapply (foldM_invariant Inv); [| |exact Hloop]; [|by left].
  intros p s p' _ Hp Hsurface. unfold pattern_surface in Hsurface.
  apply bind_Ok in Hsurface as (opposite & Hopp & Hsurface).
  apply bind_Ok in Hsurface as (sub & Hsub & Hsurface).
  apply bind_Ok in Hsurface as (pairs & Hpairs & Hsurface).
  eapply (foldM_invariant Inv); [| |exact Hsurface]; [|done].
  intros p1 i p2 _ Hp1 Hfacet. unfold pattern_facet in Hfacet.
  apply bind_Ok in Hfacet as ([cell local_index] & Hcell%at_nat_Ok & Hfacet).
  apply bind_Ok in Hfacet as (dofs_cell & Hdofs & Hfacet).
  apply bind_Ok in Hfacet as (map & Hmap & Hfacet).
  apply bind_Ok in Hfacet as (candidates & Hcand & Hfacet).
  apply bind_Ok in Hfacet as (linked_dofs & Hcollect & [= <-]).
  assert (∀ x, x ∈ unique (radix_sort linked_dofs) →
            ∃ linked_cell dofs_linked,
              pattern_link c s i cell linked_cell
              ∧ cell_dofs dofmap linked_cell = Ok dofs_linked
              ∧ x ∈ dofs_linked) as Hlinked.
  { assert (Forall is_index linked_dofs) as Hld.
    { apply Forall_forall. intros x Hx.
      destruct (collect_linked_dofs_elem_of _ _ _ _ _ _ Hcollect Hx)
        as (_ & _ & _ & lc & dofs & _ & _ & _ & _ & Hcd & Hxd).
      unfold cell_dofs, links in Hcd. apply at_Z_Ok in Hcd as [_ Hcd].
      rewrite Forall_forall in Hindex.
      specialize (Hindex dofs (list_elem_of_lookup_2 _ _ _ Hcd)).
      rewrite Forall_forall in Hindex. by apply Hindex. }
    destruct (Hsort linked_dofs Hld) as [_ Hperm].
    intros x Hx. rewrite elem_of_unique, Hperm in Hx.
    destruct (collect_linked_dofs_elem_of _ _ _ _ _ _ Hcollect Hx)
      as (link & pair & sc & lc & dofs & Hlink & Hpair & Hsc & Hlc & Hcd & Hxd).
    exists lc, dofs. split; [|done].
    by exists opposite, sub, pairs, map, local_index, candidates, link, pair, sc. }
  intros row col Hin. rewrite !elem_of_pattern_insert in Hin.
  destruct Hin as [[Hin|[Hr Hc]]|[Hr Hc]].
  - by apply Hp1.
  - destruct (Hlinked col Hc) as (lc & dofs & Hlink & Hcd & Hxd).
    right. left. by exists s, i, cell, lc, dofs_cell, dofs.
  - destruct (Hlinked row Hr) as (lc & dofs & Hlink & Hcd & Hxd).
    right. right. by exists s, i, cell, lc, dofs_cell, dofs.
Qed.

(** X8. When no facet of either surface has a candidate on the other side,
    nothing is inserted: the pattern is the pattern of the form, handed to
    [pattern.assemble()]. *)
Theorem create_petsc_matrix_without_candidates (c : Contact double)
    (base_pattern pattern : gset (Z * Z)) (dofmap : DofMap) :
  radix_sort_contract radix_sort →
  Forall (λ candidates, candidates = []) (_facet_maps c).1 →
  Forall (λ candidates, candidates = []) (_facet_maps c).2 →
  create_petsc_matrix radix_sort pattern_assemble c base_pattern dofmap
    = Ok pattern →
  pattern = pattern_assemble base_pattern.
Proof.
  intros Hsort Hno1 Hno2 (inserted & Hloop & [= <-])%bind_Ok. f_equal.
  assert (radix_sort [] = []) as Hnil.
  { destruct (Hsort [] (Forall_nil_2 _)) as [_ Hperm].
    by apply Permutation_nil_r. }
  eapply (foldM_invariant (λ p, p = base_pattern)); [| |exact Hloop]; [|done].
  intros p s p' _ -> Hsurface. unfold pattern_surface in Hsurface.
  apply bind_Ok in Hsurface as (opposite & _ & Hsurface).
  apply bind_Ok in Hsurface as (sub & _ & Hsurface).
  apply bind_Ok in Hsurface as (pairs & _ & Hsurface).
  eapply (foldM_invariant (λ p, p = base_pattern)); [| |exact Hsurface];
    [|done].
  intros p1 i p2 _ -> Hfacet. unfold pattern_facet in Hfacet.
  apply bind_Ok in Hfacet as ([cell local_index] & _ & Hfacet).
  apply bind_Ok in Hfacet as (dofs_cell & _ & Hfacet).
  apply bind_Ok in Hfacet as (map & Hmap & Hfacet).
  apply bind_Ok in Hfacet as (candidates & Hcand & Hfacet).
  apply bind_Ok in Hfacet as (linked_dofs & Hcollect & [= <-]).
  assert (candidates = []) as ->.
  { assert (Forall (λ candidates, candidates = []) map) as Hmap'.
    { unfold get2 in Hmap. repeat case_decide; by simplify_eq. }
    unfold links in Hcand. apply at_Z_Ok in Hcand as [_ Hcand].
    rewrite Forall_forall in Hmap'.
    by eapply Hmap', list_elem_of_lookup_2. }
  injection Hcollect as <-. rewrite Hnil. simpl.
  apply set_eq. intros [row col]. rewrite !elem_of_pattern_insert.
  split; [|by left; left].
  intros [[?|[_ Hc]]|[Hr _]]; [done|by apply elem_of_nil in Hc
                                |by apply elem_of_nil in Hr].
Qed.

End SparsityPatternInsertions.

Lemma create_petsc_matrix_keeps_form_pattern_witness :
  ∃ pattern,
    create_petsc_matrix reference_sort id example_contact {[(7, 9)]}
      example_dofmap = Ok pattern
    ∧ {[(7, 9)]} ⊆ pattern.
Proof.
  destruct (create_petsc_matrix reference_sort id example_contact {[(7, 9)]}
              example_dofmap) as [pattern|e] eqn:Hcreate;
    [|vm_compute in Hcreate; discriminate Hcreate].
  exists pattern. split; [done|].
  by apply (create_petsc_matrix_keeps_form_pattern reference_sort id
              example_contact {[(7, 9)]} pattern example_dofmap).
Defined.

Lemma create_petsc_matrix_inserts_transposed_pairs_witness :
  ∃ pattern inserted,
    create_petsc_matrix reference_sort id example_contact {[(7, 9)]}
      example_dofmap = Ok pattern
    ∧ pattern = id inserted
    ∧ ∀ row col, (row, col) ∈ inserted →
        (row, col) ∈ ({[(7, 9)]} : gset (Z * Z)) ∨ (col, row) ∈ inserted.
Proof.
  destruct (create_petsc_matrix reference_sort id example_contact {[(7, 9)]}
              example_dofmap) as [pattern|e] eqn:Hcreate;
    [|vm_compute in Hcreate; discriminate Hcreate].
  destruct (create_petsc_matrix_inserts_transposed_pairs reference_sort id
              example_contact {[(7, 9)]} pattern example_dofmap Hcreate)
    as (inserted & Hp & Hsym).
  by exists pattern, inserted.
Defined.

Lemma create_petsc_matrix_inserts_couplings_only_witness :
  ∃ pattern inserted,
    create_petsc_matrix reference_sort id example_contact {[(7, 9)]}
      example_dofmap = Ok pattern
    ∧ pattern = id inserted
    ∧ ∀ row col, (row, col) ∈ inserted →
        (row, col) ∈ ({[(7, 9)]} : gset (Z * Z))
        ∨ contact_coupling example_contact example_dofmap row col
        ∨ contact_coupling example_contact example_dofmap col row.
Proof.
  destruct (create_petsc_matrix reference_sort id example_contact {[(7, 9)]}
              example_dofmap) as [pattern|e] eqn:Hcreate;
    [|vm_compute in Hcreate; discriminate Hcreate].
  destruct (create_petsc_matrix_inserts_couplings_only reference_sort id
              example_contact {[(7, 9)]} pattern example_dofmap
              reference_sort_contract)
    as (inserted & Hp & Honly); [|exact Hcreate|].
  - by apply (bool_decide_unpack _).
  - by exists pattern, inserted.
Defined.

Lemma create_petsc_matrix_without_candidates_witness :
  create_petsc_matrix reference_sort id example_contact_apart {[(7, 9)]}
    example_dofmap = Ok (id {[(7, 9)]}).
Proof.
  destruct (create_petsc_matrix reference_sort id example_contact_apart
              {[(7, 9)]} example_dofmap) as [pattern|e] eqn:Hcreate;
    [|vm_compute in Hcreate; discriminate Hcreate].
  f_equal.
  apply (create_petsc_matrix_without_candidates reference_sort id
           example_contact_apart {[(7, 9)]} pattern example_dofmap
           reference_sort_contract); [| |exact Hcreate];
    by repeat constructor.
Defined.

(** ** Recorded loops *)

(** A completed loop has recorded what its steps have recorded, step after
    step, and keeps what every completed step keeps. *)
Lemma foldM_trace_concat {E S B} (Inv : S → Prop) (R : B → list E → Prop)
    (body : S → B → traced E S) (l : list B) (s s' : S) :
  (∀ s x s', x ∈ l → Inv s → outcome (body s x) = Ok s' →
     Inv s' ∧ R x (trace (body s x))) →
  Inv s → outcome (foldM body s l) = Ok s' →
  Inv s' ∧ ∃ ts, Forall2 R l ts ∧ trace (foldM body s l) = concat ts.
Proof.
  revert s. induction l as [|x l IH]; intros s Hbody Hs; cbn [foldM].
  - intros [= <-]. split; [done|]. exists []. by split; [constructor|].
  - intros (s1 & Hs1 & Hl)%outcome_bind_Ok.
    destruct (Hbody s x s1 ltac:(left) Hs Hs1) as [Hinv1 Hx].
    destruct (IH s1) as (Hinv' & ts & Hts & Htrace); [|done|done|].
    { intros s2 y s3 Hy. apply Hbody. by right. }
    split; [done|]. exists (trace (body s x) :: ts). split; [by constructor|].
    rewrite trace_bind, Hs1. simpl. by rewrite Htrace.
Qed.

Lemma concat_lookup_uniform {A} (m : nat) (ts : list (list A)) (j r : nat)
    (t : list A) :
  Forall (λ t, length t = m) ts → ts !! j = Some t → (r < m)%nat →
  concat ts !! (m * j + r)%nat = t !! r.
Proof.
  intros Hts. revert j. induction Hts as [|t0 ts Ht0 _ IH]; intros j Hj Hr.
  - done.
  - destruct j as [|j]; simpl in *.
    + injection Hj as ->. rewrite lookup_app_l by lia. f_equal. lia.
    + rewrite lookup_app_r by nia. rewrite <- (IH j Hj Hr). f_equal. nia.
Qed.

Lemma concat_length_uniform {A} (m : nat) (ts : list (list A)) :
  Forall (λ t, length t = m) ts → length (concat ts) = (m * length ts)%nat.
Proof.
  induction 1 as [|t ts Ht _ IH]; simpl; [lia|]. rewrite length_app. lia.
Qed.

Section MatrixFacetFacts.
Context {PetscScalar double : Type}.
Variable zero : PetscScalar.
Variable radix_sort : list Z → list Z.

#[local] Abbreviation env := (assembly_env PetscScalar double).
#[local] Abbreviation blocks := (list (list PetscScalar)).
#[local] Abbreviation ev := (event PetscScalar double).

Lemma matrix_facet_eq (d : env) (coordinate_dofs : list double) (Aes : blocks)
    (i : nat) :
  matrix_facet zero radix_sort d (coordinate_dofs, Aes) i
  = match matrix_kernel_args zero radix_sort d i coordinate_dofs Aes with
    | Ok (cell, linked_cells, a) =>
        Traced
          (KernelCall a :: trace (matrix_scatter d cell linked_cells (kernel d a)))
          (_ ← outcome (matrix_scatter d cell linked_cells (kernel d a));
           mret (k_coordinate_dofs a, kernel d a))
    | Abort e => Traced [] (Abort e)
    end.
Proof.
  unfold matrix_facet, matrix_kernel_args.
  rewrite lift_bind. destruct (at_nat _ i) as [[cell local_index]|]; [|done].
  cbn [mbind result_bind].
  rewrite lift_bind. destruct (links _ cell); [|done].
  cbn [mbind result_bind].
  rewrite lift_bind. destruct (gather_coordinates _ _ _ _); [|done].
  cbn [mbind result_bind].
  rewrite lift_bind. destruct (links _ _); [|done].
  cbn [mbind result_bind].
  rewrite lift_bind. destruct (compute_linked_cells _ _ _ _); [|done].
  cbn [mbind result_bind].
  rewrite lift_bind. destruct (zero_matrix_blocks _ _ _); [|done].
  cbn [mbind result_bind mret result_ret].
  unfold call_kernel. rewrite traced_cons_bind. cbn [k_coordinate_dofs].
  rewrite trace_bind, outcome_bind.
  destruct (outcome (matrix_scatter _ _ _ _)) as [[]|]; simpl; [|done].
  by rewrite app_nil_r.
Qed.

Lemma matrix_kernel_args_Ok (d : env) (i : nat) (coordinate_dofs : list double)
    (Aes : blocks) (cell : Z) (linked_cells : list Z)
    (a : kernel_args PetscScalar double) :
  matrix_kernel_args zero radix_sort d i coordinate_dofs Aes
    = Ok (cell, linked_cells, a) →
  kernel_call_of_facet radix_sort d i a
  ∧ facet_cells radix_sort d i cell linked_cells
  ∧ zero_matrix_blocks zero Aes (length linked_cells) = Ok (k_blocks a)
  ∧ k_num_linked_cells a = length linked_cells.
Proof.
  unfold matrix_kernel_args. intros H.
  apply bind_Ok in H as ([cell' local_index] & Hfacet%at_nat_Ok & H).
  apply bind_Ok in H as (x_dofs & _ & H).
  apply bind_Ok in H as (coordinate_dofs' & _ & H).
  apply bind_Ok in H as (candidates & Hcand & H).
  apply bind_Ok in H as (linked & Hlinked & H).
  apply bind_Ok in H as (Aes' & Hzero & [= <- <- <-]).
  assert (facet_cells radix_sort d i cell' linked) as Hcells
    by by exists local_index, candidates.
  split_and!; try done. by exists cell', linked.
Qed.

Lemma mat_set_bind {A} (rows cols : list Z) (block : list PetscScalar)
    (f : () → traced ev A) :
  mat_set rows cols block ≫= f
  = Traced (MatSet rows cols block :: trace (f ())) (outcome (f ())).
Proof. reflexivity. Qed.

(** The calls of [mat_set] for the linked cell [j]. *)
Lemma matrix_scatter_linked (d : env) (dmap_cell : list Z)
    (linked_cells : list Z) (Aes : blocks) (j : nat) :
  let step :=
    linked_cell ← lift (at_nat linked_cells j);
    dmap_linked ← lift (cell_dofs (dofmap d) linked_cell);
    A1 ← lift (at_nat Aes (3 * j + 1));
    _ ← mat_set dmap_cell dmap_linked A1;
    A2 ← lift (at_nat Aes (3 * j + 2));
    _ ← mat_set dmap_linked dmap_cell A2;
    A3 ← lift (at_nat Aes (3 * j + 3));
    (mat_set dmap_linked dmap_linked A3 : traced ev unit) in
  outcome step = Ok () →
  ∃ linked_cell dmap_linked A1 A2 A3,
    linked_cells !! j = Some linked_cell
    ∧ cell_dofs (dofmap d) linked_cell = Ok dmap_linked
    ∧ Aes !! (3 * j + 1)%nat = Some A1
    ∧ Aes !! (3 * j + 2)%nat = Some A2
    ∧ Aes !! (3 * j + 3)%nat = Some A3
    ∧ trace step = [MatSet dmap_cell dmap_linked A1;
                    MatSet dmap_linked dmap_cell A2;
                    MatSet dmap_linked dmap_linked A3].
Proof.
  intros step. subst step.
  rewrite lift_bind. destruct (at_nat linked_cells j) as [lc|] eqn:Hlc; [|done].
  rewrite lift_bind. destruct (cell_dofs _ lc) as [dl|] eqn:Hdl; [|done].
  rewrite lift_bind. destruct (at_nat Aes (3 * j + 1)) as [A1|] eqn:H1; [|done].
  rewrite mat_set_bind. cbn [outcome trace].
  rewrite lift_bind. destruct (at_nat Aes (3 * j + 2)) as [A2|] eqn:H2; [|done].
  rewrite mat_set_bind. cbn [outcome trace].
  rewrite lift_bind. destruct (at_nat Aes (3 * j + 3)) as [A3|] eqn:H3; [|done].
  intros _. exists lc, dl, A1, A2, A3.
  apply at_nat_Ok in Hlc, H1, H2, H3. by split_and!.
Qed.

(** The calls of [mat_set] of a completed scatter: block 0 for the cell
    with itself, then the three cross blocks of every linked cell. *)
Lemma matrix_scatter_calls (d : env) (cell : Z) (linked_cells : list Z)
    (Aes : blocks) :
  outcome (matrix_scatter d cell linked_cells Aes) = Ok () →
  ∃ dmap_cell A0 calls,
    cell_dofs (dofmap d) cell = Ok dmap_cell
    ∧ Aes !! 0%nat = Some A0
    ∧ trace (matrix_scatter d cell linked_cells Aes)
      = MatSet dmap_cell dmap_cell A0 :: calls
    ∧ length calls = (3 * length linked_cells)%nat
    ∧ ∀ j linked_cell,
        linked_cells !! j = Some linked_cell →
        ∃ dmap_linked A1 A2 A3,
          cell_dofs (dofmap d) linked_cell = Ok dmap_linked
          ∧ Aes !! (3 * j + 1)%nat = Some A1
          ∧ Aes !! (3 * j + 2)%nat = Some A2
          ∧ Aes !! (3 * j + 3)%nat = Some A3
          ∧ calls !! (3 * j)%nat = Some (MatSet dmap_cell dmap_linked A1)
          ∧ calls !! (3 * j + 1)%nat = Some (MatSet dmap_linked dmap_cell A2)
          ∧ calls !! (3 * j + 2)%nat
            = Some (MatSet dmap_linked dmap_linked A3).
Proof.
  unfold matrix_scatter.
  rewrite lift_bind. destruct (cell_dofs _ cell) as [dc|] eqn:Hdc; [|done].
  rewrite lift_bind. destruct (at_nat Aes 0) as [A0|] eqn:HA0; [|done].
  rewrite mat_set_bind. cbn [outcome trace]. intros Hloop.
  pose (R := λ (j : nat) (t : list ev),
          ∃ linked_cell dmap_linked A1 A2 A3,
            linked_cells !! j = Some linked_cell
            ∧ cell_dofs (dofmap d) linked_cell = Ok dmap_linked
            ∧ Aes !! (3 * j + 1)%nat = Some A1
            ∧ Aes !! (3 * j + 2)%nat = Some A2
            ∧ Aes !! (3 * j + 3)%nat = Some A3
            ∧ t = [MatSet dc dmap_linked A1; MatSet dmap_linked dc A2;
                   MatSet dmap_linked dmap_linked A3]).
  eapply (foldM_trace_concat (λ _, True) R) in Hloop; [| |exact I].
  2:{ intros [] j [] _ _ Hstep. split; [done|].
      by apply (matrix_scatter_linked d dc linked_cells Aes j) in Hstep. }
  destruct Hloop as (_ & ts & Hts & Htrace).
  assert (Forall (λ t, length t = 3%nat) ts) as Hlen.
  { clear -Hts. induction Hts as [|j t js ts (?&?&?&?&?&?&?&?&?&?& ->) _ IH];
      by constructor. }
  exists dc, A0, (concat ts). apply at_nat_Ok in HA0. split_and!; try done.
  - by rewrite Htrace.
  - rewrite (concat_length_uniform 3 ts Hlen).
    by rewrite <- (Forall2_length _ _ _ Hts), length_seq.
  - intros j lc Hlc.
    assert (seq 0 (length linked_cells) !! j = Some j) as Hj
      by (apply lookup_seq; split; [done | by eapply lookup_lt_Some]).
    destruct (Forall2_lookup_l _ _ _ _ _ Hts Hj)
      as (t & Ht & lc' & dl & A1 & A2 & A3 & Hlc' & Hdl & H1 & H2 & H3 & ->).
    rewrite Hlc in Hlc'. injection Hlc' as <-.
    exists dl, A1, A2, A3. split_and!; try done.
    + replace (3 * j)%nat with (3 * j + 0)%nat by lia.
      by rewrite (concat_lookup_uniform 3 ts j 0 _ Hlen Ht) by lia.
    + by rewrite (concat_lookup_uniform 3 ts j 1 _ Hlen Ht) by lia.
    + by rewrite (concat_lookup_uniform 3 ts j 2 _ Hlen Ht) by lia.
Qed.

(** X9. A facet of [assemble_matrix] that completes has called the kernel
    once and then [mat_set] [1 + 3 * n] times for its [n] linked cells:
    first with block 0 for the dofs of its cell as rows and columns, then
    for the linked cell [j] with block [3j + 1] (cell rows, linked
    columns), block [3j + 2] (linked rows, cell columns) and block
    [3j + 3] (linked rows and columns), in this order; the blocks are
    those that the kernel has left. *)
Theorem assemble_matrix_facet_calls (d : env) (coordinate_dofs : list double)
    (Aes : blocks) (i : nat) (st' : list double * blocks) :
  outcome (matrix_facet zero radix_sort d (coordinate_dofs, Aes) i) = Ok st' →
  ∃ cell linked_cells a dmap_cell A0 calls,
    matrix_kernel_args zero radix_sort d i coordinate_dofs Aes
      = Ok (cell, linked_cells, a)
    ∧ st' = (k_coordinate_dofs a, kernel d a)
    ∧ cell_dofs (dofmap d) cell = Ok dmap_cell
    ∧ kernel d a !! 0%nat = Some A0
    ∧ trace (matrix_facet zero radix_sort d (coordinate_dofs, Aes) i)
      = KernelCall a :: MatSet dmap_cell dmap_cell A0 :: calls
    ∧ length calls = (3 * length linked_cells)%nat
    ∧ ∀ j linked_cell,
        linked_cells !! j = Some linked_cell →
        ∃ dmap_linked A1 A2 A3,
          cell_dofs (dofmap d) linked_cell = Ok dmap_linked
          ∧ kernel d a !! (3 * j + 1)%nat = Some A1
          ∧ kernel d a !! (3 * j + 2)%nat = Some A2
          ∧ kernel d a !! (3 * j + 3)%nat = Some A3
          ∧ calls !! (3 * j)%nat = Some (MatSet dmap_cell dmap_linked A1)
          ∧ calls !! (3 * j + 1)%nat = Some (MatSet dmap_linked dmap_cell A2)
          ∧ calls !! (3 * j + 2)%nat
            = Some (MatSet dmap_linked dmap_linked A3).
Proof.
  rewrite matrix_facet_eq.
  destruct (matrix_kernel_args _ _ _ _ _ _) as [[[cell linked] a]|] eqn:Hargs;
    [|done].
  cbn [outcome trace]. intros (u & Hscatter & [= <-])%bind_Ok. destruct u.
  destruct (matrix_scatter_calls _ _ _ _ Hscatter)
    as (dc & A0 & calls & Hdc & HA0 & Htrace & Hlen & Hcalls).
  exists cell, linked, a, dc, A0, calls. split_and!; try done.
  by rewrite Htrace.
Qed.

End MatrixFacetFacts.

Lemma assemble_matrix_facet_calls_witness :
  ∃ a calls,
    trace (matrix_facet 0 reference_sort example_env
             (replicate 9 0, replicate 7 (replicate 36 0)) 0)
    = KernelCall a :: MatSet [0; 1; 2] [0; 1; 2] (example_kernel a !!! 0%nat)
        :: calls
    ∧ k_num_linked_cells a = 2%nat
    ∧ length calls = 6%nat
    ∧ calls !! 3%nat
      = Some (MatSet [0; 1; 2] [2; 4; 5] (example_kernel a !!! 4%nat)).
Proof.
  destruct (matrix_facet 0 reference_sort example_env
              (replicate 9 0, replicate 7 (replicate 36 0)) 0)
    as [tr [st'|e]] eqn:Hrun; [|vm_compute in Hrun; discriminate Hrun].
  destruct (assemble_matrix_facet_calls 0 reference_sort example_env
              (replicate 9 0) (replicate 7 (replicate 36 0)) 0 st')
    as (cell & linked & a & dc & A0 & calls & Hargs & _ & Hdc & HA0 & Htrace
        & Hlen & Hcalls); [by rewrite Hrun|].
  vm_compute in Hargs. injection Hargs as <- <- Ha.
  vm_compute in Hdc. injection Hdc as <-.
  destruct (Hcalls 1%nat 3 eq_refl) as (dl & A1 & A2 & A3 & Hdl & H1 & _ & _
                                         & Hc3 & _).
  vm_compute in Hdl. injection Hdl as <-.
  exists a, calls. rewrite Hrun in Htrace. simpl in Htrace, Hlen.
  rewrite (list_lookup_total_correct _ _ _ HA0).
  rewrite (list_lookup_total_correct _ _ _ H1).
  split_and!; [done | by rewrite <- Ha | done | done].
Defined.

(** ** The kernel calls, facet by facet, and the zero fill before them *)

Section KernelCallSequence.
Context {PetscScalar double : Type}.
Variable zero : PetscScalar.
Variable add : PetscScalar → PetscScalar → PetscScalar.
Variable dzero : double.
Variable radix_sort : list Z → list Z.

#[local] Abbreviation env := (assembly_env PetscScalar double).
#[local] Abbreviation blocks := (list (list PetscScalar)).
#[local] Abbreviation ev := (event PetscScalar double).
#[local] Abbreviation args := (kernel_args PetscScalar double).

Lemma kernel_call_args_app (t1 t2 : list ev) :
  kernel_call_args (t1 ++ t2) = kernel_call_args t1 ++ kernel_call_args t2.
Proof. apply omap_app. Qed.

Lemma kernel_call_args_mat_sets (t : list ev) :
  Forall (λ e, is_kernel_call e = false) t → kernel_call_args t = [].
Proof.
  induction 1 as [|e t He _ IH]; [done|].
  destruct e; [done|]. exact IH.
Qed.

(** The kernel calls of a loop over the facets [start, start + 1, ...] whose
    steps call the kernel once each, unless they abort before. *)
Lemma foldM_kernel_calls {St} (R : nat → args → Prop)
    (body : St → nat → traced ev St) (len start : nat) (s : St) :
  (∀ s i,
     (∃ a, kernel_call_args (trace (body s i)) = [a] ∧ R i a)
     ∨ (kernel_call_args (trace (body s i)) = []
        ∧ ¬ is_Ok (outcome (body s i)))) →
  ∃ m, (m ≤ len)%nat
       ∧ Forall2 R (seq start m)
           (kernel_call_args (trace (foldM body s (seq start len))))
       ∧ (is_Ok (outcome (foldM body s (seq start len))) → m = len).
Proof.
  intros Hbody. revert start s.
  induction len as [|len IH]; intros start s; cbn [foldM seq].
  - exists 0%nat. split_and!; [done|constructor|done].
  - rewrite trace_bind, outcome_bind.
    destruct (Hbody s start) as [(a & Ha & HR)|[Hnone Habort]];
      destruct (outcome (body s start)) as [s1|e] eqn:Hs1.
    + destruct (IH (S start) s1) as (m & Hm & Hcalls & Hdone).
      exists (S m). rewrite kernel_call_args_app, Ha. split_and!.
      * lia.
      * by constructor.
      * intros Hok. f_equal. by apply Hdone.
    + exists 1%nat. rewrite Ha. split_and!.
      * lia.
      * by repeat constructor.
      * by intros [? [=]].
    + destruct Habort. by eexists.
    + exists 0%nat. rewrite Hnone. split_and!; [lia|constructor|].
      by intros [? [=]].
Qed.

Lemma vector_kernel_args_call (d : env) (i : nat)
    (coordinate_dofs : list double) (bes : blocks) (cell : Z)
    (linked_cells : list Z) (a : args) :
  vector_kernel_args zero radix_sort d i coordinate_dofs bes
    = Ok (cell, linked_cells, a) →
  kernel_call_of_facet radix_sort d i a.
Proof.
  unfold vector_kernel_args. intros H.
  apply bind_Ok in H as ([cell' local_index] & Hfacet%at_nat_Ok & H).
  apply bind_Ok in H as (x_dofs & _ & H).
  apply bind_Ok in H as (coordinate_dofs' & _ & H).
  apply bind_Ok in H as (candidates & Hcand & H).
  apply bind_Ok in H as (linked & Hlinked & H).
  apply bind_Ok in H as (bes' & Hzero & [= <- <- <-]).
  exists cell', linked. split_and!; try done.
  by exists local_index, candidates.
Qed.

(** The coefficients and the stride that the loop reads are the arguments
    of the call. *)
Lemma assembly_preamble_parameters (c : Contact double) (origin_meshtag : Z)
    (kernel : args → blocks) (coeffs0 : list PetscScalar) (cstride0 : Z)
    (constants : list PetscScalar) (d : env) (num_dofs_g max_links : Z) :
  assembly_preamble c origin_meshtag kernel coeffs0 cstride0 constants
    = Ok (d, num_dofs_g, max_links) →
  coeffs d = coeffs0 ∧ cstride d = cstride0.
Proof.
  unfold assembly_preamble. intros H. inv_Ok H. by injection H as <- _ _.
Qed.

(** The kernel calls of the matrix loop, facet by facet. *)
Lemma matrix_loop_kernel_calls (R : nat → args → Prop) (d : env)
    (st : list double * blocks) :
  (∀ i coordinate_dofs Aes cell linked_cells a,
     matrix_kernel_args zero radix_sort d i coordinate_dofs Aes
       = Ok (cell, linked_cells, a) → R i a) →
  let loop := foldM (matrix_facet zero radix_sort d) st
                (seq 0 (length (active_facets d))) in
  ∃ m, (m ≤ length (active_facets d))%nat
       ∧ Forall2 R (seq 0 m) (kernel_call_args (trace loop))
       ∧ (is_Ok (outcome loop) → m = length (active_facets d)).
Proof.
  intros HR. apply foldM_kernel_calls.
  intros [coordinate_dofs Aes] i. rewrite matrix_facet_eq.
  destruct (matrix_kernel_args _ _ _ _ _ _) as [[[cell linked] a]|] eqn:Hargs.
  - left. exists a. split; [|by eapply HR].
    cbn [trace]. change (KernelCall a :: ?t) with ([KernelCall a] ++ t).
    rewrite kernel_call_args_app, (kernel_call_args_mat_sets (trace _));
      [done|].
    by apply matrix_scatter_trace.
  - right. split; [done|]. by intros [? [=]].
Qed.

(** The kernel calls of the vector loop, facet by facet. *)
Lemma vector_loop_kernel_calls (R : nat → args → Prop) (d : env)
    (st : list double * blocks * list PetscScalar) :
  (∀ i coordinate_dofs bes cell linked_cells a,
     vector_kernel_args zero radix_sort d i coordinate_dofs bes
       = Ok (cell, linked_cells, a) → R i a) →
  let loop := foldM (vector_facet zero add radix_sort d) st
                (seq 0 (length (active_facets d))) in
  ∃ m, (m ≤ length (active_facets d))%nat
       ∧ Forall2 R (seq 0 m) (kernel_call_args (trace loop))
       ∧ (is_Ok (outcome loop) → m = length (active_facets d)).
Proof.
  intros HR. apply foldM_kernel_calls.
  intros [[coordinate_dofs bes] b] i. rewrite vector_facet_eq.
  destruct (vector_kernel_args _ _ _ _ _ _) as [[[cell linked] a]|] eqn:Hargs.
  - left. exists a. split; [done | by eapply HR].
  - right. split; [done|]. by intros [? [=]].
Qed.

(** The calls of [assemble_matrix] are those of its loop. *)
Lemma assemble_matrix_loop (c : Contact double) (origin_meshtag : Z)
    (kernel : args → blocks) (coeffs : list PetscScalar) (cstride : Z)
    (constants : list PetscScalar) (d : env) (num_dofs_g max_links : Z) :
  assembly_preamble c origin_meshtag kernel coeffs cstride constants
    = Ok (d, num_dofs_g, max_links) →
  ∃ st,
    let loop := foldM (matrix_facet zero radix_sort d) st
                  (seq 0 (length (active_facets d))) in
    let run := assemble_matrix zero dzero radix_sort c origin_meshtag kernel
                 coeffs cstride constants in
    trace run = trace loop ∧ (is_Ok (outcome run) ↔ is_Ok (outcome loop)).
Proof.
  intros Hpre. unfold assemble_matrix. rewrite Hpre, lift_bind.
  match goal with
  | |- context [foldM _ ?st0 _] => exists st0
  end.
  cbn zeta. rewrite trace_bind, outcome_bind.
  destruct (outcome (foldM _ _ _)) as [st'|e]; cbn [trace outcome].
  - rewrite app_nil_r. split; [done|]. split; intros _; by eexists.
  - split; [done|]. split; intros [? [=]].
Qed.

(** The calls of [assemble_vector] are those of its loop. *)
Lemma assemble_vector_loop (c : Contact double) (b : list PetscScalar)
    (origin_meshtag : Z) (kernel : args → blocks) (coeffs : list PetscScalar)
    (cstride : Z) (constants : list PetscScalar) (d : env)
    (num_dofs_g max_links : Z) :
  assembly_preamble c origin_meshtag kernel coeffs cstride constants
    = Ok (d, num_dofs_g, max_links) →
  ∃ st,
    let loop := foldM (vector_facet zero add radix_sort d) st
                  (seq 0 (length (active_facets d))) in
    let run := assemble_vector zero add dzero radix_sort c b origin_meshtag
                 kernel coeffs cstride constants in
    trace run = trace loop ∧ (is_Ok (outcome run) ↔ is_Ok (outcome loop)).
Proof.
  intros Hpre. unfold assemble_vector. rewrite Hpre, lift_bind.
  destruct (vector_buffers _ _ _ _ _) as [coordinate_dofs bes].
  exists (coordinate_dofs, bes, b).
  cbn zeta. rewrite trace_bind, outcome_bind.
  destruct (outcome (foldM _ _ _)) as [[[? ?] b']|e]; cbn [trace outcome].
  - rewrite app_nil_r. split; [done|]. split; intros _; by eexists.
  - split; [done|]. split; intros [? [=]].
Qed.

(** C6. In [assemble_matrix] the kernel is called once for each facet, in
    the order of the facets, and the call for a facet gets the blocks
    [0 .. 3 * numLinked] filled with zeros, where [numLinked], the number
    that the call is told, is the number of cells that
    [compute_linked_cells] gives for the candidates of the facet; a run
    that completes has made the call for every active facet. For one
    facet the zero fill changes exactly these blocks of [Aes]: the blocks
    after [3 * numLinked] keep what the previous facet left in them. *)
Theorem assemble_matrix_zero_fill (c : Contact double) (origin_meshtag : Z)
    (kernel : args → blocks) (coeffs : list PetscScalar) (cstride : Z)
    (constants : list PetscScalar) (d : env) (num_dofs_g max_links : Z) :
  assembly_preamble c origin_meshtag kernel coeffs cstride constants
    = Ok (d, num_dofs_g, max_links) →
  let run := assemble_matrix zero dzero radix_sort c origin_meshtag kernel
               coeffs cstride constants in
  (∃ m, (m ≤ length (active_facets d))%nat
        ∧ Forall2 (matrix_call_zero_filled zero radix_sort d) (seq 0 m)
            (kernel_call_args (trace run))
        ∧ (is_Ok (outcome run) → m = length (active_facets d)))
  ∧ ∀ (coordinate_dofs : list double) (Aes : blocks) (i : nat),
      Forall (matrix_zero_fill_of_facet zero radix_sort d i Aes)
        (trace (matrix_facet zero radix_sort d (coordinate_dofs, Aes) i)).
Proof.
  intros Hpre run. subst run.
  assert (∀ i coordinate_dofs Aes cell linked_cells a,
            matrix_kernel_args zero radix_sort d i coordinate_dofs Aes
              = Ok (cell, linked_cells, a) →
            facet_cells radix_sort d i cell linked_cells
            ∧ k_num_linked_cells a = length linked_cells
            ∧ zeroed_upto zero Aes (k_blocks a) (3 * length linked_cells))
    as Hcall.
  { intros i coordinate_dofs Aes cell linked a Hargs.
    apply matrix_kernel_args_Ok in Hargs
      as (_ & Hcells & Hzero%zero_matrix_blocks_Ok & Hnum). done. }
  split.
  - destruct (assemble_matrix_loop _ _ _ _ _ _ _ _ _ Hpre)
      as (st & Htrace & Hok).
    destruct (matrix_loop_kernel_calls
                (matrix_call_zero_filled zero radix_sort d) d st)
      as (m & Hm & Hcalls & Hdone).
    { intros i coordinate_dofs Aes cell linked a Hargs.
      destruct (Hcall _ _ _ _ _ _ Hargs) as (Hcells & Hnum & _ & Hlow & _).
      exists cell, linked. split_and!; [done..|]. intros j Hj.
      destruct (Hlow j Hj) as (block & _ & Hblock).
      eexists. split; [done|]. by rewrite length_replicate. }
    exists m. rewrite Htrace. split_and!; [done..|].
    intros Hrun. by apply Hdone, Hok.
  - intros coordinate_dofs Aes i. rewrite matrix_facet_eq.
    destruct (matrix_kernel_args _ _ _ _ _ _) as [[[cell linked] a]|] eqn:Hargs;
      [|constructor].
    cbn [trace]. constructor.
    + destruct (Hcall _ _ _ _ _ _ Hargs) as (Hcells & Hnum & Hzero).
      by exists cell, linked.
    + by apply matrix_scatter_trace.
Qed.

(** X10. When the coefficient array holds [cstride] entries for each
    active facet, the kernel calls of [assemble_matrix] and of
    [assemble_vector] are calls for the facets 0, 1, 2, ... in this order,
    one call each: the call for the facet [i] gets the local index of the
    facet, the coefficients from [i * cstride] on, of which there are at
    least [cstride], the constants and the number of linked cells of the
    facet. A call that completes has called the kernel for every active
    facet; one that aborts, for the facets up to the one at which it
    aborts. *)
Theorem assemble_kernel_calls_in_facet_order (c : Contact double)
    (b : list PetscScalar) (origin_meshtag : Z) (kernel : args → blocks)
    (coeffs : list PetscScalar) (cstride : Z) (constants : list PetscScalar)
    (d : env) (num_dofs_g max_links : Z) :
  assembly_preamble c origin_meshtag kernel coeffs cstride constants
    = Ok (d, num_dofs_g, max_links) →
  0 ≤ cstride →
  Z.of_nat (length (active_facets d)) * cstride ≤ Z.of_nat (length coeffs) →
  Z.of_nat (length coeffs) < 2 ^ 64 →
  let matrix := assemble_matrix zero dzero radix_sort c origin_meshtag kernel
                  coeffs cstride constants in
  let vector := assemble_vector zero add dzero radix_sort c b origin_meshtag
                  kernel coeffs cstride constants in
  (∃ m, (m ≤ length (active_facets d))%nat
        ∧ Forall2 (gets_coefficient_block radix_sort d) (seq 0 m)
            (kernel_call_args (trace matrix))
        ∧ (is_Ok (outcome matrix) → m = length (active_facets d)))
  ∧ (∃ m, (m ≤ length (active_facets d))%nat
          ∧ Forall2 (gets_coefficient_block radix_sort d) (seq 0 m)
              (kernel_call_args (trace vector))
          ∧ (is_Ok (outcome vector) → m = length (active_facets d))).
Proof.
  intros Hpre Hstride Hcoeffs Hsize matrix vector. subst matrix vector.
  destruct (assembly_preamble_parameters _ _ _ _ _ _ _ _ _ Hpre)
    as [Hcoeffs_d Hcstride_d].
  assert (∀ i a, kernel_call_of_facet radix_sort d i a →
            gets_coefficient_block radix_sort d i a) as Hblock.
  { intros i a Hcall. split; [done|].
    destruct Hcall as (cell & linked & _ & Hfacet & -> & _).
    apply lookup_lt_Some in Hfacet.
    rewrite length_drop, Hcoeffs_d, Hcstride_d. nia. }
  split.
  - destruct (assemble_matrix_loop _ _ _ _ _ _ _ _ _ Hpre)
      as (st & Htrace & Hok).
    destruct (matrix_loop_kernel_calls
                (gets_coefficient_block radix_sort d) d st)
      as (m & Hm & Hcalls & Hdone).
    { intros i coordinate_dofs Aes cell linked a Hargs. apply Hblock.
      by apply matrix_kernel_args_Ok in Hargs as [? _]. }
    exists m. rewrite Htrace. split_and!; [done..|].
    intros Hrun. by apply Hdone, Hok.
  - destruct (assemble_vector_loop _ b _ _ _ _ _ _ _ _ Hpre)
      as (st & Htrace & Hok).
    destruct (vector_loop_kernel_calls
                (gets_coefficient_block radix_sort d) d st)
      as (m & Hm & Hcalls & Hdone).
    { intros i coordinate_dofs bes cell linked a Hargs. apply Hblock.
      by eapply vector_kernel_args_call. }
    exists m. rewrite Htrace. split_and!; [done..|].
    intros Hrun. by apply Hdone, Hok.
Qed.

(** X11. In [assemble_vector] the kernel is called once for each facet, in
    the order of the facets, and the call for a facet gets the blocks
    [0 .. numLinked] filled with zeros, where [numLinked], the number that
    the call is told, is the number of cells that [compute_linked_cells]
    gives for the candidates of the facet; a run that completes has made
    the call for every active facet. For one facet the zero fill changes
    exactly these blocks of [bes]: the blocks after [numLinked] keep what
    the previous facet left in them. *)
Theorem assemble_vector_zero_fill (c : Contact double) (b : list PetscScalar)
    (origin_meshtag : Z) (kernel : args → blocks)
    (coeffs : list PetscScalar) (cstride : Z) (constants : list PetscScalar)
    (d : env) (num_dofs_g max_links : Z) :
  assembly_preamble c origin_meshtag kernel coeffs cstride constants
    = Ok (d, num_dofs_g, max_links) →
  let run := assemble_vector zero add dzero radix_sort c b origin_meshtag
               kernel coeffs cstride constants in
  (∃ m, (m ≤ length (active_facets d))%nat
        ∧ Forall2 (vector_call_zero_filled zero radix_sort d) (seq 0 m)
            (kernel_call_args (trace run))
        ∧ (is_Ok (outcome run) → m = length (active_facets d)))
  ∧ ∀ (coordinate_dofs : list double) (bes : blocks) (b : list PetscScalar)
      (i : nat),
      Forall (vector_zero_fill_of_facet zero radix_sort d i bes)
        (trace (vector_facet zero add radix_sort d
                  (coordinate_dofs, bes, b) i)).
Proof.
  intros Hpre run. subst run.
  assert (∀ i coordinate_dofs bes cell linked_cells a,
            vector_kernel_args zero radix_sort d i coordinate_dofs bes
              = Ok (cell, linked_cells, a) →
            facet_cells radix_sort d i cell linked_cells
            ∧ k_num_linked_cells a = length linked_cells
            ∧ zeroed_upto zero bes (k_blocks a) (length linked_cells))
    as Hcall.
  { intros i coordinate_dofs bes cell linked a Hargs.
    apply vector_kernel_args_Ok in Hargs
      as (Hcells & Hzero%zero_vector_blocks_Ok & Hnum). done. }
  split.
  - destruct (assemble_vector_loop _ b _ _ _ _ _ _ _ _ Hpre)
      as (st & Htrace & Hok).
    destruct (vector_loop_kernel_calls
                (vector_call_zero_filled zero radix_sort d) d st)
      as (m & Hm & Hcalls & Hdone).
    { intros i coordinate_dofs bes cell linked a Hargs.
      destruct (Hcall _ _ _ _ _ _ Hargs) as (Hcells & Hnum & _ & Hlow & _).
      exists cell, linked. split_and!; [done..|]. intros j Hj.
      destruct (Hlow j Hj) as (block & _ & Hblock).
      eexists. split; [done|]. by rewrite length_replicate. }
    exists m. rewrite Htrace. split_and!; [done..|].
    intros Hrun. by apply Hdone, Hok.
  - intros coordinate_dofs bes b' i. rewrite vector_facet_eq.
    destruct (vector_kernel_args _ _ _ _ _ _) as [[[cell linked] a]|] eqn:Hargs;
      [|constructor].
    cbn [trace]. constructor; [|constructor].
    destruct (Hcall _ _ _ _ _ _ Hargs) as (Hcells & Hnum & Hzero).
    by exists cell, linked.
Qed.

End KernelCallSequence.

(** On the example the two facets have two linked cells and none. *)
Lemma assemble_matrix_zero_fill_witness :
  k_num_linked_cells
    <$> kernel_call_args
          (trace (assemble_matrix 0 0 reference_sort example_contact 0
                    example_kernel [1000; 2000] 1 []))
  = [2; 0]%nat
  ∧ Forall2 (matrix_call_zero_filled 0 reference_sort example_env) (seq 0 2)
      (kernel_call_args
         (trace (assemble_matrix 0 0 reference_sort example_contact 0
                   example_kernel [1000; 2000] 1 [])))
  ∧ ∀ (coordinate_dofs : list Z) (Aes : list (list Z)) (i : nat),
      Forall (matrix_zero_fill_of_facet 0 reference_sort example_env i Aes)
        (trace (matrix_facet 0 reference_sort example_env
                  (coordinate_dofs, Aes) i)).
Proof.
  destruct (assemble_matrix_zero_fill 0 0 reference_sort example_contact 0
              example_kernel [1000; 2000] 1 [] example_env 3 2 eq_refl)
    as [(m & _ & Hcalls & Hdone) Hfacet].
  rewrite Hdone in Hcalls by (eexists; vm_compute; reflexivity).
  split; [reflexivity | by split].
Defined.

Lemma assemble_kernel_calls_in_facet_order_witness :
  Forall2 (gets_coefficient_block reference_sort example_env) (seq 0 2)
    (kernel_call_args
       (trace (assemble_matrix 0 0 reference_sort example_contact 0
                 example_kernel [1000; 2000] 1 [])))
  ∧ Forall2 (gets_coefficient_block reference_sort example_env) (seq 0 2)
      (kernel_call_args
         (trace (assemble_vector 0 Z.add 0 reference_sort example_contact
                   example_b 0 example_kernel [1000; 2000] 1 []))).
Proof.
  destruct (assemble_kernel_calls_in_facet_order 0 Z.add 0 reference_sort
              example_contact example_b 0 example_kernel [1000; 2000] 1 []
              example_env 3 2 eq_refl)
    as [(m1 & _ & Hcalls1 & Hdone1) (m2 & _ & Hcalls2 & Hdone2)];
    [lia | simpl; lia | simpl; lia |].
  rewrite Hdone1 in Hcalls1 by (eexists; vm_compute; reflexivity).
  rewrite Hdone2 in Hcalls2 by (eexists; vm_compute; reflexivity).
  by split.
Defined.

(** On the example the two facets have two linked cells and none. *)
Lemma assemble_vector_zero_fill_witness :
  k_num_linked_cells
    <$> kernel_call_args
          (trace (assemble_vector 0 Z.add 0 reference_sort example_contact
                    example_b 0 example_kernel [1000; 2000] 1 []))
  = [2; 0]%nat
  ∧ Forall2 (vector_call_zero_filled 0 reference_sort example_env) (seq 0 2)
      (kernel_call_args
         (trace (assemble_vector 0 Z.add 0 reference_sort example_contact
                   example_b 0 example_kernel [1000; 2000] 1 [])))
  ∧ ∀ (coordinate_dofs : list Z) (bes : list (list Z)) (b : list Z)
      (i : nat),
      Forall (vector_zero_fill_of_facet 0 reference_sort example_env i bes)
        (trace (vector_facet 0 Z.add reference_sort example_env
                  (coordinate_dofs, bes, b) i)).
Proof.
  destruct (assemble_vector_zero_fill 0 Z.add 0 reference_sort
              example_contact example_b 0 example_kernel [1000; 2000] 1 []
              example_env 3 2 eq_refl)
    as [(m & _ & Hcalls & Hdone) Hfacet].
  rewrite Hdone in Hcalls by (eexists; vm_compute; reflexivity).
  split; [reflexivity | by split].
Defined.

(** ** The geometry buffer *)

Section GatherFacts.
Context {double : Type}.

Lemma copy_n_lookup (src dst dst' : list double) (off n : Z) (doff : nat)
    (p : nat) :
  copy_n src off n dst doff = Ok dst' →
  dst' !! p
  = if decide (doff ≤ p < doff + Z.to_nat n)%nat
    then src !! (Z.to_nat off + (p - doff))%nat
    else dst !! p.
Proof.
  unfold copy_n. case_decide as Hok; [|done]. intros [= <-].
  destruct Hok as (Hoff & Hsrc & Hdst).
  case_decide as Hp.
  - rewrite lookup_app_r by (rewrite length_take; lia).
    rewrite length_take, Nat.min_l by lia.
    rewrite lookup_app_l by (rewrite length_take, length_drop; lia).
    rewrite lookup_take_lt by lia. by rewrite lookup_drop.
  - destruct (decide (p < doff)%nat) as [Hlt|Hge].
    + rewrite lookup_app_l by (rewrite length_take; lia).
      by rewrite lookup_take_lt.
    + rewrite lookup_app_r by (rewrite length_take; lia).
      rewrite length_take, Nat.min_l by lia.
      rewrite lookup_app_r by (rewrite length_take, length_drop; lia).
      rewrite length_take, length_drop, Nat.min_l by lia.
      rewrite lookup_drop. f_equal. lia.
Qed.

Lemma copy_n_Ok_inv (src dst dst' : list double) (off n : Z) (doff : nat) :
  copy_n src off n dst doff = Ok dst' →
  0 ≤ off ∧ (Z.to_nat off + Z.to_nat n ≤ length src)%nat
  ∧ (doff + Z.to_nat n ≤ length dst)%nat.
Proof. unfold copy_n. by case_decide. Qed.

(** The loop of [gather_coordinates] over the nodes [start .. start + len - 1]
    when a node has at most three coordinates. *)
Lemma gather_loop_lookup (x_g : list double) (gdim : Z) (x_dofs : list Z)
    (len start : nat) (coordinate_dofs coordinate_dofs' : list double) :
  0 ≤ gdim ≤ 3 →
  foldM (λ coordinate_dofs j,
           x_dof ← at_nat x_dofs j;
           copy_n x_g (3 * x_dof) gdim coordinate_dofs (j * 3))
        coordinate_dofs (seq start len) = Ok coordinate_dofs' →
  (∀ j t, (start ≤ j < start + len)%nat → (t < Z.to_nat gdim)%nat →
     ∃ x_dof x, x_dofs !! j = Some x_dof
                ∧ 0 ≤ x_dof
                ∧ x_g !! (Z.to_nat (3 * x_dof) + t)%nat = Some x
                ∧ coordinate_dofs' !! (3 * j + t)%nat = Some x)
  ∧ ∀ p, ¬ ((start ≤ p / 3 < start + len)%nat ∧ (p mod 3 < Z.to_nat gdim)%nat) →
      coordinate_dofs' !! p = coordinate_dofs !! p.
Proof.
  intros Hgdim. revert start coordinate_dofs.
  induction len as [|len IH]; intros start cd; cbn [foldM seq].
  - intros [= <-]. split; [intros; lia | done].
  - intros (cd1 & Hstep & Hrest)%bind_Ok.
    apply bind_Ok in Hstep as (x_dof & Hx_dof%at_nat_Ok & Hcopy).
    destruct (IH _ _ Hrest) as [Hnodes Hkeep].
    pose proof (copy_n_Ok_inv _ _ _ _ _ _ Hcopy) as (Hoff & Hsrc & Hdst).
    split.
    + intros j t Hj Ht. destruct (decide (j = start)) as [->|Hne].
      * destruct (lookup_lt_is_Some_2 x_g (Z.to_nat (3 * x_dof) + t))
          as [x Hx]; [lia|].
        exists x_dof, x. split_and!; [done|lia|done|].
        rewrite Hkeep.
        -- rewrite (copy_n_lookup _ _ _ _ _ _ _ Hcopy).
           rewrite decide_True by lia. rewrite <- Hx. f_equal. lia.
        -- intros [Hdiv _].
           replace ((3 * start + t) / 3)%nat with start in Hdiv; [lia|].
           apply Nat.div_unique with t; lia.
      * apply Hnodes; lia.
    + intros p Hp. rewrite Hkeep.
      * rewrite (copy_n_lookup _ _ _ _ _ _ _ Hcopy).
        rewrite decide_False; [done|]. intros Hin. apply Hp.
        assert (p / 3 = start ∧ p mod 3 = p - 3 * start)%nat as [Hq Hr].
        { assert (p = 3 * start + (p - 3 * start))%nat as Heq by lia.
          split.
          - symmetry. apply Nat.div_unique with (p - 3 * start)%nat; lia.
          - symmetry. apply Nat.mod_unique with start; lia. }
        lia.
      * intros [Hdiv Hmod]. apply Hp. lia.
Qed.

(** X12. With at most three coordinates per node, [gather_coordinates]
    copies the first [gdim] coordinates of the node [x_dofs[j]] from
    [x_g[3 * x_dofs[j] ...]] to the entries [3j .. 3j + gdim - 1] of the
    buffer and changes nothing else: the padding entries of a node and the
    entries of the nodes after the last one keep what they held. *)
Theorem gather_coordinates_copies (x_g : list double) (gdim : Z)
    (x_dofs : list Z) (coordinate_dofs coordinate_dofs' : list double) :
  0 ≤ gdim ≤ 3 →
  gather_coordinates x_g gdim x_dofs coordinate_dofs = Ok coordinate_dofs' →
  length coordinate_dofs' = length coordinate_dofs
  ∧ (∀ j x_dof t,
       x_dofs !! j = Some x_dof → (t < Z.to_nat gdim)%nat →
       ∃ x, x_g !! (Z.to_nat (3 * x_dof) + t)%nat = Some x
            ∧ coordinate_dofs' !! (3 * j + t)%nat = Some x)
  ∧ (∀ p, (length x_dofs ≤ p / 3)%nat ∨ (Z.to_nat gdim ≤ p mod 3)%nat →
       coordinate_dofs' !! p = coordinate_dofs !! p).
Proof.
  intros Hgdim Hrun. split_and!.
  - by destruct (gather_coordinates_shape _ _ _ _ coordinate_dofs _ eq_refl Hrun).
  - intros j x_dof t Hj Ht.
    destruct (gather_loop_lookup _ _ _ _ _ _ _ Hgdim Hrun) as [Hnodes _].
    destruct (Hnodes j t) as (x_dof' & x & Hj' & _ & Hx & Hcd); [|done|].
    { apply lookup_lt_Some in Hj. lia. }
    rewrite Hj in Hj'. injection Hj' as <-. by exists x.
  - intros p Hp.
    destruct (gather_loop_lookup _ _ _ _ _ _ _ Hgdim Hrun) as [_ Hkeep].
    apply Hkeep. lia.
Qed.

End GatherFacts.

Lemma gather_coordinates_copies_witness :
  length [10; 0; 7; 0; 10; 7; 10; 10; 7; 7; 7; 7] = length (replicate 12 7)
  ∧ (∀ j x_dof t,
       [1; 2; 3] !! j = Some x_dof → (t < Z.to_nat 2)%nat →
       ∃ x, geometry_x example_geometry !! (Z.to_nat (3 * x_dof) + t)%nat
              = Some x
            ∧ [10; 0; 7; 0; 10; 7; 10; 10; 7; 7; 7; 7] !! (3 * j + t)%nat
              = Some x)
  ∧ (∀ p, (length [1; 2; 3] ≤ p / 3)%nat ∨ (Z.to_nat 2 ≤ p mod 3)%nat →
       [10; 0; 7; 0; 10; 7; 10; 10; 7; 7; 7; 7] !! p
       = replicate 12 7 !! p).
Proof.
  apply (gather_coordinates_copies (geometry_x example_geometry) 2 [1; 2; 3]
           (replicate 12 7) [10; 0; 7; 0; 10; 7; 10; 10; 7; 7; 7; 7]);
    [lia | reflexivity].
Defined.

(** A loop records only calls with the property [P] when every step from a
    state with the invariant does, and keeps the invariant. *)
Lemma Forall_trace_foldM_invariant {E St B} (P : E → Prop) (Inv : St → Prop)
    (body : St → B → traced E St) (l : list B) (s : St) :
  (∀ s x, Inv s →
     Forall P (trace (body s x))
     ∧ ∀ s', outcome (body s x) = Ok s' → Inv s') →
  Inv s → Forall P (trace (foldM body s l)).
Proof.
  intros Hbody. revert s. induction l as [|x l IH]; intros s Hs; cbn [foldM].
  - constructor.
  - destruct (Hbody s x Hs) as [HP Hinv].
    apply Forall_trace_bind; [done|]. intros s1 Hs1. by apply IH, Hinv.
Qed.

Section GeometryBuffer.
Context {PetscScalar double : Type}.
Variable zero : PetscScalar.
Variable add : PetscScalar → PetscScalar → PetscScalar.
Variable dzero : double.
Variable radix_sort : list Z → list Z.

#[local] Abbreviation env := (assembly_env PetscScalar double).
#[local] Abbreviation blocks := (list (list PetscScalar)).
#[local] Abbreviation args := (kernel_args PetscScalar double).

Lemma gather_coordinates_padded (x_g : list double) (gdim : Z)
    (x_dofs : list Z) (size : nat)
    (coordinate_dofs coordinate_dofs' : list double) :
  0 ≤ gdim ≤ 3 →
  padded_geometry dzero gdim size coordinate_dofs →
  gather_coordinates x_g gdim x_dofs coordinate_dofs = Ok coordinate_dofs' →
  padded_geometry dzero gdim size coordinate_dofs'.
Proof.
  intros Hgdim [Hlen Hpad] Hrun.
  destruct (gather_coordinates_shape _ _ _ _ coordinate_dofs _ eq_refl Hrun)
    as [Hlen' _].
  destruct (gather_loop_lookup _ _ _ _ _ _ _ Hgdim Hrun) as [_ Hkeep].
  split; [congruence|]. intros p Hp Hmod.
  rewrite Hkeep by lia. by apply Hpad.
Qed.

Lemma matrix_kernel_args_gather (d : env) (i : nat)
    (coordinate_dofs : list double) (Aes : blocks) (cell : Z)
    (linked_cells : list Z) (a : args) :
  matrix_kernel_args zero radix_sort d i coordinate_dofs Aes
    = Ok (cell, linked_cells, a) →
  ∃ x_dofs,
    gather_coordinates (x_g d) (gdim d) x_dofs coordinate_dofs
      = Ok (k_coordinate_dofs a).
Proof.
  unfold matrix_kernel_args. intros H.
  apply bind_Ok in H as ([cell' local_index] & _ & H).
  apply bind_Ok in H as (x_dofs & _ & H).
  apply bind_Ok in H as (coordinate_dofs' & Hgather & H).
  apply bind_Ok in H as (candidates & _ & H).
  apply bind_Ok in H as (linked & _ & H).
  apply bind_Ok in H as (Aes' & _ & [= <- <- <-]).
  by exists x_dofs.
Qed.

Lemma vector_kernel_args_gather (d : env) (i : nat)
    (coordinate_dofs : list double) (bes : blocks) (cell : Z)
    (linked_cells : list Z) (a : args) :
  vector_kernel_args zero radix_sort d i coordinate_dofs bes
    = Ok (cell, linked_cells, a) →
  ∃ x_dofs,
    gather_coordinates (x_g d) (gdim d) x_dofs coordinate_dofs
      = Ok (k_coordinate_dofs a).
Proof.
  unfold vector_kernel_args. intros H.
  apply bind_Ok in H as ([cell' local_index] & _ & H).
  apply bind_Ok in H as (x_dofs & _ & H).
  apply bind_Ok in H as (coordinate_dofs' & Hgather & H).
  apply bind_Ok in H as (candidates & _ & H).
  apply bind_Ok in H as (linked & _ & H).
  apply bind_Ok in H as (bes' & _ & [= <- <- <-]).
  by exists x_dofs.
Qed.

Lemma padded_geometry_replicate (gdim : Z) (size : nat) :
  padded_geometry dzero gdim size (replicate size dzero).
Proof.
  split; [apply length_replicate|]. intros p Hp _.
  by apply lookup_replicate_2.
Qed.

(** X13. With at most three coordinates per node, every kernel call of
    [assemble_matrix] and of [assemble_vector] gets a geometry buffer of
    [3 * num_dofs_g] entries in which the entries of a node after the
    first [gdim] are zero: the buffer is reused from facet to facet and
    the padding is never written. *)
Theorem assemble_kernel_geometry_padded (c : Contact double)
    (b : list PetscScalar) (origin_meshtag : Z) (kernel : args → blocks)
    (coeffs : list PetscScalar) (cstride : Z) (constants : list PetscScalar)
    (d : env) (num_dofs_g max_links : Z) :
  assembly_preamble c origin_meshtag kernel coeffs cstride constants
    = Ok (d, num_dofs_g, max_links) →
  0 ≤ gdim d ≤ 3 →
  let size := Z.to_nat (size_t_mul 3 num_dofs_g) in
  Forall (kernel_geometry_padded dzero (gdim d) size)
    (trace (assemble_matrix zero dzero radix_sort c origin_meshtag kernel
              coeffs cstride constants))
  ∧ Forall (kernel_geometry_padded dzero (gdim d) size)
      (trace (assemble_vector zero add dzero radix_sort c b origin_meshtag
                kernel coeffs cstride constants)).
Proof.
  intros Hpre Hgdim size. split.
  - unfold assemble_matrix. rewrite Hpre, lift_bind.
    apply Forall_trace_bind; [|intros; constructor].
    apply (Forall_trace_foldM_invariant _
             (λ st, padded_geometry dzero (gdim d) size st.1));
      [|apply padded_geometry_replicate].
    intros [coordinate_dofs Aes] i Hinv. simpl in Hinv.
    rewrite matrix_facet_eq.
    destruct (matrix_kernel_args _ _ _ _ _ _) as [[[cell linked] a]|] eqn:Hargs;
      [|split; [constructor|done]].
    destruct (matrix_kernel_args_gather _ _ _ _ _ _ _ Hargs)
      as (x_dofs & Hgather).
    pose proof (gather_coordinates_padded _ _ _ _ _ _ Hgdim Hinv Hgather)
      as Hpadded.
    cbn [trace outcome]. split.
    + constructor; [done|]. by apply matrix_scatter_trace.
    + intros st' (u & _ & [= <-])%bind_Ok. done.
  - unfold assemble_vector. rewrite Hpre, lift_bind.
    unfold vector_buffers.
    apply Forall_trace_bind; [|intros [[? ?] ?] _; constructor].
    apply (Forall_trace_foldM_invariant _
             (λ st, padded_geometry dzero (gdim d) size st.1.1));
      [|apply padded_geometry_replicate].
    intros [[coordinate_dofs bes] b'] i Hinv. simpl in Hinv.
    rewrite vector_facet_eq.
    destruct (vector_kernel_args _ _ _ _ _ _) as [[[cell linked] a]|] eqn:Hargs;
      [|split; [constructor|done]].
    destruct (vector_kernel_args_gather _ _ _ _ _ _ _ Hargs)
      as (x_dofs & Hgather).
    pose proof (gather_coordinates_padded _ _ _ _ _ _ Hgdim Hinv Hgather)
      as Hpadded.
    cbn [trace outcome]. split.
    + constructor; [done|constructor].
    + intros st' (b1 & _ & [= <-])%bind_Ok. done.
Qed.

End GeometryBuffer.

Lemma assemble_kernel_geometry_padded_witness :
  Forall (kernel_geometry_padded 0 2 9)
    (trace (assemble_matrix 0 0 reference_sort example_contact 0
              example_kernel [1000; 2000] 1 []))
  ∧ Forall (kernel_geometry_padded 0 2 9)
      (trace (assemble_vector 0 Z.add 0 reference_sort example_contact
                example_b 0 example_kernel [1000; 2000] 1 [])).
Proof.
  apply (assemble_kernel_geometry_padded 0 Z.add 0 reference_sort
           example_contact example_b 0 example_kernel [1000; 2000] 1 []
           example_env 3 2); [reflexivity | simpl; lia].
Defined.

(** ** What a completed assembly implies about its input *)

(** Every step of a completed loop has completed, from a state with the
    invariant of the loop. *)
Lemma foldM_traced_step {E St B} (Inv : St → Prop)
    (body : St → B → traced E St) (l : list B) (s s' : St) (x : B) :
  (∀ s x s', Inv s → outcome (body s x) = Ok s' → Inv s') →
  Inv s → outcome (foldM body s l) = Ok s' → x ∈ l →
  ∃ s1 s2, Inv s1 ∧ outcome (body s1 x) = Ok s2.
Proof.
  intros Hbody. revert s. induction l as [|y l IH]; intros s Hs; cbn [foldM].
  - intros _ Hx. by apply elem_of_nil in Hx.
  - intros (s1 & Hs1 & Hl)%outcome_bind_Ok [->|Hx]%elem_of_cons.
    + by exists s, s1.
    + apply (IH s1); [|done..]. by eapply Hbody.
Qed.

Lemma elem_of_concat {A} (x : A) (ls : list (list A)) :
  x ∈ concat ls ↔ ∃ l, x ∈ l ∧ l ∈ ls.
Proof.
  induction ls as [|l ls IH]; simpl.
  - split; [by intros ?%elem_of_nil | by intros (l & _ & ?%elem_of_nil)].
  - rewrite elem_of_app, IH. split.
    + intros [Hx|(l' & Hx & Hl')]; [exists l | exists l']; split; try done;
        [left | by right].
    + intros (l' & Hx & [->|Hl']%elem_of_cons); [by left | right; eauto].
Qed.

Section CompletedAssembly.
Context {PetscScalar double : Type}.
Variable zero : PetscScalar.
Variable add : PetscScalar → PetscScalar → PetscScalar.
Variable dzero : double.
Variable radix_sort : list Z → list Z.

#[local] Abbreviation env := (assembly_env PetscScalar double).
#[local] Abbreviation blocks := (list (list PetscScalar)).
#[local] Abbreviation args := (kernel_args PetscScalar double).
#[local] Abbreviation write := (Z * PetscScalar)%type.

Lemma block_writes_covers (bs : Z) (ndofs_cell : nat) (dofs : list Z)
    (bes : blocks) (m : nat) (ws : list write) (j : nat) (k : Z) :
  block_writes bs ndofs_cell dofs bes m = Ok ws →
  (j < ndofs_cell)%nat → 0 ≤ k < bs →
  ∃ dof v, dofs !! j = Some dof ∧ (bs * dof + k, v) ∈ ws.
Proof.
  unfold block_writes. intros (wss & Hwss%mapM_Ok & [= <-])%bind_Ok Hj Hk.
  assert (seq 0 ndofs_cell !! j = Some j) as Hj'
    by (apply lookup_seq; lia).
  destruct (Forall2_lookup_l _ _ _ _ _ Hwss Hj') as (row & Hrow & Hmap).
  apply mapM_Ok in Hmap.
  assert (seqZ 0 bs !! Z.to_nat k = Some k) as Hk'.
  { rewrite lookup_seqZ. split; lia. }
  destruct (Forall2_lookup_l _ _ _ _ _ Hmap Hk') as (w & Hw & Hbw).
  unfold block_write in Hbw.
  apply bind_Ok in Hbw as (dof & Hdof%at_nat_Ok & Hbw).
  apply bind_Ok in Hbw as (be & _ & Hbw).
  apply bind_Ok in Hbw as (v & _ & [= <-]).
  exists dof, v. split; [done|].
  apply elem_of_concat. exists row.
  split; by eapply list_elem_of_lookup_2.
Qed.

Lemma facet_writes_covers (d : env) (cell : Z) (linked_cells : list Z)
    (bes : blocks) (ws : list write) (cell' : Z) :
  facet_writes d cell linked_cells bes = Ok ws →
  cell' = cell ∨ cell' ∈ linked_cells →
  ∃ dofs, cell_dofs (dofmap d) cell' = Ok dofs
    ∧ ∀ j k, (j < ndofs_cell d)%nat → 0 ≤ k < bs d →
        ∃ dof v, dofs !! j = Some dof ∧ (bs d * dof + k, v) ∈ ws.
Proof.
  unfold facet_writes. intros H.
  apply bind_Ok in H as (dofs_cell & Hdofs & H).
  apply bind_Ok in H as (ws0 & Hws0 & H).
  apply bind_Ok in H as (wss & Hwss%mapM_Ok & [= <-]).
  intros [->|Hin].
  - exists dofs_cell. split; [done|]. intros j k Hj Hk.
    destruct (block_writes_covers _ _ _ _ _ _ j k Hws0 Hj Hk)
      as (dof & v & Hdof & Hw).
    exists dof, v. split; [done|]. apply elem_of_app. by left.
  - apply list_elem_of_lookup in Hin as [l Hl].
    assert (seq 0 (length linked_cells) !! l = Some l) as Hl'
      by (apply lookup_seq; split; [done | by eapply lookup_lt_Some]).
    destruct (Forall2_lookup_l _ _ _ _ _ Hwss Hl') as (row & Hrow & Hlw).
    unfold linked_writes in Hlw.
    apply bind_Ok in Hlw as (lc & Hlc%at_nat_Ok & Hlw).
    apply bind_Ok in Hlw as (dofs_linked & Hdl & Hbw).
    rewrite Hl in Hlc. injection Hlc as <-.
    exists dofs_linked. split; [done|]. intros j k Hj Hk.
    destruct (block_writes_covers _ _ _ _ _ _ j k Hbw Hj Hk)
      as (dof & v & Hdof & Hw).
    exists dof, v. split; [done|]. apply elem_of_app. right.
    apply elem_of_concat. exists row.
    split; [done | by eapply list_elem_of_lookup_2].
Qed.

(** X14. The additions to [b] are not checked against its size. When
    [assemble_vector] completes, every cell that it has scattered from, the
    cell of an active facet or a cell linked to it, has at least
    [ndofs_cell] dofs, and the index [bs * dof + k] of every one of these
    dofs and every component [k] lies within [b]. *)
Theorem assemble_vector_completes_in_range (c : Contact double)
    (b b' : list PetscScalar) (origin_meshtag : Z) (kernel : args → blocks)
    (coeffs : list PetscScalar) (cstride : Z) (constants : list PetscScalar)
    (d : env) (num_dofs_g max_links : Z) :
  assembly_preamble c origin_meshtag kernel coeffs cstride constants
    = Ok (d, num_dofs_g, max_links) →
  outcome (assemble_vector zero add dzero radix_sort c b origin_meshtag
             kernel coeffs cstride constants) = Ok b' →
  ∀ i cell linked_cells cell',
    facet_cells radix_sort d i cell linked_cells →
    cell' = cell ∨ cell' ∈ linked_cells →
    ∃ dofs,
      cell_dofs (dofmap d) cell' = Ok dofs
      ∧ ∀ j k, (j < ndofs_cell d)%nat → 0 ≤ k < bs d →
          ∃ dof, dofs !! j = Some dof
                 ∧ 0 ≤ bs d * dof + k < Z.of_nat (length b).
Proof.
  intros Hpre. unfold assemble_vector. rewrite Hpre, lift_bind.
  destruct (vector_buffers _ _ _ _ _) as [coordinate_dofs bes].
  intros ([[coordinate_dofs' bes'] b1] & Hloop & [= <-])%outcome_bind_Ok.
  intros i cell linked cell' Hcells Hcell'.
  assert (i ∈ seq 0 (length (active_facets d))) as Hi.
  { destruct Hcells as (li & cands & Hfacet & _).
    apply elem_of_seq. apply lookup_lt_Some in Hfacet. lia. }
  assert (∀ (s : list double * blocks * list PetscScalar) (x : nat) s',
            length s.2 = length b →
            outcome (vector_facet zero add radix_sort d s x) = Ok s' →
            length s'.2 = length b) as Hkeeps.
  { intros [[? ?] ?] ? [[? ?] ?] Hlen Hstep.
    apply vector_facet_frame in Hstep as [Hlen' _]. simpl in *. congruence. }
  destruct (foldM_traced_step (λ st, length st.2 = length b) _ _
              (coordinate_dofs, bes, b) _ i Hkeeps eq_refl Hloop Hi)
    as ([[c1 bes1] b2] & [[c2 bes2] b3] & Hlen & Hstep).
  apply vector_facet_Ok in Hstep
    as (cell0 & linked0 & a & Hargs & _ & _ & Hscatter).
  apply vector_kernel_args_Ok in Hargs as (Hcells0 & _).
  destruct (facet_cells_functional _ _ _ _ _ Hcells) as [-> ->].
  destruct (facet_cells_functional _ _ _ _ _ Hcells0) as [-> ->].
  apply vector_scatter_writes in Hscatter as (ws & Hws & Hb3).
  assert (is_Ok (apply_writes add ws b2)) as Hrange%apply_writes_in_range
    by by eexists.
  destruct (facet_writes_covers _ _ _ _ _ cell' Hws Hcell')
    as (dofs & Hdofs & Hcover).
  exists dofs. split; [done|]. intros j k Hj Hk.
  destruct (Hcover j k Hj Hk) as (dof & v & Hdof & Hw).
  exists dof. split; [done|].
  rewrite Forall_forall in Hrange. specialize (Hrange _ Hw).
  simpl in Hrange, Hlen. by rewrite <- Hlen.
Qed.

Lemma kernel_keeps_blocks_length (d : env) (a : args) :
  kernel_keeps_blocks d → length (kernel d a) = length (k_blocks a).
Proof.
  intros Hkeep. specialize (Hkeep a).
  apply (f_equal length) in Hkeep. by rewrite !length_fmap in Hkeep.
Qed.

Lemma zeroed_upto_top (Aes Aes' : blocks) (top : nat) :
  zeroed_upto zero Aes Aes' top → (top < length Aes)%nat ∧ length Aes' = length Aes.
Proof.
  intros (Hlen & Hlow & _). split; [|done].
  destruct (Hlow top (le_n _)) as (block & Hblock & _).
  by eapply lookup_lt_Some.
Qed.

(** X15. The number of linked cells of a facet is not checked against the
    number of blocks that [_max_links] provides. When the kernel keeps the
    blocks and the assembly completes, no facet has more than [max_links]
    linked cells. *)
Theorem assemble_completes_within_max_links (c : Contact double)
    (b : list PetscScalar) (origin_meshtag : Z) (kernel : args → blocks)
    (coeffs : list PetscScalar) (cstride : Z) (constants : list PetscScalar)
    (d : env) (num_dofs_g max_links : Z) :
  assembly_preamble c origin_meshtag kernel coeffs cstride constants
    = Ok (d, num_dofs_g, max_links) →
  kernel_keeps_blocks d →
  0 ≤ max_links → 3 * max_links + 1 < 2 ^ 64 →
  is_Ok (outcome (assemble_matrix zero dzero radix_sort c origin_meshtag
                    kernel coeffs cstride constants))
  ∨ is_Ok (outcome (assemble_vector zero add dzero radix_sort c b
                      origin_meshtag kernel coeffs cstride constants)) →
  ∀ i cell linked_cells,
    facet_cells radix_sort d i cell linked_cells →
    Z.of_nat (length linked_cells) ≤ max_links.
Proof.
  intros Hpre Hkeep Hml Hfit Hrun i cell linked Hcells.
  assert (i ∈ seq 0 (length (active_facets d))) as Hi.
  { destruct Hcells as (li & cands & Hfacet & _).
    apply elem_of_seq. apply lookup_lt_Some in Hfacet. lia. }
  destruct Hrun as [[u Hrun]|[b' Hrun]].
  - unfold assemble_matrix in Hrun. rewrite Hpre, lift_bind in Hrun.
    apply outcome_bind_Ok in Hrun as (st & Hloop & _).
    set (N := Z.to_nat (size_t_add (size_t_mul 3 max_links) 1)) in *.
    assert (N = Z.to_nat (3 * max_links + 1)) as HN.
    { unfold N, size_t_add, size_t_mul, size_t_wrap.
      rewrite (Z.mod_small (3 * max_links)) by lia.
      by rewrite Z.mod_small by lia. }
    assert (∀ (s : list double * blocks) (x : nat) s',
              length s.2 = N →
              outcome (matrix_facet zero radix_sort d s x) = Ok s' →
              length s'.2 = N) as Hkeeps.
    { intros [c1 A1] j [c2 A2] Hlen Hstep.
      rewrite matrix_facet_eq in Hstep.
      destruct (matrix_kernel_args _ _ _ _ _ _) as [[[? ?] a]|] eqn:Hargs;
        [|done].
      apply bind_Ok in Hstep as (? & _ & [= <- <-]).
      apply matrix_kernel_args_Ok in Hargs
        as (_ & _ & Hzero%zero_matrix_blocks_Ok & _).
      apply zeroed_upto_top in Hzero as [_ Hlen']. simpl in *.
      rewrite (kernel_keeps_blocks_length _ _ Hkeep). congruence. }
    match type of Hloop with
    | outcome (foldM _ ?s _) = _ =>
        destruct (foldM_traced_step (λ st, length st.2 = N) _ _ s _ i
                    Hkeeps (length_replicate N _) Hloop Hi)
          as ([c1 A1] & st2 & Hlen & Hstep)
    end.
    rewrite matrix_facet_eq in Hstep.
    destruct (matrix_kernel_args _ _ _ _ _ _) as [[[cell0 linked0] a]|] eqn:Hargs;
      [|done].
    apply matrix_kernel_args_Ok in Hargs
      as (_ & Hcells0 & Hzero%zero_matrix_blocks_Ok & _).
    destruct (facet_cells_functional _ _ _ _ _ Hcells) as [-> ->].
    destruct (facet_cells_functional _ _ _ _ _ Hcells0) as [_ ->].
    apply zeroed_upto_top in Hzero as [Htop _]. simpl in Hlen. lia.
  - unfold assemble_vector in Hrun. rewrite Hpre, lift_bind in Hrun.
    unfold vector_buffers in Hrun.
    apply outcome_bind_Ok in Hrun as (st & Hloop & _).
    set (N := Z.to_nat (size_t_add max_links 1)) in *.
    assert (N = Z.to_nat (max_links + 1)) as HN.
    { unfold N, size_t_add, size_t_wrap. by rewrite Z.mod_small by lia. }
    assert (∀ (s : list double * blocks * list PetscScalar) (x : nat) s',
              length s.1.2 = N →
              outcome (vector_facet zero add radix_sort d s x) = Ok s' →
              length s'.1.2 = N) as Hkeeps.
    { intros [[c1 A1] b1] j [[c2 A2] b2] Hlen Hstep.
      apply vector_facet_Ok in Hstep as (? & ? & a & Hargs & _ & -> & _).
      apply vector_kernel_args_Ok in Hargs
        as (_ & Hzero%zero_vector_blocks_Ok & _).
      apply zeroed_upto_top in Hzero as [_ Hlen']. simpl in *.
      rewrite (kernel_keeps_blocks_length _ _ Hkeep). congruence. }
    match type of Hloop with
    | outcome (foldM _ ?s _) = _ =>
        destruct (foldM_traced_step (λ st, length st.1.2 = N) _ _ s _ i
                    Hkeeps (length_replicate N _) Hloop Hi)
          as ([[c1 A1] b1] & [[c2 A2] b2] & Hlen & Hstep)
    end.
    apply vector_facet_Ok in Hstep as (cell0 & linked0 & a & Hargs & _).
    apply vector_kernel_args_Ok in Hargs
      as (Hcells0 & Hzero%zero_vector_blocks_Ok & _).
    destruct (facet_cells_functional _ _ _ _ _ Hcells) as [-> ->].
    destruct (facet_cells_functional _ _ _ _ _ Hcells0) as [_ ->].
    apply zeroed_upto_top in Hzero as [Htop _]. simpl in Hlen. lia.
Qed.

End CompletedAssembly.

Lemma example_facet_cells :
  facet_cells reference_sort example_env 0 0 [2; 3].
Proof. exists 1, [1; 0; 1]. by split_and!. Qed.

Lemma assemble_vector_completes_in_range_witness :
  ∃ dofs,
    cell_dofs (dofmap example_env) 3 = Ok dofs
    ∧ ∀ j k, (j < ndofs_cell example_env)%nat → 0 ≤ k < bs example_env →
        ∃ dof, dofs !! j = Some dof
               ∧ 0 ≤ bs example_env * dof + k < Z.of_nat (length example_b).
Proof.
  apply (assemble_vector_completes_in_range 0 Z.add 0 reference_sort
           example_contact example_b example_b' 0 example_kernel
           [1000; 2000] 1 [] example_env 3 2 eq_refl eq_refl
           0%nat 0 [2; 3] 3 example_facet_cells).
  right. set_solver.
Defined.

Lemma assemble_completes_within_max_links_witness :
  facet_cells reference_sort example_env 0 0 [2; 3]
  ∧ Z.of_nat (length [2; 3]) ≤ 2.
Proof.
  split; [exact example_facet_cells|].
  apply (assemble_completes_within_max_links 0 Z.add 0 reference_sort
           example_contact example_b 0 example_kernel [1000; 2000] 1 []
           example_env 3 2 eq_refl example_kernel_keeps_blocks
           ltac:(lia) ltac:(lia)
           (or_intror (ex_intro _ example_b' eq_refl))
           0%nat 0 [2; 3] example_facet_cells).
Defined.

(** ** Facets and accumulation in [assemble_vector] *)

Section VectorComposition.
Context {PetscScalar double : Type}.
Variable zero : PetscScalar.
Variable add : PetscScalar → PetscScalar → PetscScalar.
Variable dzero : double.
Variable radix_sort : list Z → list Z.

#[local] Abbreviation env := (assembly_env PetscScalar double).
#[local] Abbreviation blocks := (list (list PetscScalar)).
#[local] Abbreviation args := (kernel_args PetscScalar double).

(** X16. Whether [assemble_vector] completes is decided facet by facet:
    when the kernel keeps the sizes of the blocks and its values for a
    facet do not depend on what the reused buffers hold, the call completes
    if and only if every active facet, taken alone on the buffers as they
    are allocated, completes. *)
Theorem assemble_vector_completes_facetwise (c : Contact double)
    (b : list PetscScalar) (origin_meshtag : Z) (kernel : args → blocks)
    (coeffs : list PetscScalar) (cstride : Z) (constants : list PetscScalar)
    (d : env) (num_dofs_g max_links : Z) (values : nat → blocks) :
  assembly_preamble c origin_meshtag kernel coeffs cstride constants
    = Ok (d, num_dofs_g, max_links) →
  kernel_keeps_blocks d →
  let buffers := vector_buffers zero dzero d num_dofs_g max_links in
  kernel_values zero radix_sort d (buffer_sizes buffers.1 buffers.2) values →
  is_Ok (outcome (assemble_vector zero add dzero radix_sort c b
                    origin_meshtag kernel coeffs cstride constants))
  ↔ ∀ i, (i < length (active_facets d))%nat →
      is_Ok (outcome (vector_facet zero add radix_sort d
                        (buffers.1, buffers.2, b) i)).
Proof.
  intros Hpre Hkeep buffers Hvalues.
  unfold assemble_vector. rewrite Hpre, lift_bind.
  fold buffers. destruct buffers as [coordinate_dofs bes] eqn:Hbuffers.
  cbn [fst snd] in *.
  set (st0 := (coordinate_dofs, bes, b)).
  assert (is_Ok (outcome (foldM (vector_facet zero add radix_sort d) st0
                            (seq 0 (length (active_facets d)))))
          ↔ ∀ i, (i < length (active_facets d))%nat →
              is_Ok (outcome (vector_facet zero add radix_sort d st0 i)))
    as Hloop.
  { split.
    - intros [st' Hrun] i Hi.
      destruct (vector_loop_forward zero add radix_sort d _ values Hkeep
                  Hvalues _ st0 st' eq_refl Hrun) as (_ & _ & Hall).
      rewrite Forall_forall in Hall.
      destruct (Hall i) as (st1 & Hshape & [st1' Hstep]).
      { apply elem_of_seq. lia. }
      assert (buffer_sizes st1.1.1 st1.1.2
              = buffer_sizes coordinate_dofs bes) as Hsizes.
      { exact (f_equal fst Hshape). }
      destruct (vector_facet_transfer zero add radix_sort d _ values Hkeep
                  Hvalues st1 st1' i Hsizes Hstep) as (_ & _ & Hany).
      apply Hany. by rewrite Hshape.
    - intros Hall.
      apply (vector_loop_transfer zero add radix_sort d _ values Hkeep
               Hvalues _ st0 eq_refl).
      apply Forall_forall. intros i Hi%elem_of_seq.
      exists st0. split; [done|]. apply Hall. lia. }
  rewrite <- Hloop. split.
  - intros [b' ([[? ?] ?] & Hrun & _)%outcome_bind_Ok]. by eexists.
  - intros [[[c1 bes1] b1] Hrun]. exists b1.
    apply outcome_bind_Ok. by exists (c1, bes1, b1).
Qed.

(** X17. In exact arithmetic [assemble_vector] adds to [b] what it leaves
    in a vector of zeros: when the call on [b] completes, so does the call
    on the zero vector of the same length, and every entry of the result is
    the entry of [b] plus the entry of that other result. *)
Theorem assemble_vector_accumulates (c : Contact double)
    (b b' : list PetscScalar) (origin_meshtag : Z) (kernel : args → blocks)
    (coeffs : list PetscScalar) (cstride : Z) (constants : list PetscScalar)
    (d : env) (num_dofs_g max_links : Z) (values : nat → blocks) :
  (∀ x y z, add x (add y z) = add (add x y) z) →
  (∀ x y, add x y = add y x) →
  (∀ x, add x zero = x) →
  assembly_preamble c origin_meshtag kernel coeffs cstride constants
    = Ok (d, num_dofs_g, max_links) →
  kernel_keeps_blocks d →
  kernel_values zero radix_sort d
    (buffer_sizes (vector_buffers zero dzero d num_dofs_g max_links).1
                  (vector_buffers zero dzero d num_dofs_g max_links).2)
    values →
  1 ≤ bs d →
  outcome (assemble_vector zero add dzero radix_sort c b origin_meshtag
             kernel coeffs cstride constants) = Ok b' →
  ∃ r,
    outcome (assemble_vector zero add dzero radix_sort c
               (replicate (length b) zero) origin_meshtag kernel coeffs
               cstride constants) = Ok r
    ∧ length r = length b
    ∧ ∀ p x, b !! p = Some x →
        ∃ s, r !! p = Some s ∧ b' !! p = Some (add x s).
Proof.
  intros add_assoc add_comm add_zero_r Hpre Hkeep Hvalues Hbs.
  unfold assemble_vector. rewrite Hpre, !lift_bind.
  destruct (vector_buffers _ _ _ _ _) as [coordinate_dofs bes].
  cbn [fst snd] in Hvalues.
  intros ([[c1 bes1] b1] & Hrun & [= <-])%outcome_bind_Ok.
  set (n := length (active_facets d)) in *.
  destruct (vector_loop_forward zero add radix_sort d _ values Hkeep
              Hvalues _ (coordinate_dofs, bes, b) _ eq_refl Hrun)
    as (_ & _ & Hall).
  destruct (vector_loop_transfer zero add radix_sort d _ values Hkeep
              Hvalues (seq 0 n)
              (coordinate_dofs, bes, replicate (length b) zero) eq_refl)
    as [[[c2 bes2] r] Hzero].
  { eapply Forall_impl; [exact Hall|]. intros i (st & Hshape & Hok).
    exists st. split; [|done]. rewrite Hshape. unfold shape. simpl.
    by rewrite length_replicate. }
  exists r. split; [apply outcome_bind_Ok; by eexists|].
  assert (length r = length b) as Hlen.
  { destruct (vector_loop_forward zero add radix_sort d _ values Hkeep
                Hvalues _ (coordinate_dofs, bes, replicate (length b) zero)
                _ eq_refl Hzero) as (Hshape & _).
    apply (f_equal snd) in Hshape. simpl in Hshape.
    by rewrite length_replicate in Hshape. }
  split; [done|]. intros p x Hx.
  assert (Z.of_nat p = bs d * (Z.of_nat p / bs d) + Z.of_nat p mod bs d)
    as Hp by (apply Z.div_mod; lia).
  assert (0 ≤ Z.of_nat p mod bs d < bs d) as Hk
    by (apply Z.mod_pos_bound; lia).
  pose proof (vector_loop_sum zero add radix_sort add_assoc add_comm
                add_zero_r d _ values Hkeep Hvalues _
                (coordinate_dofs, bes, b) _
                (Z.of_nat p / bs d) (Z.of_nat p mod bs d) eq_refl Hrun Hk
                ltac:(lia)) as Hsum.
  pose proof (vector_loop_sum zero add radix_sort add_assoc add_comm
                add_zero_r d _ values Hkeep Hvalues _
                (coordinate_dofs, bes, replicate (length b) zero) _
                (Z.of_nat p / bs d) (Z.of_nat p mod bs d) eq_refl Hzero Hk
                ltac:(lia)) as Hsum0.
  rewrite <- Hp, Nat2Z.id in Hsum, Hsum0. simpl in Hsum, Hsum0.
  rewrite Hx in Hsum. rewrite lookup_replicate_2 in Hsum0
    by (by eapply lookup_lt_Some).
  simpl in Hsum, Hsum0. eexists. split; [exact Hsum0|].
  rewrite Hsum. f_equal. f_equal.
  by rewrite (add_comm zero), add_zero_r.
Qed.

End VectorComposition.

Lemma assemble_vector_completes_facetwise_witness :
  is_Ok (outcome (assemble_vector 0 Z.add 0 reference_sort example_contact
                    example_b 0 example_kernel [1000; 2000] 1 [])).
Proof.
  apply (assemble_vector_completes_facetwise 0 Z.add 0 reference_sort
           example_contact example_b 0 example_kernel [1000; 2000] 1 []
           example_env 3 2 example_values example_preamble
           example_kernel_keeps_blocks example_kernel_values).
  intros [|[|i]] Hi; [eexists; vm_compute; reflexivity..|simpl in Hi; lia].
Defined.

Lemma assemble_vector_accumulates_witness :
  ∃ b' r,
    outcome (assemble_vector 0 Z.add 0 reference_sort example_contact
               (replicate 14 5) 0 example_kernel [1000; 2000] 1 []) = Ok b'
    ∧ outcome (assemble_vector 0 Z.add 0 reference_sort example_contact
                 (replicate (length (replicate 14 5)) 0) 0 example_kernel
                 [1000; 2000] 1 []) = Ok r
    ∧ length r = length (replicate 14 5)
    ∧ ∀ p x, replicate 14 5 !! p = Some x →
        ∃ s, r !! p = Some s ∧ b' !! p = Some (x + s).
Proof.
  destruct (outcome (assemble_vector 0 Z.add 0 reference_sort example_contact
                       (replicate 14 5) 0 example_kernel [1000; 2000] 1 []))
    as [b'|e] eqn:Hrun; [|vm_compute in Hrun; discriminate Hrun].
  destruct (assemble_vector_accumulates 0 Z.add 0 reference_sort
              example_contact (replicate 14 5) b' 0 example_kernel
              [1000; 2000] 1 [] example_env 3 2 example_values)
    as (r & Hr & Hlen & Hsum);
    [intros; lia | intros; lia | intros; lia | exact example_preamble
    | exact example_kernel_keeps_blocks | exact example_kernel_values
    | simpl; lia | exact Hrun |].
  by exists b', r.
Defined.

(** ** Failed assertions *)






Section AssertionFailures.
Context {PetscScalar double : Type}.
Variable zero : PetscScalar.
Variable add : PetscScalar → PetscScalar → PetscScalar.
Variable dzero : double.
Variable radix_sort : list Z → list Z.

#[local] Abbreviation env := (assembly_env PetscScalar double).
#[local] Abbreviation blocks := (list (list PetscScalar)).
#[local] Abbreviation ev := (event PetscScalar double).
#[local] Abbreviation args := (kernel_args PetscScalar double).












End AssertionFailures.


